(** * Genome-Automaton: the four motif engines and their factory

    A shallow embedding of [automata_engine.py] (DFA), [nfa_engine.py] (NFA),
    [enfa_engine.py] (EpsilonNFA), [pda_engine.py] (PDA) and
    [automata_factory.py], followed by the properties of the engines.

    Conventions of the embedding:
    - a Python [str] is a [list ascii] (7-bit text); a one-character string,
      such as the [symbol] argument of [step], is an [ascii];
    - a Python [int] is a [Z];
    - a [dict] is a [gmap], a [set] is a [gset];
    - a method that mutates [self] returns the updated engine record;
    - the human-readable description that [step] returns third is left out:
      it is computed from the other two components and feeds nothing back. *)

From Stdlib Require Import ZArith Ascii String List Bool Lia.
From stdpp Require Import base decidable option list sorting gmap sets strings.
Import ListNotations.

Local Open Scope Z_scope.

(** ** Python primitives *)

Abbreviation str := (list ascii).

Definition lit (s : string) : str := list_ascii_of_string s.

Definition len {A} (l : list A) : Z := Z.of_nat (length l).

(** [str.upper] on 7-bit text: the letters a..z move to A..Z. *)
Definition upper_char (c : ascii) : ascii :=
  let n := nat_of_ascii c in
  if (97 <=? n)%nat && (n <=? 122)%nat then ascii_of_nat (n - 32) else c.

Definition upper (s : str) : str := map upper_char s.

(** [range(a, b)] *)
Definition range (a b : Z) : list Z :=
  map (fun k => a + Z.of_nat k) (seq 0 (Z.to_nat (b - a))).

(** [enumerate(l)] *)
Definition enumerate {A} (l : list A) : list (Z * A) :=
  zip (range 0 (len l)) l.

(** Clamping of one slice bound, as [slice.indices] does it. *)
Definition clamp (n i : Z) : Z :=
  if i <? 0 then Z.max (i + n) 0 else Z.min i n.

(** [s[a:b]] *)
Definition slice {A} (s : list A) (a b : Z) : list A :=
  let a' := clamp (len s) a in
  let b' := clamp (len s) b in
  take (Z.to_nat (b' - a')) (drop (Z.to_nat a') s).

(** [s[i]]; [None] stands for IndexError. *)
Definition item {A} (s : list A) (i : Z) : option A :=
  let j := if i <? 0 then i + len s else i in
  if j <? 0 then None else s !! Z.to_nat j.

(** [sym == s[i]] where the index is known to be in range. *)
Definition item_is (s : str) (i : Z) (sym : ascii) : bool :=
  bool_decide (item s i = Some sym).

(** [s.split(sep)] for a one-character separator. *)
Fixpoint split (sep : ascii) (s : str) : list str :=
  match s with
  | [] => [[]]
  | c :: s' =>
      if decide (c = sep) then [] :: split sep s'
      else match split sep s' with
           | x :: xs => (c :: x) :: xs
           | [] => [[c]]
           end
  end.

(** [s.split(sep, 1)]: the part before the first separator and, when there
    is a separator, the part after it. *)
Fixpoint split1 (sep : ascii) (s : str) : str * option str :=
  match s with
  | [] => ([], None)
  | c :: s' =>
      if decide (c = sep) then ([], Some s')
      else let '(h, r) := split1 sep s' in (c :: h, r)
  end.

(** The class attribute [alphabet]. *)
Definition alphabet : list ascii := ["A"; "T"; "G"; "C"]%char.

Definition in_alphabet (c : ascii) : bool := bool_decide (c ∈ alphabet).

(** Exceptions the engines raise; all of them are Python [ValueError]s, told
    apart by their message. *)
Inductive ValueError_msg :=
| ExpectsPattern        (* "Epsilon-NFA expects pattern like HEAD{m,n}TAIL, ..." *)
| NotEnoughValues       (* tuple unpacking of a one-element split *)
| InvalidLiteral (s : str)  (* "invalid literal for int() with base 10: ..." *)
| InvalidSpacerRange    (* "Invalid spacer range" *)
| UnsupportedType (tag : str). (* "Unsupported automata type: <tag>" *)

Inductive exn := ValueError (m : ValueError_msg).

Inductive result (A : Type) :=
| Ok (a : A)
| Raise (e : exn).
Arguments Ok {A} a.
Arguments Raise {A} e.

Definition bind {A B} (r : result A) (k : A -> result B) : result B :=
  match r with
  | Ok a => k a
  | Raise e => Raise e
  end.

Notation "'try!' x ':=' r 'in' k" := (bind r (fun x => k))
  (at level 10, x pattern, r at level 100, k at level 200).

(** A match interval [(start, end)]. *)
Abbreviation interval := (Z * Z)%type.

(** ** automata_engine.py: the exact-match engine *)

Module DFA.

Record t := mk {
  pattern : str;
  transitions : gmap (Z * ascii) Z;
  current_state : Z
}.

(** The target that [_build_linear_chain] stores for [(i, sym)], [n > 0]. *)
Definition chain_target (p : str) (n i : Z) (sym : ascii) : Z :=
  if item_is p i sym then
    if i =? n - 1 then 0 else i + 1
  else
    if item_is p 0 sym && negb (i =? 0) then 1 else 0.

Definition _build_linear_chain (p : str) : gmap (Z * ascii) Z :=
  let n := len p in
  if n =? 0 then
    foldl (fun tr sym => <[(0, sym) := 0]> tr) ∅ alphabet
  else
    foldl (fun tr i =>
             foldl (fun tr sym => <[(i, sym) := chain_target p n i sym]> tr)
                   tr alphabet)
          ∅ (range 0 n).

(** [DFA(pattern)] *)
Definition new (pat : str) : t :=
  let p := upper pat in
  {| pattern := p; transitions := _build_linear_chain p; current_state := 0 |}.

Definition reset (d : t) : t :=
  {| pattern := pattern d; transitions := transitions d; current_state := 0 |}.

Definition get_current_states (d : t) : gset Z := {[ current_state d ]}.

(** [step]: the engine after the call, the new state and [is_match].  The
    conjunct [symbol == self.pattern[-1]] is evaluated only after
    [current_state == len(pattern) - 1] held. *)
Definition step (d : t) (symbol : ascii) : t * (Z * bool) :=
  let symbol := upper_char symbol in
  if in_alphabet symbol then
    let next_state := default 0 (transitions d !! (current_state d, symbol)) in
    let is_match :=
      (current_state d =? len (pattern d) - 1)
      && (next_state =? 0)
      && item_is (pattern d) (-1) symbol in
    ({| pattern := pattern d; transitions := transitions d;
        current_state := next_state |}, (next_state, is_match))
  else
    (d, (current_state d, false)).

(** The loop of [find_all_matches] over [enumerate(dna_sequence)]. *)
Definition scan (acc : t * list interval) (ib : Z * ascii) : t * list interval :=
  let '(d, matches) := acc in
  let '(i, base) := ib in
  let '(d', (_, is_match)) := step d base in
  if is_match then (d', matches ++ [(i - len (pattern d') + 1, i)])
  else (d', matches).

Definition find_all_matches (d : t) (dna_sequence : str) : t * list interval :=
  let '(d', matches) := foldl scan (reset d, []) (enumerate dna_sequence) in
  (reset d', matches).

(** The accessors the diagram view reads. *)
Definition get_states (d : t) : list Z := range 0 (len (pattern d)).

Definition get_initial_states (d : t) : gset Z := {[ 0 ]}.

Definition get_accept_states (d : t) : gset Z := {[ 0 ]}.

(** [get_transitions]: the table in the form [(state, symbol) -> set]. *)
Definition get_transitions (d : t) : gmap (Z * ascii) (gset Z) :=
  map_fold (fun k ns nd => <[k := default ∅ (nd !! k) ∪ {[ ns ]}]> nd)
           ∅ (transitions d).

Definition get_symbol_set (d : t) : list ascii := alphabet.

Definition get_important_restart_edges (d : t) : gset (Z * ascii) :=
  if len (pattern d) >? 0 then
    match item (pattern d) (-1) with
    | Some last_symbol => {[ (len (pattern d) - 1, last_symbol) ]}
    | None => ∅
    end
  else ∅.

(** [get_state_description]; both strings are plain text around the two
    slices of the pattern. *)
Definition get_state_description (d : t) (state : Z) : str :=
  if state =? 0 then lit "Start State: Looking for pattern start (also accept)"
  else
    let matched := slice (pattern d) 0 state in
    let remaining := slice (pattern d) state (len (pattern d)) in
    lit "Partial Match: '" ++ matched ++ lit "' (need '" ++ remaining ++ lit "')".

End DFA.


(** ** nfa_engine.py: the alternatives engine *)

Module NFA.

Record t := mk {
  pattern : str;
  alternatives : list str;
  _next_state_id : Z;
  transitions : gmap (Z * ascii) (gset Z);
  _final_return_edges : gset (Z * ascii);
  current_states : gset Z
}.

(** The part of [self] that [_build_graph] writes. *)
Record graph := mkg {
  g_next : Z;
  g_trans : gmap (Z * ascii) (gset Z);
  g_final : gset (Z * ascii)
}.

Definition _new_state (g : graph) : Z * graph :=
  (g_next g,
   {| g_next := g_next g + 1; g_trans := g_trans g; g_final := g_final g |}).

Definition _add_edge (u : Z) (sym : ascii) (v : Z) (g : graph) : graph :=
  {| g_next := g_next g;
     g_trans := <[(u, sym) := default ∅ (g_trans g !! (u, sym)) ∪ {[ v ]}]> (g_trans g);
     g_final := g_final g |}.

Definition add_final (u : Z) (sym : ascii) (g : graph) : graph :=
  {| g_next := g_next g; g_trans := g_trans g;
     g_final := g_final g ∪ {[ (u, sym) ]} |}.

(** Body of [for i, ch in enumerate(alt)]; the loop state is the local [u],
    the dict [prefix_to_state] and the graph. *)
Definition add_char (alt : str) (st : Z * gmap str Z * graph) (ich : Z * ascii)
  : Z * gmap str Z * graph :=
  let '(u, prefix_to_state, g) := st in
  let '(i, ch) := ich in
  if i =? len alt - 1 then
    (u, prefix_to_state, add_final u ch (_add_edge u ch 0 g))
  else
    let prefix := slice alt 0 (i + 1) in
    match prefix_to_state !! prefix with
    | Some v => (v, prefix_to_state, _add_edge u ch v g)
    | None =>
        let '(v, g') := _new_state g in
        (v, <[prefix := v]> prefix_to_state, _add_edge u ch v g')
    end.

(** Body of [for alt in self.alternatives]. *)
Definition add_alt (st : gmap str Z * graph) (alt : str) : gmap str Z * graph :=
  match alt with
  | [] => st
  | _ =>
      let '(prefix_to_state, g) := st in
      let '(_, prefix_to_state', g') :=
        foldl (add_char alt) (0, prefix_to_state, g) (enumerate alt) in
      (prefix_to_state', g')
  end.

Definition _build_graph (alts : list str) : graph :=
  snd (foldl add_alt
         ({[ [] := 0 ]}, {| g_next := 1; g_trans := ∅; g_final := ∅ |}) alts).

Definition parse_alternatives (pat : str) : list str :=
  let alts := filter (fun p => p <> []) (split "|" (upper pat)) in
  match alts with
  | [] => [[]]
  | _ => alts
  end.

(** [NFA(pattern)] *)
Definition new (pat : str) : t :=
  let alts := parse_alternatives pat in
  let g := _build_graph alts in
  {| pattern := upper pat; alternatives := alts;
     _next_state_id := g_next g; transitions := g_trans g;
     _final_return_edges := g_final g; current_states := {[ 0 ]} |}.

Definition with_states (e : t) (cs : gset Z) : t :=
  {| pattern := pattern e; alternatives := alternatives e;
     _next_state_id := _next_state_id e; transitions := transitions e;
     _final_return_edges := _final_return_edges e; current_states := cs |}.

Definition reset (e : t) : t := with_states e {[ 0 ]}.

Definition get_current_states (e : t) : gset Z := current_states e.

(** The pairs [(u, v)] the two nested loops of [step] visit.  The order in
    which a Python set is iterated does not matter here: the loops only add
    to [next_states] and raise [matched_now]. *)
Definition fired (e : t) (symbol : ascii) (candidates : gset Z) : list (Z * Z) :=
  u ← elements candidates;
  v ← elements (default ∅ (transitions e !! (u, symbol)));
  [(u, v)].

Definition step (e : t) (symbol : ascii) : t * (gset Z * bool) :=
  let symbol := upper_char symbol in
  let prev := current_states e in
  let candidates := prev ∪ {[ 0 ]} in
  let fs := fired e symbol candidates in
  let next_states : gset Z := list_to_set (snd <$> fs) in
  let matched_now :=
    existsb (fun uv : Z * Z =>
               bool_decide ((uv.1, symbol) ∈ _final_return_edges e)
               || ((uv.2 =? 0) && negb (uv.1 =? 0))) fs in
  let next_states := if decide (next_states = ∅) then {[ 0 ]} else next_states in
  (with_states e next_states, (next_states, matched_now)).

(** [alt_lens] of [find_all_matches]. *)
Definition alt_lens (e : t) : gset Z :=
  list_to_set (len <$> filter (fun a => a <> []) (alternatives e)).

(** The loop [for Lcand in alt_lens] that picks [L]: the largest candidate
    that passes the two tests, in whatever order the set is iterated. *)
Definition choose_L (e : t) (s : str) (i : Z) : Z :=
  foldl (fun L Lcand =>
           if (Lcand >? L) && (i - Lcand + 1 >=? 0)
              && bool_decide (slice s (i - Lcand + 1) (i + 1) ∈ alternatives e)
           then Lcand else L)
        0 (elements (alt_lens e)).

Definition scan (s : str) (acc : t * list interval) (ich : Z * ascii)
  : t * list interval :=
  let '(e, matches) := acc in
  let '(i, ch) := ich in
  let '(e', (_, matched)) := step e ch in
  if matched then
    let L := choose_L e' s i in
    if negb (L =? 0) then (e', matches ++ [(i - L + 1, i)]) else (e', matches)
  else (e', matches).

Definition find_all_matches (e : t) (sequence : str) : t * list interval :=
  let s := upper sequence in
  let '(e', matches) := foldl (scan s) (reset e, []) (enumerate s) in
  (reset e', matches).

(** The accessors the diagram view reads. *)
Definition get_states (e : t) : list Z := range 0 (_next_state_id e).

Definition get_initial_states (e : t) : gset Z := {[ 0 ]}.

Definition get_accept_states (e : t) : gset Z := {[ 0 ]}.

Definition get_important_restart_edges (e : t) : gset (Z * ascii) :=
  _final_return_edges e.

End NFA.

(** ** enfa_engine.py: the spacer engine *)

Module ENFA.

Inductive Phase := Head | Spacer | Tail.

Record ENFAState := St { phase : Phase; k : Z }.

Global Instance Phase_eq_dec : EqDecision Phase.
Proof. solve_decision. Defined.

Global Instance ENFAState_eq_dec : EqDecision ENFAState.
Proof. solve_decision. Defined.

Definition Phase_code (p : Phase) : nat :=
  match p with Head => 0 | Spacer => 1 | Tail => 2 end%nat.

Definition Phase_decode (n : nat) : Phase :=
  match n with O => Head | S O => Spacer | _ => Tail end.

Global Instance Phase_countable : Countable Phase.
Proof. apply (inj_countable' Phase_code Phase_decode). by intros []. Defined.

Global Instance ENFAState_countable : Countable ENFAState.
Proof.
  apply (inj_countable' (fun s => (phase s, k s)) (fun p => St p.1 p.2)).
  by intros [].
Defined.

(** ASCII whitespace that [int()] strips. *)
Definition is_space (c : ascii) : bool :=
  let n := nat_of_ascii c in
  (n =? 32)%nat || ((9 <=? n)%nat && (n <=? 13)%nat).

Fixpoint lstrip (s : str) : str :=
  match s with
  | c :: s' => if is_space c then lstrip s' else s
  | [] => []
  end.
Definition strip (s : str) : str := rev (lstrip (rev (lstrip s))).

Definition digit_val (c : ascii) : option Z :=
  let n := nat_of_ascii c in
  if (48 <=? n)%nat && (n <=? 57)%nat then Some (Z.of_nat (n - 48)) else None.

(** Decimal digits, single underscores allowed between two digits. *)
Fixpoint parse_digits (acc : Z) (after_digit : bool) (s : str) : option Z :=
  match s with
  | [] => if after_digit then Some acc else None
  | c :: s' =>
      if decide (c = "_"%char) then
        if after_digit then parse_digits acc false s' else None
      else
        match digit_val c with
        | Some d => parse_digits (10 * acc + d) true s'
        | None => None
        end
  end.

(** [int(s)] on 7-bit text, base 10 (the interpreter's limit on the number
    of digits is not modelled). *)
Definition int (s : str) : result Z :=
  let t := strip s in
  let r :=
    match t with
    | c :: t' =>
        if decide (c = "+"%char) then parse_digits 0 false t'
        else if decide (c = "-"%char) then Z.opp <$> parse_digits 0 false t'
        else parse_digits 0 false t
    | [] => None
    end in
  match r with
  | Some z => Ok z
  | None => Raise (ValueError (InvalidLiteral s))
  end.

(** [a, b = parts], where [parts] came from a split with [maxsplit = 1]. *)
Definition unpack2 (p : str * option str) : result (str * str) :=
  match p with
  | (a, Some b) => Ok (a, b)
  | (_, None) => Raise (ValueError NotEnoughValues)
  end.

Definition contains (c : ascii) (s : str) : bool := bool_decide (c ∈ s).

Definition parse_range (rng : str) : result (Z * Z) :=
  if contains "," rng then
    try! ab := unpack2 (split1 "," rng) in
    try! min_gap := int ab.1 in
    try! max_gap := int ab.2 in
    Ok (min_gap, max_gap)
  else
    try! n := int rng in
    Ok (n, n).

Definition _parse_enfa_pattern (spec : str) : result (str * Z * Z * str) :=
  let s := upper spec in
  if negb (contains "{" s) || negb (contains "}" s) then
    Raise (ValueError ExpectsPattern)
  else
    try! hr := unpack2 (split1 "{" s) in
    try! rt := unpack2 (split1 "}" hr.2) in
    try! gaps := parse_range rt.1 in
    if (gaps.1 <? 0) || (gaps.2 <? gaps.1) then
      Raise (ValueError InvalidSpacerRange)
    else Ok (hr.1, gaps.1, gaps.2, rt.2).

Record t := mk {
  pattern : str;
  head : str;
  min_gap : Z;
  max_gap : Z;
  tail : str;
  current_states : gset ENFAState
}.

(** [EpsilonNFA(pattern)] *)
Definition new (pat : str) : result t :=
  try! p := _parse_enfa_pattern pat in
  let '(h, mn, mx, tl) := p in
  Ok {| pattern := upper pat; head := h; min_gap := mn; max_gap := mx;
        tail := tl; current_states := {[ St Head 0 ]} |}.

Definition with_states (e : t) (cs : gset ENFAState) : t :=
  {| pattern := pattern e; head := head e; min_gap := min_gap e;
     max_gap := max_gap e; tail := tail e; current_states := cs |}.

Definition reset (e : t) : t := with_states e {[ St Head 0 ]}.

Definition get_current_states (e : t) : gset ENFAState := current_states e.

Definition _epsilon_closure (states : gset ENFAState) : gset ENFAState :=
  states ∪ {[ St Head 0 ]}.

(** What one pass of the body of [for st in prev] adds to [next_states]. *)
Definition advance (e : t) (symbol : ascii) (st : ENFAState) : gset ENFAState :=
  match phase st with
  | Head =>
      if (k st <? len (head e)) && item_is (head e) (k st) symbol then
        let nk := k st + 1 in
        if nk =? len (head e) then {[ St Spacer 0 ]} else {[ St Head nk ]}
      else ∅
  | Spacer =>
      (if k st <? max_gap e then {[ St Spacer (k st + 1) ]} else ∅)
      ∪ (if (k st >=? min_gap e) && (len (tail e) >? 0) && item_is (tail e) 0 symbol
         then {[ St Tail 1 ]} else ∅)
  | Tail =>
      if (k st <? len (tail e)) && item_is (tail e) (k st) symbol then
        {[ St Tail (k st + 1) ]}
      else ∅
  end.

Definition step (e : t) (symbol : ascii) : t * (gset ENFAState * bool) :=
  let symbol := upper_char symbol in
  let prev := _epsilon_closure (current_states e) in
  let next_states : gset ENFAState := ⋃ (advance e symbol <$> elements prev) in
  let cs := _epsilon_closure next_states in
  let accepting :=
    existsb (fun st => bool_decide (phase st = Tail) && (k st =? len (tail e)))
            (elements cs) in
  (with_states e cs, (cs, accepting)).

Definition find_all_matches (e : t) (sequence : str) : t * list interval :=
  let s := upper sequence in
  let n := len s in
  let Lh := len (head e) in
  let Lt := len (tail e) in
  (e,
   i ← range 0 (n - Lh + 1);
   if bool_decide (slice s i (i + Lh) <> head e) then []
   else
     g ← range (min_gap e) (max_gap e + 1);
     let j := i + Lh + g in
     if (j + Lt <=? n) && bool_decide (slice s j (j + Lt) = tail e)
     then [(i, j + Lt - 1)] else []).

(** The accessors the diagram view reads. *)
Definition get_states (e : t) : list ENFAState :=
  (St Head <$> range 0 (len (head e) + 1))
  ++ (St Spacer <$> range 0 (max_gap e + 1))
  ++ (St Tail <$> range 0 (len (tail e) + 1)).

Definition get_initial_states (e : t) : gset ENFAState := {[ St Head 0 ]}.

Definition get_accept_states (e : t) : gset ENFAState :=
  {[ St Tail (len (tail e)) ]}.


(** [trans.setdefault(key, set()).add(ns)]; the symbol [None] labels an
    epsilon edge. *)
Definition add_edge (key : ENFAState * option ascii) (ns : ENFAState)
    (trans : gmap (ENFAState * option ascii) (gset ENFAState))
  : gmap (ENFAState * option ascii) (gset ENFAState) :=
  <[key := default ∅ (trans !! key) ∪ {[ ns ]}]> trans.

(** The body of [for k in range(len(self.head))], and of the loop over the
    tail, for the motif [w] of the phase [ph]. *)
Definition motif_edge (ph : Phase) (w : str)
    (trans : gmap (ENFAState * option ascii) (gset ENFAState)) (k : Z) :=
  match item w k with
  | Some a => add_edge (St ph k, Some a) (St ph (k + 1)) trans
  | None => trans
  end.

(** The body of [for g in range(self.max_gap)]. *)
Definition spacer_edges (e : t)
    (trans : gmap (ENFAState * option ascii) (gset ENFAState)) (g : Z) :=
  let trans :=
    foldl (fun trans a => add_edge (St Spacer g, Some a) (St Spacer (g + 1)) trans)
          trans alphabet in
  if (g >=? min_gap e) && (len (tail e) >? 0) then
    match item (tail e) 0 with
    | Some a0 => add_edge (St Spacer g, Some a0) (St Tail 1) trans
    | None => trans
    end
  else trans.

Definition get_transitions (e : t)
  : gmap (ENFAState * option ascii) (gset ENFAState) :=
  let trans := foldl (motif_edge Head (head e)) ∅ (range 0 (len (head e))) in
  let trans := add_edge (St Head (len (head e)), None) (St Spacer 0) trans in
  let trans := foldl (spacer_edges e) trans (range 0 (max_gap e)) in
  foldl (motif_edge Tail (tail e)) trans (range 0 (len (tail e))).

End ENFA.

(** ** pda_engine.py: the complement-palindrome engine *)

Module PDA.

Inductive Mode := push | pop.

Record t := mk {
  pattern : str;
  min_len : Z;
  stack : list ascii;
  pos : Z;
  mode : Mode
}.

Definition _comp (base : ascii) : ascii :=
  if decide (base = "A"%char) then "T"%char
  else if decide (base = "T"%char) then "A"%char
  else if decide (base = "G"%char) then "C"%char
  else if decide (base = "C"%char) then "G"%char
  else "?"%char.

(** [PDA(pattern, min_len)]; [min_len] defaults to 4. *)
Definition new (pat : str) (min_len : Z) : t :=
  {| pattern := upper pat; min_len := Z.max 2 min_len;
     stack := []; pos := 0; mode := push |}.

Definition reset (e : t) : t :=
  {| pattern := pattern e; min_len := min_len e;
     stack := []; pos := 0; mode := push |}.

Definition get_stack (e : t) : list ascii := stack e.
Definition get_control_state (e : t) : Mode := mode e.

Definition step (e : t) (symbol : ascii) : t * (Mode * bool) :=
  let symbol := upper_char symbol in
  let stack1 := stack e ++ [symbol] in
  let pos1 := pos e + 1 in
  let '(mode1, stack2) :=
    if len stack1 >? 8 then (pop, drop 1 stack1) else (push, stack1) in
  ({| pattern := pattern e; min_len := min_len e;
      stack := stack2; pos := pos1; mode := mode1 |}, (mode1, false)).

(** The loop condition of [expand]. *)
Definition pairs_up (s : str) (n l r : Z) : bool :=
  (l >=? 0) && (r <? n)
  && bool_decide (_comp <$> item s l = item s r).

(** The [while] loop of [expand]; [l] falls by one per turn, so [l + 1]
    turns exhaust it. *)
Fixpoint expand_loop (fuel : nat) (s : str) (n l r : Z) : Z * Z :=
  match fuel with
  | O => (l, r)
  | S fuel' =>
      if pairs_up s n l r then expand_loop fuel' s n (l - 1) (r + 1)
      else (l, r)
  end.

(** [expand(l, r)]: what it appends to [matches]. *)
Definition expand (e : t) (s : str) (n l r : Z) : list interval :=
  let '(l', r') := expand_loop (Z.to_nat (l + 1)) s n l r in
  let L := l' + 1 in
  let R := r' - 1 in
  if R - L + 1 >=? min_len e then [(L, R)] else [].

(** The order of tuples of two ints. *)
Definition interval_le (a b : interval) : Prop :=
  a.1 < b.1 \/ (a.1 = b.1 /\ a.2 <= b.2).

Global Instance interval_le_dec : RelDecision interval_le.
Proof. intros a b. unfold interval_le. apply _. Defined.

(** [sorted(set(matches))] *)
Definition sorted_set (matches : list interval) : list interval :=
  merge_sort interval_le (elements (list_to_set matches : gset interval)).

Definition find_all_matches (e : t) (sequence : str) : t * list interval :=
  let s := upper sequence in
  let n := len s in
  let matches := i ← range 0 (n - 1); expand e s n i (i + 1) in
  (e, sorted_set matches).

End PDA.

(** ** automata_base.py and automata_factory.py *)

Module AutomataType.
Definition DFA : str := lit "DFA".
Definition NFA : str := lit "NFA".
Definition ENFA : str := lit "Epsilon-NFA".
Definition PDA : str := lit "PDA".
End AutomataType.

(** What [create_automaton] returns: an instance of one of the four classes. *)
Inductive engine :=
| DFA_instance (d : DFA.t)
| NFA_instance (e : NFA.t)
| ENFA_instance (e : ENFA.t)
| PDA_instance (e : PDA.t).

Definition create_automaton (automata_type pattern : str) : result engine :=
  if decide (automata_type = AutomataType.DFA) then
    Ok (DFA_instance (DFA.new pattern))
  else if decide (automata_type = AutomataType.NFA) then
    Ok (NFA_instance (NFA.new pattern))
  else if decide (automata_type = AutomataType.ENFA) then
    try! e := ENFA.new pattern in Ok (ENFA_instance e)
  else if decide (automata_type = AutomataType.PDA) then
    Ok (PDA_instance
          (PDA.new (match pattern with [] => lit "PALINDROME" | _ => pattern end) 4))
  else Raise (ValueError (UnsupportedType automata_type)).

(** [engine.get_type()], as each class defines it. *)
Definition get_type (e : engine) : str :=
  match e with
  | DFA_instance _ => AutomataType.DFA
  | NFA_instance _ => AutomataType.NFA
  | ENFA_instance _ => AutomataType.ENFA
  | PDA_instance _ => AutomataType.PDA
  end.

(** [available_types()]: the pairs (tag, label) of the menu; the labels are
    display text, kept as written in the source. *)
Definition available_types : list (str * string) :=
  [ (AutomataType.DFA, "DFA – Exact literal matching"%string);
    (AutomataType.NFA, "NFA – Alternatives (ATG|TAA|TGA)"%string);
    (AutomataType.ENFA, "ε-NFA – Spacer ranges (TATA{1,10}TATA)"%string);
    (AutomataType.PDA, "PDA – Complement palindromes (hairpins)"%string) ].

(** * Specification vocabulary *)

(** [P] occurs in [S] at the indices [a .. b]. *)
Definition occurs (P S : str) (a b : Z) : Prop :=
  0 <= a /\ b - a + 1 = len P /\ b < len S /\ slice S a (b + 1) = P.

(** State [k] of the chain built for [p] stands for "the last [k] symbols
    read are the first [k] symbols of [p]"; [t] is the text read so far. *)
Definition dfa_inv (p t : str) (d : DFA.t) : Prop :=
  DFA.pattern d = p /\
  DFA.transitions d = DFA._build_linear_chain p /\
  exists k : nat,
    DFA.current_state d = Z.of_nat k /\ (k < length p)%nat /\
    (k <= length t)%nat /\ drop (length t - k) t = take k p.

(** A caller's call on an engine's incremental interface. *)
Inductive call := Reset | Step (symbol : ascii).

Definition dfa_call (d : DFA.t) (c : call) : DFA.t :=
  match c with Reset => DFA.reset d | Step x => (DFA.step d x).1 end.

Definition nfa_call (e : NFA.t) (c : call) : NFA.t :=
  match c with Reset => NFA.reset e | Step x => (NFA.step e x).1 end.

Definition enfa_call (e : ENFA.t) (c : call) : ENFA.t :=
  match c with Reset => ENFA.reset e | Step x => (ENFA.step e x).1 end.

Definition pda_call (e : PDA.t) (c : call) : PDA.t :=
  match c with Reset => PDA.reset e | Step x => (PDA.step e x).1 end.

(** The word [w] stands in [s] at index [i]. *)
Definition occurs_at (w s : str) (i : Z) : Prop :=
  exists pre post, s = pre ++ w ++ post /\ len pre = i.

(** The spacer engine that [EpsilonNFA("TATA{1,3}TATA")] builds. *)
Definition enfa_TATA_1_3_TATA : ENFA.t :=
  {| ENFA.pattern := lit "TATA{1,3}TATA"; ENFA.head := lit "TATA";
     ENFA.min_gap := 1; ENFA.max_gap := 3; ENFA.tail := lit "TATA";
     ENFA.current_states := {[ ENFA.St ENFA.Head 0 ]} |}.

(** [enumerate] of a tail of a list whose first index is [k]. *)
Definition enumerate_from {A} (k : Z) (l : list A) : list (Z * A) :=
  zip (range k (k + len l)) l.

(** There is an edge from [u] to [v] on [ch]. *)
Definition nfa_edge (tr : gmap (Z * ascii) (gset Z)) (u : Z) (ch : ascii) (v : Z)
  : Prop :=
  v ∈ default ∅ (tr !! (u, ch)).

(** What [_build_graph] maintains: [prefix_to_state] names each inner node
    by the prefix that leads to it, one node per prefix; an edge on [ch]
    leaves the node of [q] for the node of [q ++ [ch]], or for node 0 when
    [q ++ [ch]] is an alternative; final-return edges are of the second
    kind. *)
Definition trie_inv (alts : list str) (p2s : gmap str Z) (g : NFA.graph) : Prop :=
  p2s !! [] = Some 0
  /\ (forall q v, p2s !! q = Some v -> 0 <= v < NFA.g_next g /\ (q <> [] -> v <> 0))
  /\ (forall q1 q2 v, p2s !! q1 = Some v -> p2s !! q2 = Some v -> q1 = q2)
  /\ (forall q v, p2s !! q = Some v -> q <> [] ->
        exists alt, alt ∈ alts /\ q `prefix_of` alt)
  /\ (forall u ch v, nfa_edge (NFA.g_trans g) u ch v ->
        exists q, p2s !! q = Some u
          /\ ((v = 0 /\ q ++ [ch] ∈ alts)
              \/ (v <> 0 /\ p2s !! (q ++ [ch]) = Some v)))
  /\ (forall u ch, (u, ch) ∈ NFA.g_final g ->
        exists q, p2s !! q = Some u /\ q ++ [ch] ∈ alts).

(** Every active state names a prefix that the text read so far ends with. *)
Definition nfa_run_inv (p2s : gmap str Z) (t : str) (cs : gset Z) : Prop :=
  forall u, u ∈ cs -> exists q, p2s !! q = Some u /\ q `suffix_of` t.

(** The engine after the symbols of [t] have been stepped through. *)
Definition nfa_steps (e : NFA.t) (t : str) : NFA.t :=
  foldl (fun e c => (NFA.step e c).1) e t.

(** The flag that [step] returns at position [i] of [s] in the run of
    [find_all_matches]. *)
Definition nfa_flag (e : NFA.t) (s : str) (i : Z) : bool :=
  match item s i with
  | Some c => (NFA.step (nfa_steps (NFA.reset e) (take (Z.to_nat i) s)) c).2.2
  | None => false
  end.

(** The word [w] stands in [s] with its last symbol at index [i]. *)
Definition ends_at (w s : str) (i : Z) : Prop := occurs_at w s (i - len w + 1).

(** [L] is the length of the longest alternative standing in [s] with its
    last symbol at index [i]. *)
Definition longest_alt_ending (alts : list str) (s : str) (i L : Z) : Prop :=
  0 < L
  /\ (exists alt, alt ∈ alts /\ len alt = L /\ ends_at alt s i)
  /\ (forall alt, alt ∈ alts -> alt <> [] -> ends_at alt s i -> len alt <= L).

(** The graph an alternatives engine carries. *)
Definition nfa_graph (e : NFA.t) : NFA.graph :=
  NFA.mkg (NFA._next_state_id e) (NFA.transitions e) (NFA._final_return_edges e).

(** The complement map of the bases: A pairs with T, G with C. *)
Definition complement_pair (l r : ascii) : Prop :=
  (l = "A"%char /\ r = "T"%char) \/ (l = "T"%char /\ r = "A"%char)
  \/ (l = "G"%char /\ r = "C"%char) \/ (l = "C"%char /\ r = "G"%char).

(** The symbols at distance [d] from the centre [(i, i+1)] exist and pair. *)
Definition pair_at (s : str) (i d : Z) : Prop :=
  0 <= i - d /\ i + 1 + d < len s
  /\ exists a b, s !! Z.to_nat (i - d) = Some a
                 /\ s !! Z.to_nat (i + 1 + d) = Some b
                 /\ complement_pair a b.

(** [m] is the number of pairs that the expansion around the centre
    [(i, i+1)] covers: the first [m] pairs match and the next one does not. *)
Definition maximal_arms (s : str) (i m : Z) : Prop :=
  0 <= m /\ (forall d, 0 <= d < m -> pair_at s i d) /\ ~ pair_at s i m.

(** The strict order of tuples of two ints. *)
Definition interval_lt (a b : interval) : Prop :=
  a.1 < b.1 \/ (a.1 = b.1 /\ a.2 < b.2).

(** The first symbol of the pattern occurs nowhere else in it. *)
Definition first_symbol_unique (p : str) : Prop :=
  match p with
  | c :: rest => c ∉ rest
  | [] => True
  end.

(** In state 0 no proper non-empty prefix of the pattern ends the text. *)
Definition dfa_zero_inv (p t : str) (d : DFA.t) : Prop :=
  DFA.current_state d = 0 ->
  forall j : nat, (1 <= j < length p)%nat -> ~ take j p `suffix_of` t.

(** The first interval ends before the second starts. *)
Definition interval_before (x y : interval) : Prop := x.2 < y.1.

(** The graph holds the whole path of [alt], as far as the splits
    [alt = q ++ ch :: rest] with fewer than [n] symbols in [q] go: the node
    of [q] exists and has, on [ch], the final-return edge to node 0 when
    [ch] is the last symbol and an edge to the node of [q ++ [ch]]
    otherwise. *)
Definition trie_covers_upto (p2s : gmap str Z) (g : NFA.graph) (alt : str) (n : nat)
  : Prop :=
  forall q ch rest, alt = q ++ ch :: rest -> (length q < n)%nat ->
    exists u, p2s !! q = Some u
      /\ (rest = [] -> nfa_edge (NFA.g_trans g) u ch 0 /\ (u, ch) ∈ NFA.g_final g)
      /\ (rest <> [] ->
          exists v, p2s !! (q ++ [ch]) = Some v /\ nfa_edge (NFA.g_trans g) u ch v).

(** The second graph has every node, edge and final-return edge of the
    first. *)
Definition graph_ext (st st' : gmap str Z * NFA.graph) : Prop :=
  st.1 ⊆ st'.1
  /\ (forall u ch v, nfa_edge (NFA.g_trans st.2) u ch v ->
                     nfa_edge (NFA.g_trans st'.2) u ch v)
  /\ NFA.g_final st.2 ⊆ NFA.g_final st'.2.

(** Every non-empty proper prefix of an alternative that ends the text read
    so far has its node in the active set. *)
Definition nfa_run_complete (p2s : gmap str Z) (alts : list str) (t : str)
    (cs : gset Z) : Prop :=
  forall alt q ch rest, alt ∈ alts -> alt = q ++ ch :: rest -> q <> [] ->
    q `suffix_of` t -> exists u, p2s !! q = Some u /\ u ∈ cs.

(** The spacer engine after the symbols of [t] have been stepped through. *)
Definition enfa_steps (e : ENFA.t) (t : str) : ENFA.t :=
  foldl (fun e c => (ENFA.step e c).1) e t.

(** What an active state of the spacer engine says about the text [T] read
    so far: [(head, k)] that the first [k] symbols of the head end the text,
    [(spacer, g)] that the head followed by [g] symbols ends it, [(tail, k)]
    that the head, a gap of allowed length and the first [k] symbols of the
    tail end it. *)
Definition enfa_state_sound (e : ENFA.t) (T : str) (st : ENFA.ENFAState) : Prop :=
  0 <= ENFA.k st /\
  match ENFA.phase st with
  | ENFA.Head =>
      (ENFA.k st = 0 \/ ENFA.k st < len (ENFA.head e))
      /\ take (Z.to_nat (ENFA.k st)) (ENFA.head e) `suffix_of` T
  | ENFA.Spacer =>
      ENFA.k st <= ENFA.max_gap e
      /\ ENFA.head e <> []
      /\ exists gap, len gap = ENFA.k st /\ (ENFA.head e ++ gap) `suffix_of` T
  | ENFA.Tail =>
      1 <= ENFA.k st <= len (ENFA.tail e)
      /\ ENFA.head e <> []
      /\ exists gap, ENFA.min_gap e <= len gap <= ENFA.max_gap e
           /\ (ENFA.head e ++ gap ++ take (Z.to_nat (ENFA.k st)) (ENFA.tail e))
                `suffix_of` T
  end.

(** The converse: whatever the text ends with is tracked by an active
    state. *)
Definition enfa_run_complete (e : ENFA.t) (T : str) (cs : gset ENFA.ENFAState)
  : Prop :=
  (forall k : nat, (1 <= k < length (ENFA.head e))%nat ->
     take k (ENFA.head e) `suffix_of` T -> ENFA.St ENFA.Head (Z.of_nat k) ∈ cs)
  /\ (forall gap, len gap <= ENFA.max_gap e ->
        (ENFA.head e ++ gap) `suffix_of` T -> ENFA.St ENFA.Spacer (len gap) ∈ cs)
  /\ (forall gap (k : nat),
        ENFA.min_gap e <= len gap <= ENFA.max_gap e ->
        (1 <= k <= length (ENFA.tail e))%nat ->
        (ENFA.head e ++ gap ++ take k (ENFA.tail e)) `suffix_of` T ->
        ENFA.St ENFA.Tail (Z.of_nat k) ∈ cs).

(** The complement-palindrome engine after the symbols of [t] have been
    stepped through. *)
Definition pda_steps (e : PDA.t) (t : str) : PDA.t :=
  foldl (fun e c => (PDA.step e c).1) e t.

(** The word read backwards with every symbol sent through [_comp]. *)
Definition reverse_complement (w : str) : str := PDA._comp <$> reverse w.

(** [engine.pattern], the attribute every class stores. *)
Definition engine_pattern (e : engine) : str :=
  match e with
  | DFA_instance d => DFA.pattern d
  | NFA_instance e => NFA.pattern e
  | ENFA_instance e => ENFA.pattern e
  | PDA_instance e => PDA.pattern e
  end.

(** The exact-match engine put in state [s]. *)
Definition dfa_at (d : DFA.t) (s : Z) : DFA.t :=
  {| DFA.pattern := DFA.pattern d; DFA.transitions := DFA.transitions d;
     DFA.current_state := s |}.

(** The exported table of the spacer engine has an edge from [s] to [ns]
    labelled [a]. *)
Definition enfa_edge (tr : gmap (ENFA.ENFAState * option ascii) (gset ENFA.ENFAState))
    (s : ENFA.ENFAState) (a : option ascii) (ns : ENFA.ENFAState) : Prop :=
  exists X, tr !! (s, a) = Some X /\ ns ∈ X.

(** The five kinds of edge of the spacer engine's diagram. *)
Inductive enfa_diagram_edge (e : ENFA.t)
  : ENFA.ENFAState -> option ascii -> ENFA.ENFAState -> Prop :=
| edge_head k c :
    0 <= k -> ENFA.head e !! Z.to_nat k = Some c ->
    enfa_diagram_edge e (ENFA.St ENFA.Head k) (Some c) (ENFA.St ENFA.Head (k + 1))
| edge_epsilon :
    enfa_diagram_edge e (ENFA.St ENFA.Head (len (ENFA.head e))) None
                      (ENFA.St ENFA.Spacer 0)
| edge_spacer g c :
    0 <= g < ENFA.max_gap e -> c ∈ alphabet ->
    enfa_diagram_edge e (ENFA.St ENFA.Spacer g) (Some c) (ENFA.St ENFA.Spacer (g + 1))
| edge_spacer_tail g c :
    0 <= g < ENFA.max_gap e -> ENFA.min_gap e <= g -> ENFA.tail e !! 0%nat = Some c ->
    enfa_diagram_edge e (ENFA.St ENFA.Spacer g) (Some c) (ENFA.St ENFA.Tail 1)
| edge_tail k c :
    0 <= k -> ENFA.tail e !! Z.to_nat k = Some c ->
    enfa_diagram_edge e (ENFA.St ENFA.Tail k) (Some c) (ENFA.St ENFA.Tail (k + 1)).


(** Every state number below the next free one is the node of a prefix, and
    a node other than 0 is the node of a proper prefix of an alternative. *)
Definition trie_onto (alts : list str) (p2s : gmap str Z) (g : NFA.graph) : Prop :=
  forall v, 0 <= v < NFA.g_next g ->
    exists q, p2s !! q = Some v
      /\ (v <> 0 -> exists alt ch rest, alt ∈ alts /\ alt = q ++ ch :: rest).

(** * Properties *)

(** ** Facts about the primitives *)

Section primitives.
Context {A : Type}.
Implicit Types (l s t : list A) (i a b : Z).

Lemma len_nil : len (@nil A) = 0.
Proof. reflexivity. Qed.

Lemma len_app l1 l2 : len (l1 ++ l2) = len l1 + len l2.
Proof. unfold len. rewrite length_app. lia. Qed.

Lemma len_cons (x : A) l : len (x :: l) = 1 + len l.
Proof. unfold len. simpl. lia. Qed.

Lemma len_nonneg l : 0 <= len l.
Proof. unfold len. lia. Qed.

Lemma len_zero l : len l = 0 -> l = [].
Proof. destruct l; [done|]. rewrite len_cons. pose proof (len_nonneg l). lia. Qed.

Lemma item_nonneg s i : 0 <= i -> item s i = s !! Z.to_nat i.
Proof.
  intros Hi. unfold item.
  destruct (Z.ltb_spec i 0); [lia|].
  destruct (Z.ltb_spec i 0); [lia|done].
Qed.

Lemma item_last s : item s (-1) = last s.
Proof.
  unfold item. change (-1 <? 0) with true. cbv iota.
  induction s as [|x s' _] using rev_ind; [done|].
  rewrite len_app, last_snoc.
  pose proof (len_nonneg s').
  change (len [x]) with 1.
  destruct (Z.ltb_spec (-1 + (len s' + 1)) 0) as [H1|H1]; [lia|].
  replace (Z.to_nat (-1 + (len s' + 1))) with (length s') by (unfold len; lia).
  by rewrite list_lookup_middle.
Qed.

Lemma slice_take_drop s a b :
  0 <= a -> a <= b -> b <= len s ->
  slice s a b = take (Z.to_nat (b - a)) (drop (Z.to_nat a) s).
Proof.
  intros Ha Hab Hb. unfold slice, clamp.
  destruct (Z.ltb_spec a 0); [lia|].
  destruct (Z.ltb_spec b 0); [lia|].
  by rewrite !Z.min_l by lia.
Qed.

Lemma slice_length s a b :
  0 <= a -> a <= b -> b <= len s -> len (slice s a b) = b - a.
Proof.
  intros Ha Hab Hb. rewrite slice_take_drop by done.
  unfold len in *. rewrite length_take, length_drop. lia.
Qed.

Lemma range_length a b : length (range a b) = Z.to_nat (b - a).
Proof. unfold range. by rewrite length_map, length_seq. Qed.

Lemma elem_of_range a b i : i ∈ range a b <-> a <= i < b.
Proof.
  unfold range. rewrite list_elem_of_fmap. split.
  - intros (k & -> & Hk). apply elem_of_seq in Hk. lia.
  - intros Hi. exists (Z.to_nat (i - a)). split; [lia|].
    apply elem_of_seq. lia.
Qed.

Lemma range_snoc a b : a <= b -> range a (b + 1) = range a b ++ [b].
Proof.
  intros Hab. unfold range.
  replace (Z.to_nat (b + 1 - a)) with (S (Z.to_nat (b - a))) by lia.
  rewrite seq_S, map_app. simpl. do 2 f_equal. lia.
Qed.

Lemma range_nil a b : b <= a -> range a b = [].
Proof. intros H. unfold range. by replace (Z.to_nat (b - a)) with O by lia. Qed.

Lemma enumerate_snoc l (x : A) :
  enumerate (l ++ [x]) = enumerate l ++ [(len l, x)].
Proof.
  unfold enumerate. rewrite len_app. change (len [x]) with 1.
  rewrite range_snoc by apply len_nonneg.
  rewrite zip_with_app; [done|].
  rewrite range_length. unfold len. lia.
Qed.

Lemma enumerate_nil : enumerate (@nil A) = [].
Proof. reflexivity. Qed.

End primitives.

Lemma upper_char_alphabet c : c ∈ alphabet -> upper_char c = c.
Proof.
  unfold alphabet. rewrite !elem_of_cons, elem_of_nil.
  intros [->|[->|[->|[->|[]]]]]; reflexivity.
Qed.

Lemma upper_alphabet s : Forall (fun c => c ∈ alphabet) s -> upper s = s.
Proof.
  induction 1 as [|c s Hc _ IH]; [done|].
  unfold upper in *. simpl. by rewrite IH, upper_char_alphabet.
Qed.

Lemma upper_char_idemp c : upper_char (upper_char c) = upper_char c.
Proof.
  destruct c as [[] [] [] [] [] [] [] []]; reflexivity.
Qed.

Lemma upper_idemp s : upper (upper s) = upper s.
Proof.
  unfold upper. rewrite map_map. apply map_ext. intros; apply upper_char_idemp.
Qed.

Lemma upper_length s : length (upper s) = length s.
Proof. unfold upper. apply length_map. Qed.

Lemma len_upper s : len (upper s) = len s.
Proof. unfold len. by rewrite upper_length. Qed.

Lemma in_alphabet_true c : in_alphabet c = true <-> c ∈ alphabet.
Proof. unfold in_alphabet. apply bool_decide_eq_true. Qed.

(** ** The exact-match engine *)

Section dfa_table.
Variable p : str.

Lemma inner_insert_lookup (g : ascii -> Z) (i : Z) (syms : list ascii)
    (tr : gmap (Z * ascii) Z) (j : Z) (c : ascii) :
  foldl (fun tr sym => <[(i, sym) := g sym]> tr) tr syms !! (j, c)
  = if decide (j = i /\ c ∈ syms) then Some (g c) else tr !! (j, c).
Proof.
  revert tr. induction syms as [|s syms IH]; intros tr; simpl.
  - case_decide as H; [|done]. destruct H as [_ H]. by apply elem_of_nil in H.
  - rewrite IH. destruct (decide (j = i /\ c ∈ syms)) as [[-> Hin]|Hn].
    + rewrite decide_True; [done|]. split; [done|]. by right.
    + destruct (decide ((i, s) = (j, c))) as [Heq|Hne].
      * inversion Heq; subst. rewrite lookup_insert_eq.
        rewrite decide_True; [done|]. split; [done|]. by left.
      * rewrite lookup_insert_ne by done.
        case_decide as H; [|done]. destruct H as [-> H].
        apply elem_of_cons in H as [->|H]; [done|]. destruct Hn. done.
Qed.

Lemma outer_insert_lookup (g : Z -> ascii -> Z) (rows : list Z)
    (syms : list ascii) (tr : gmap (Z * ascii) Z) (j : Z) (c : ascii) :
  foldl (fun tr i => foldl (fun tr sym => <[(i, sym) := g i sym]> tr) tr syms)
        tr rows !! (j, c)
  = if decide (j ∈ rows /\ c ∈ syms) then Some (g j c) else tr !! (j, c).
Proof.
  revert tr. induction rows as [|r rows IH]; intros tr; cbn [foldl].
  - case_decide as H; [|done]. destruct H as [H _]. by apply elem_of_nil in H.
  - rewrite IH. destruct (decide (j ∈ rows /\ c ∈ syms)) as [[Hin Hc]|Hn].
    + rewrite decide_True; [done|]. split; [by right|done].
    + rewrite inner_insert_lookup.
      destruct (decide (j = r /\ c ∈ syms)) as [[-> Hc]|Hn2].
      * rewrite decide_True; [done|]. split; [by left|done].
      * case_decide as H; [|done]. destruct H as [H Hc].
        apply elem_of_cons in H as [->|H]; [by destruct Hn2|by destruct Hn].
Qed.

Lemma build_lookup (i : Z) (c : ascii) :
  0 < len p -> 0 <= i < len p -> c ∈ alphabet ->
  DFA._build_linear_chain p !! (i, c) = Some (DFA.chain_target p (len p) i c).
Proof.
  intros Hn Hi Hc. unfold DFA._build_linear_chain.
  destruct (Z.eqb_spec (len p) 0); [lia|].
  rewrite outer_insert_lookup, decide_True; [done|].
  split; [|done]. by apply elem_of_range.
Qed.

End dfa_table.

Lemma item_is_true s i c :
  0 <= i -> item_is s i c = true <-> s !! Z.to_nat i = Some c.
Proof.
  intros Hi. unfold item_is. rewrite bool_decide_eq_true, item_nonneg by done.
  done.
Qed.

Lemma item_is_last s c : item_is s (-1) c = true <-> last s = Some c.
Proof. unfold item_is. by rewrite bool_decide_eq_true, item_last. Qed.

Lemma last_lookup_pred {A} (l : list A) : last l = l !! pred (length l).
Proof. apply last_lookup. Qed.

Lemma dfa_new_inv P : P <> [] -> dfa_inv (upper P) [] (DFA.new P).
Proof.
  intros HP. repeat split. exists O. simpl. repeat split; try done.
  rewrite upper_length. destruct P; [done|simpl; lia].
Qed.

Lemma dfa_step_inv p t d c :
  dfa_inv p t d -> c ∈ alphabet ->
  dfa_inv p (t ++ [c]) (DFA.step d c).1 /\
  DFA.pattern (DFA.step d c).1 = p /\
  ((DFA.step d c).2.2 = true ->
   (length p <= length t + 1)%nat /\
   drop (length t + 1 - length p) (t ++ [c]) = p).
Proof.
  intros (Hp & Htr & k & Hk & Hkp & Hkt & Hsuf) Hc.
  unfold DFA.step. rewrite (upper_char_alphabet c Hc).
  assert (in_alphabet c = true) as -> by by apply in_alphabet_true.
  cbn [fst snd].
  assert (Hn : 0 < len p) by (unfold len; lia).
  rewrite Htr, Hk, Hp, build_lookup; [|done|unfold len; lia|done].
  unfold default, from_option, id. unfold DFA.chain_target.
  assert (Hlen : length (t ++ [c]) = S (length t)) by (rewrite length_app; simpl; lia).
  destruct (item_is p (Z.of_nat k) c) eqn:Hit.
  - apply item_is_true in Hit; [|lia]. rewrite Nat2Z.id in Hit.
    assert (Hsnoc : drop (length t - k) (t ++ [c]) = take (S k) p).
    { rewrite drop_app_le by lia. rewrite Hsuf. symmetry. by apply take_S_r. }
    destruct (Z.eqb_spec (Z.of_nat k) (len p - 1)) as [Hlast|Hnl].
    + assert (length p = S k) as Hpk by (unfold len in Hlast; lia).
      split; [|split; [done|]].
      * split; [done|]. split; [done|]. exists O. cbn [DFA.current_state].
        repeat split; [lia|lia|].
        rewrite Nat.sub_0_r, drop_all. done.
      * intros _. split; [lia|].
        replace (length t + 1 - length p)%nat with (length t - k)%nat by lia.
        rewrite Hsnoc, <- Hpk. apply firstn_all.
    + split; [|split; [done|]].
      * split; [done|]. split; [done|]. exists (S k). cbn [DFA.current_state].
        repeat split; [lia|unfold len in Hnl; lia|lia|].
        rewrite Hlen. replace (S (length t) - S k)%nat with (length t - k)%nat by lia.
        done.
      * by intros [[? ?]%andb_true_iff ?]%andb_true_iff.
  - assert (Hnot : p !! k <> Some c).
    { intros H. apply not_true_iff_false in Hit. apply Hit.
      apply item_is_true; [lia|]. by rewrite Nat2Z.id. }
    destruct (item_is p 0 c && negb (Z.of_nat k =? 0)) eqn:Hre.
    + apply andb_true_iff in Hre as [H0 Hk0].
      apply item_is_true in H0; [|lia]. change (Z.to_nat 0) with O in H0.
      apply negb_true_iff, Z.eqb_neq in Hk0.
      split; [|split; [done|]].
      * split; [done|]. split; [done|]. exists 1%nat. cbn [DFA.current_state].
        repeat split; [lia|lia|].
        rewrite Hlen. replace (S (length t) - 1)%nat with (length t) by lia.
        rewrite drop_app_length. symmetry.
        destruct p as [|x p']; [done|]. simpl in H0. inversion H0; subst.
        reflexivity.
      * by intros [[? ?]%andb_true_iff ?]%andb_true_iff.
    + split; [|split; [done|]].
      * split; [done|]. split; [done|]. exists O. cbn [DFA.current_state].
        repeat split; [lia|lia|].
        rewrite Nat.sub_0_r, drop_all. done.
      * cbn [snd]. intros Hm.
        apply andb_true_iff in Hm as [Hm Hl].
        apply andb_true_iff in Hm as [Hm _].
        apply Z.eqb_eq in Hm. apply item_is_last in Hl.
        rewrite last_lookup_pred in Hl.
        replace (pred (length p)) with k in Hl by (unfold len in Hm; lia).
        done.
Qed.

Lemma occurs_snoc p t c a b : occurs p t a b -> occurs p (t ++ [c]) a b.
Proof.
  intros (Ha & Hlen & Hb & Hs). pose proof (len_nonneg p).
  unfold occurs. rewrite len_app. change (len [c]) with 1.
  repeat split; [done|done|lia|].
  rewrite slice_take_drop in Hs |- *; [|lia..|rewrite len_app; change (len [c]) with 1; lia].
  rewrite drop_app_le by (unfold len in *; lia).
  rewrite take_app_le; [done|]. rewrite length_drop. unfold len in *. lia.
Qed.

Lemma occurs_suffix p t :
  (length p <= length t)%nat -> p <> [] ->
  drop (length t - length p) t = p ->
  occurs p t (len t - len p) (len t - 1).
Proof.
  intros Hle Hne Hs. unfold occurs, len.
  repeat split; [lia|lia|lia|].
  rewrite slice_take_drop; [|unfold len; lia..].
  replace (Z.to_nat (Z.of_nat (length t) - Z.of_nat (length p)))
    with (length t - length p)%nat by lia.
  rewrite Hs. apply take_ge. lia.
Qed.

Lemma dfa_scan_inv p t d0 :
  p <> [] -> Forall (fun c => c ∈ alphabet) t -> dfa_inv p [] d0 ->
  dfa_inv p t (foldl DFA.scan (d0, []) (enumerate t)).1 /\
  forall a b, (a, b) ∈ (foldl DFA.scan (d0, []) (enumerate t)).2 -> occurs p t a b.
Proof.
  intros Hp Ht H0. induction t as [|c t IH] using rev_ind.
  - split; [done|]. intros a b H. by apply elem_of_nil in H.
  - apply Forall_app in Ht as [Ht Hc]. rewrite Forall_singleton in Hc.
    destruct (IH Ht) as [Hinv Hms]. clear IH.
    rewrite enumerate_snoc, foldl_app.
    destruct (foldl DFA.scan (d0, []) (enumerate t)) as [d ms].
    cbn [foldl fst snd] in *. unfold DFA.scan.
    destruct (dfa_step_inv p t d c Hinv Hc) as (Hinv' & Hpat & Hm).
    destruct (DFA.step d c) as [d' [st m]]. cbn [fst snd] in *.
    destruct m; cbn [fst snd].
    + split; [done|]. intros a b [Hin|Hin]%elem_of_app.
      * by apply occurs_snoc, Hms.
      * apply list_elem_of_singleton in Hin. inversion Hin; subst a b.
        destruct (Hm eq_refl) as [Hle Hs].
        pose proof (occurs_suffix p (t ++ [c])) as Hocc.
        rewrite length_app in Hocc. cbn [length] in Hocc.
        specialize (Hocc Hle Hp Hs).
        rewrite len_app in Hocc. change (len [c]) with 1 in Hocc.
        rewrite Hpat.
        replace (len t - len p + 1) with (len t + 1 - len p) by lia.
        replace (len t) with (len t + 1 - 1) at 2 by lia. done.
    + split; [done|]. intros a b Hin. by apply occurs_snoc, Hms.
Qed.

Lemma dfa_find_all_matches_occurs P S d :
  P <> [] -> Forall (fun c => c ∈ alphabet) S -> DFA.reset d = DFA.new P ->
  forall a b, (a, b) ∈ (DFA.find_all_matches d S).2 -> occurs (upper P) S a b.
Proof.
  intros HP HS Hd a b. unfold DFA.find_all_matches. rewrite Hd.
  assert (Hne : upper P <> []) by (destruct P; done).
  pose proof (dfa_scan_inv (upper P) S (DFA.new P) Hne HS (dfa_new_inv P HP))
    as [_ Hms].
  destruct (foldl DFA.scan (DFA.new P, []) (enumerate S)) as [d' ms].
  cbn [snd] in *. apply Hms.
Qed.

(** C10: every interval that the exact-match engine's [find_all_matches]
    reports on a sequence over the alphabet is a genuine occurrence of the
    pattern: its start is not negative, its length is the length of the
    pattern, and the sequence reads the pattern between its two ends.  The
    engine may be in any state when the search is called. *)
Theorem dfa_find_all_matches_sound (P S : str) (d : DFA.t) :
  P <> [] ->
  Forall (fun c => c ∈ alphabet) P ->
  Forall (fun c => c ∈ alphabet) S ->
  DFA.reset d = DFA.new P ->
  forall a b, (a, b) ∈ (DFA.find_all_matches d S).2 ->
    0 <= a /\ b - a + 1 = len P /\ slice S a (b + 1) = P.
Proof.
  intros HP HPa HS Hd a b Hin.
  destruct (dfa_find_all_matches_occurs P S d HP HS Hd a b Hin) as (Ha & Hl & _ & Hs).
  rewrite (upper_alphabet P HPa) in Hl, Hs. done.
Qed.

Lemma dfa_find_all_matches_sound_witness :
  0 <= 2 /\ 3 - 2 + 1 = len (lit "AA") /\ slice (lit "AAAA") 2 (3 + 1) = lit "AA".
Proof.
  apply (dfa_find_all_matches_sound (lit "AA") (lit "AAAA") (DFA.new (lit "AA"))).
  - done.
  - apply (bool_decide_unpack _). vm_compute. exact I.
  - apply (bool_decide_unpack _). vm_compute. exact I.
  - reflexivity.
  - apply (bool_decide_unpack _). vm_compute. exact I.
Defined.

(** C1 fails on the code: on pattern "AA" and sequence "AAAA" the engine
    returns the two intervals [0,1] and [2,3] and misses the occurrence at
    [1,2]; on pattern "AAT" and sequence "AAAT" it returns nothing although
    the pattern occurs at [1,3]. *)
Theorem dfa_find_all_matches_misses_occurrences :
  (DFA.find_all_matches (DFA.new (lit "AA")) (lit "AAAA")).2 = [(0, 1); (2, 3)]
  /\ occurs (lit "AA") (lit "AAAA") 1 2
  /\ (DFA.find_all_matches (DFA.new (lit "AAT")) (lit "AAAT")).2 = []
  /\ occurs (lit "AAT") (lit "AAAT") 1 3.
Proof.
  split; [vm_compute; reflexivity|].
  split; [repeat split; vm_compute; congruence|].
  split; [vm_compute; reflexivity|].
  repeat split; vm_compute; congruence.
Qed.

(** ** Active-state sets, frames and idempotence *)

Lemma nfa_step_nonempty e x : NFA.current_states (NFA.step e x).1 <> ∅.
Proof.
  unfold NFA.step. cbn [fst NFA.current_states NFA.with_states].
  case_decide as H; [|done].
  intros Hempty. assert (0 ∈ (∅ : gset Z)) as Hin by (rewrite <- Hempty; set_solver).
  set_solver.
Qed.

Lemma nfa_step_reseed e x :
  NFA.fired e (upper_char x) (NFA.current_states e ∪ {[ 0 ]}) = [] ->
  NFA.current_states (NFA.step e x).1 = {[ 0 ]}.
Proof.
  intros H. unfold NFA.step. cbn [fst NFA.current_states NFA.with_states].
  rewrite H. cbn [fmap list_fmap list_to_set]. by rewrite decide_True.
Qed.

Lemma enfa_closure_head0 X : ENFA.St ENFA.Head 0 ∈ ENFA._epsilon_closure X.
Proof. unfold ENFA._epsilon_closure. set_solver. Qed.

Lemma enfa_call_head0 e c :
  ENFA.St ENFA.Head 0 ∈ ENFA.current_states (enfa_call e c).
Proof.
  destruct c as [|x]; cbn.
  - set_solver.
  - apply enfa_closure_head0.
Qed.

(** C7: after [reset] and after every [step], whatever the symbols and
    whatever the engine's state before the calls, the active-state set is not
    empty: the exact-match engine's set is the singleton of its current
    state, the alternatives engine's set is [{0}] whenever no transition
    fired and non-empty otherwise, and the spacer engine's set contains
    [(head, 0)], which its closure adds to any set. *)
Theorem active_states_nonempty (calls : list call) (c : call) :
  (forall d : DFA.t,
     let d' := foldl dfa_call d (calls ++ [c]) in
     DFA.get_current_states d' = {[ DFA.current_state d' ]}
     /\ size (DFA.get_current_states d') = 1%nat)
  /\ (forall e : NFA.t,
        NFA.get_current_states (foldl nfa_call e (calls ++ [c])) <> ∅)
  /\ (forall (e : NFA.t) (x : ascii),
        NFA.fired e (upper_char x) (NFA.current_states e ∪ {[ 0 ]}) = [] ->
        NFA.get_current_states (NFA.step e x).1 = {[ 0 ]})
  /\ (forall e : ENFA.t,
        ENFA.St ENFA.Head 0 ∈ ENFA.get_current_states (foldl enfa_call e (calls ++ [c]))
        /\ ENFA.get_current_states (foldl enfa_call e (calls ++ [c])) <> ∅)
  /\ (forall X : gset ENFA.ENFAState, ENFA.St ENFA.Head 0 ∈ ENFA._epsilon_closure X).
Proof.
  split; [|split; [|split; [|split]]].
  - intros d d'. split; [done|]. unfold DFA.get_current_states. apply size_singleton.
  - intros e. rewrite foldl_app. cbn [foldl].
    destruct c as [|x]; cbn [nfa_call].
    + unfold NFA.get_current_states, NFA.reset. cbn.
      intros H. assert (0 ∈ (∅ : gset Z)) by (rewrite <- H; set_solver). set_solver.
    + apply nfa_step_nonempty.
  - intros e x H. by apply nfa_step_reseed.
  - intros e. rewrite foldl_app. cbn [foldl].
    pose proof (enfa_call_head0 (foldl enfa_call e calls) c) as H.
    split; [done|]. unfold ENFA.get_current_states. set_solver.
  - apply enfa_closure_head0.
Qed.

Lemma enfa_steps_frame (e : ENFA.t) (S : str) (before after : list call) :
  foldl enfa_call (ENFA.find_all_matches (foldl enfa_call e before) S).1 after
  = foldl enfa_call e (before ++ after).
Proof. by rewrite foldl_app. Qed.

Lemma pda_steps_frame (e : PDA.t) (S : str) (before after : list call) :
  foldl pda_call (PDA.find_all_matches (foldl pda_call e before) S).1 after
  = foldl pda_call e (before ++ after).
Proof. by rewrite foldl_app. Qed.

(** C8: [find_all_matches] of the spacer engine and of the
    complement-palindrome engine leaves the engine as it found it: the
    active-state set, respectively the stack, the position and the mode, are
    the same after the call as before it, so a step-wise run interrupted by
    a batch search continues as if the search had not happened. *)
Theorem batch_search_frame (S : str) :
  (forall e : ENFA.t,
     ENFA.get_current_states (ENFA.find_all_matches e S).1 = ENFA.get_current_states e
     /\ (ENFA.find_all_matches e S).1 = e)
  /\ (forall e : PDA.t,
        PDA.get_stack (PDA.find_all_matches e S).1 = PDA.get_stack e
        /\ PDA.pos (PDA.find_all_matches e S).1 = PDA.pos e
        /\ PDA.get_control_state (PDA.find_all_matches e S).1 = PDA.get_control_state e
        /\ (PDA.find_all_matches e S).1 = e)
  /\ (forall (e : ENFA.t) (before after : list call),
        foldl enfa_call (ENFA.find_all_matches (foldl enfa_call e before) S).1 after
        = foldl enfa_call e (before ++ after))
  /\ (forall (e : PDA.t) (before after : list call),
        foldl pda_call (PDA.find_all_matches (foldl pda_call e before) S).1 after
        = foldl pda_call e (before ++ after)).
Proof.
  split; [|split; [|split]].
  - intros e. done.
  - intros e. done.
  - intros. apply enfa_steps_frame.
  - intros. apply pda_steps_frame.
Qed.

Lemma dfa_step_fields d x :
  DFA.pattern (DFA.step d x).1 = DFA.pattern d
  /\ DFA.transitions (DFA.step d x).1 = DFA.transitions d.
Proof. unfold DFA.step. by destruct (in_alphabet (upper_char x)). Qed.

Lemma dfa_scan_fields acc l :
  DFA.pattern (foldl DFA.scan acc l).1 = DFA.pattern acc.1
  /\ DFA.transitions (foldl DFA.scan acc l).1 = DFA.transitions acc.1.
Proof.
  revert acc. induction l as [|[i x] l IH]; intros [d ms]; [done|].
  cbn [foldl]. destruct (IH (DFA.scan (d, ms) (i, x))) as [-> ->].
  unfold DFA.scan. pose proof (dfa_step_fields d x) as [H1 H2].
  destruct (DFA.step d x) as [d' [st m]]. cbn [fst] in *.
  by destruct m.
Qed.

Lemma dfa_find_all_matches_resets d S :
  (DFA.find_all_matches d S).1 = DFA.reset d.
Proof.
  unfold DFA.find_all_matches.
  pose proof (dfa_scan_fields (DFA.reset d, []) (enumerate S)) as [H1 H2].
  destruct (foldl DFA.scan (DFA.reset d, []) (enumerate S)) as [d' ms].
  cbn [fst] in *. unfold DFA.reset in *. cbn in *. by rewrite H1, H2.
Qed.

Lemma dfa_find_all_matches_reset_arg d S :
  DFA.find_all_matches (DFA.reset d) S = DFA.find_all_matches d S.
Proof. reflexivity. Qed.

Lemma nfa_reset_step e x : NFA.reset (NFA.step e x).1 = NFA.reset e.
Proof. reflexivity. Qed.

Lemma nfa_scan_reset s acc l :
  NFA.reset (foldl (NFA.scan s) acc l).1 = NFA.reset acc.1.
Proof.
  revert acc. induction l as [|[i x] l IH]; intros [e ms]; [done|].
  cbn [foldl]. rewrite IH. unfold NFA.scan.
  pose proof (nfa_reset_step e x) as H.
  destruct (NFA.step e x) as [e' [st m]]. cbn [fst] in *.
  destruct m; [|done]. by destruct (negb _).
Qed.

Lemma nfa_find_all_matches_resets e S :
  (NFA.find_all_matches e S).1 = NFA.reset e.
Proof.
  unfold NFA.find_all_matches.
  pose proof (nfa_scan_reset (upper S) (NFA.reset e, []) (enumerate (upper S))) as H.
  destruct (foldl (NFA.scan (upper S)) (NFA.reset e, []) (enumerate (upper S)))
    as [e' ms].
  cbn [fst] in *. by rewrite H.
Qed.

(** C9: [reset] is idempotent on each of the four engines; and two
    consecutive calls of [find_all_matches] on the exact-match engine or on
    the alternatives engine return equal lists, each call leaving the engine
    in its reset configuration. *)
Theorem reset_and_search_idempotent :
  (forall d : DFA.t, DFA.reset (DFA.reset d) = DFA.reset d)
  /\ (forall e : NFA.t, NFA.reset (NFA.reset e) = NFA.reset e)
  /\ (forall e : ENFA.t, ENFA.reset (ENFA.reset e) = ENFA.reset e)
  /\ (forall e : PDA.t, PDA.reset (PDA.reset e) = PDA.reset e)
  /\ (forall (d : DFA.t) (S : str),
        let r1 := DFA.find_all_matches d S in
        let r2 := DFA.find_all_matches r1.1 S in
        r1.2 = r2.2 /\ r1.1 = DFA.reset d /\ r2.1 = DFA.reset d
        /\ DFA.current_state r1.1 = 0 /\ DFA.current_state r2.1 = 0)
  /\ (forall (e : NFA.t) (S : str),
        let r1 := NFA.find_all_matches e S in
        let r2 := NFA.find_all_matches r1.1 S in
        r1.2 = r2.2 /\ r1.1 = NFA.reset e /\ r2.1 = NFA.reset e
        /\ NFA.current_states r1.1 = {[ 0 ]} /\ NFA.current_states r2.1 = {[ 0 ]}).
Proof.
  split; [done|]. split; [done|]. split; [done|]. split; [done|]. split.
  - intros d S r1 r2. subst r1 r2.
    rewrite !dfa_find_all_matches_resets.
    by rewrite dfa_find_all_matches_reset_arg.
  - intros e S r1 r2. subst r1 r2.
    rewrite !nfa_find_all_matches_resets. done.
Qed.

(** ** The spacer engine's batch search *)

Lemma occurs_at_iff (w s : str) (i : Z) :
  occurs_at w s i <-> 0 <= i /\ i + len w <= len s /\ slice s i (i + len w) = w.
Proof.
  split.
  - intros (pre & post & -> & <-). pose proof (len_nonneg pre).
    pose proof (len_nonneg w). pose proof (len_nonneg post).
    rewrite !len_app. split; [done|]. split; [lia|].
    rewrite slice_take_drop; [|lia|lia|rewrite !len_app; lia].
    replace (Z.to_nat (len pre)) with (length pre) by (unfold len; lia).
    rewrite drop_app_length.
    replace (Z.to_nat (len pre + len w - len pre)) with (length w)
      by (unfold len; lia).
    by rewrite take_app_length.
  - intros (Hi & Hle & Hs). pose proof (len_nonneg w).
    rewrite slice_take_drop in Hs by lia.
    exists (take (Z.to_nat i) s), (drop (Z.to_nat (i + len w - i)) (drop (Z.to_nat i) s)).
    split.
    + rewrite <- Hs at 1. by rewrite take_drop, take_drop.
    + unfold len in *. rewrite length_take. lia.
Qed.

Lemma occurs_at_app (w1 w2 s : str) (i : Z) :
  occurs_at (w1 ++ w2) s i <-> occurs_at w1 s i /\ occurs_at w2 s (i + len w1).
Proof.
  split.
  - intros (pre & post & -> & <-). split.
    + exists pre, (w2 ++ post). by rewrite <- app_assoc.
    + exists (pre ++ w1), post. rewrite len_app. split; [|done].
      by rewrite <- !app_assoc.
  - intros [(pre & post & -> & <-) (pre' & post' & Heq & Hlen)].
    exists pre, post'. split; [|done].
    rewrite app_assoc in Heq.
    apply app_inj_1 in Heq as [<- Heq].
    + by rewrite Heq, <- app_assoc.
    + unfold len in *. rewrite length_app. lia.
Qed.

Lemma enfa_find_all_matches_elem (e : ENFA.t) (S : str) (a b : Z) :
  0 <= ENFA.min_gap e ->
  (a, b) ∈ (ENFA.find_all_matches e S).2 <->
  exists g,
    b = a + len (ENFA.head e) + g + len (ENFA.tail e) - 1
    /\ occurs_at (ENFA.head e) (upper S) a
    /\ ENFA.min_gap e <= g <= ENFA.max_gap e
    /\ occurs_at (ENFA.tail e) (upper S) (a + len (ENFA.head e) + g).
Proof.
  intros Hmin. unfold ENFA.find_all_matches. cbn [snd].
  pose proof (len_nonneg (ENFA.head e)) as Hh.
  pose proof (len_nonneg (ENFA.tail e)) as Ht.
  rewrite list_elem_of_bind. split.
  - intros (i & Hin & Hi). apply elem_of_range in Hi.
    case_bool_decide as Hhead; [by apply elem_of_nil in Hin|].
    apply list_elem_of_bind in Hin as (g & Hin & Hg). apply elem_of_range in Hg.
    cbv zeta in Hin.
    destruct (_ && _) eqn:Hc; [|by apply elem_of_nil in Hin].
    apply andb_true_iff in Hc as [Hfit Htail].
    apply Z.leb_le in Hfit. apply bool_decide_eq_true in Htail.
    apply list_elem_of_singleton in Hin. inversion Hin; subst a b.
    exists g. split; [lia|]. split; [apply occurs_at_iff; split_and!; [lia|lia|done]|].
    split; [lia|]. apply occurs_at_iff. split_and!; [lia|lia|done].
  - intros (g & -> & Hhead & Hg & Htail).
    apply occurs_at_iff in Hhead as (Ha & Hfit & Hhead).
    apply occurs_at_iff in Htail as (_ & Hfit' & Htail).
    exists a. split; [|apply elem_of_range; lia].
    rewrite bool_decide_eq_false_2 by (intros H; by apply H).
    apply list_elem_of_bind. exists g. split; [|apply elem_of_range; lia].
    cbv zeta.
    rewrite (proj2 (Z.leb_le _ _) Hfit'), bool_decide_eq_true_2 by done.
    cbn. replace (a + len (ENFA.head e) + g + len (ENFA.tail e) - 1)
      with (a + len (ENFA.head e) + g + len (ENFA.tail e) - 1) by lia.
    apply list_elem_of_singleton. done.
Qed.

Lemma range_NoDup a b : NoDup (range a b).
Proof.
  unfold range. apply NoDup_fmap_2; [|apply NoDup_seq].
  intros x y. lia.
Qed.

Lemma elem_of_guard_nil {A} (b : bool) (x : A) (l : list A) :
  x ∈ (if b then [] else l) -> b = false /\ x ∈ l.
Proof. destruct b; [by intros ?%elem_of_nil|done]. Qed.

Lemma elem_of_guard_single {A} (b : bool) (x y : A) :
  x ∈ (if b then [y] else []) -> b = true /\ x = y.
Proof.
  destruct b; [|by intros ?%elem_of_nil]. by intros ?%list_elem_of_singleton.
Qed.

Lemma enfa_find_all_matches_NoDup (e : ENFA.t) (S : str) :
  NoDup (ENFA.find_all_matches e S).2.
Proof.
  unfold ENFA.find_all_matches. cbn [snd].
  apply NoDup_bind; [| |apply range_NoDup].
  - intros i1 i2 [a b] _ _ H1 H2.
    apply elem_of_guard_nil in H1 as [_ H1], H2 as [_ H2].
    apply list_elem_of_bind in H1 as (g1 & H1 & _).
    apply list_elem_of_bind in H2 as (g2 & H2 & _).
    cbv zeta in H1, H2.
    apply elem_of_guard_single in H1 as [_ H1], H2 as [_ H2]. congruence.
  - intros i _. destruct (bool_decide _); [apply NoDup_nil_2|].
    apply NoDup_bind; [| |apply range_NoDup].
    + intros g1 g2 [a b] _ _ H1 H2. cbv zeta in H1, H2.
      apply elem_of_guard_single in H1 as [_ H1], H2 as [_ H2].
      inversion H1; inversion H2; subst. lia.
    + intros g _. cbv zeta. destruct (_ && _); [apply NoDup_singleton|apply NoDup_nil_2].
Qed.

Lemma enfa_new_gaps pat e :
  ENFA.new pat = Ok e -> 0 <= ENFA.min_gap e <= ENFA.max_gap e.
Proof.
  unfold ENFA.new, ENFA._parse_enfa_pattern.
  destruct (negb _ || negb _); [done|]. cbn [bind].
  destruct (ENFA.unpack2 (split1 "{" (upper pat))) as [hr|]; [|done]. cbn [bind].
  destruct (ENFA.unpack2 (split1 "}" hr.2)) as [rt|]; [|done]. cbn [bind].
  destruct (ENFA.parse_range rt.1) as [gaps|]; [|done]. cbn [bind].
  destruct (Z.ltb_spec gaps.1 0); [done|].
  destruct (Z.ltb_spec gaps.2 gaps.1); [done|].
  cbn. intros [= <-]. cbn. lia.
Qed.

(** C3: the spacer engine's [find_all_matches] returns exactly the intervals
    [i, i + len(head) + g + len(tail) - 1] for the pairs [(i, g)] such that
    the head stands at index [i] of the (upper-cased) sequence, [g] lies in
    [min_gap, max_gap] and the tail stands at index [i + len(head) + g], each
    pair giving one entry of the list.  With [min_gap = max_gap = 0] these
    are the occurrences of head followed at once by tail.  The engine of
    "TATA{1,3}TATA" finds [(0,8)] alone in "TATAATATA" and nothing in
    "TATATATA". *)
Theorem enfa_find_all_matches_spec (e : ENFA.t) (S : str) :
  0 <= ENFA.min_gap e ->
  (forall a b,
     (a, b) ∈ (ENFA.find_all_matches e S).2 <->
     exists i g,
       a = i /\ b = i + len (ENFA.head e) + g + len (ENFA.tail e) - 1
       /\ occurs_at (ENFA.head e) (upper S) i
       /\ ENFA.min_gap e <= g <= ENFA.max_gap e
       /\ occurs_at (ENFA.tail e) (upper S) (i + len (ENFA.head e) + g))
  /\ NoDup (ENFA.find_all_matches e S).2
  /\ (ENFA.min_gap e = 0 -> ENFA.max_gap e = 0 ->
      forall a b,
        (a, b) ∈ (ENFA.find_all_matches e S).2 <->
        occurs_at (ENFA.head e ++ ENFA.tail e) (upper S) a
        /\ b = a + len (ENFA.head e ++ ENFA.tail e) - 1)
  /\ ENFA.new (lit "TATA{1,3}TATA") = Ok enfa_TATA_1_3_TATA
  /\ (ENFA.find_all_matches enfa_TATA_1_3_TATA (lit "TATAATATA")).2 = [(0, 8)]
  /\ (ENFA.find_all_matches enfa_TATA_1_3_TATA (lit "TATATATA")).2 = [].
Proof.
  intros Hmin. split; [|split; [|split; [|split; [|split]]]].
  - intros a b. rewrite enfa_find_all_matches_elem by done. split.
    + intros (g & ? & ? & ? & ?). by exists a, g.
    + intros (i & g & -> & ? & ? & ? & ?). by exists g.
  - apply enfa_find_all_matches_NoDup.
  - intros H0 H1 a b. rewrite enfa_find_all_matches_elem by done.
    rewrite occurs_at_app, len_app. split.
    + intros (g & -> & Hh & Hg & Ht). assert (g = 0) as -> by lia.
      rewrite Z.add_0_r in Ht. split; [done|lia].
    + intros [[Hh Ht] ->]. exists 0. rewrite Z.add_0_r.
      split; [lia|]. split; [done|]. split; [lia|done].
  - vm_compute. reflexivity.
  - vm_compute. reflexivity.
  - vm_compute. reflexivity.
Qed.

Lemma enfa_find_all_matches_spec_witness :
  0 <= ENFA.min_gap enfa_TATA_1_3_TATA
  /\ NoDup (ENFA.find_all_matches enfa_TATA_1_3_TATA (lit "TATAATATATA")).2
  /\ exists i g,
       0 = i /\ 10 = i + len (lit "TATA") + g + len (lit "TATA") - 1
       /\ occurs_at (lit "TATA") (upper (lit "TATAATATATA")) i
       /\ 1 <= g <= 3
       /\ occurs_at (lit "TATA") (upper (lit "TATAATATATA")) (i + len (lit "TATA") + g).
Proof.
  assert (H : 0 <= ENFA.min_gap enfa_TATA_1_3_TATA) by (vm_compute; congruence).
  split; [exact H|].
  destruct (enfa_find_all_matches_spec enfa_TATA_1_3_TATA (lit "TATAATATATA") H)
    as (Hiff & Hnd & _).
  split; [exact Hnd|].
  apply (proj1 (Hiff 0 10)).
  apply (bool_decide_unpack _). vm_compute. exact I.
Defined.

(** ** Construction and the factory *)

Lemma split1_notin sep s : sep ∉ s -> split1 sep s = (s, None).
Proof.
  induction s as [|c s IH]; [done|]. intros Hn. cbn.
  apply not_elem_of_cons in Hn as [Hne Hn].
  rewrite decide_False by done. by rewrite IH.
Qed.

Lemma split1_first sep h r : sep ∉ h -> split1 sep (h ++ sep :: r) = (h, Some r).
Proof.
  induction h as [|c h IH]; intros Hn; cbn.
  - by rewrite decide_True.
  - apply not_elem_of_cons in Hn as [Hne Hn].
    rewrite decide_False by done. by rewrite IH.
Qed.

Lemma enfa_contains_true c s : ENFA.contains c s = true <-> c ∈ s.
Proof. unfold ENFA.contains. apply bool_decide_eq_true. Qed.

Lemma enfa_contains_false c s : ENFA.contains c s = false <-> c ∉ s.
Proof. unfold ENFA.contains. apply bool_decide_eq_false. Qed.

Lemma enfa_parse_range_plain rng :
  ","%char ∉ rng ->
  ENFA.parse_range rng = bind (ENFA.int rng) (fun n => Ok (n, n)).
Proof.
  intros H. unfold ENFA.parse_range.
  by rewrite (proj2 (enfa_contains_false _ _) H).
Qed.

Lemma enfa_parse_range_pair a b :
  ","%char ∉ a ->
  ENFA.parse_range (a ++ ","%char :: b)
  = bind (ENFA.int a) (fun mn => bind (ENFA.int b) (fun mx => Ok (mn, mx))).
Proof.
  intros H. unfold ENFA.parse_range.
  rewrite (proj2 (enfa_contains_true _ _)) by set_solver.
  by rewrite split1_first.
Qed.

Lemma enfa_parse_range_raises rng x :
  ENFA.parse_range rng = Raise x -> exists s, x = ValueError (InvalidLiteral s).
Proof.
  unfold ENFA.parse_range. destruct (ENFA.contains "," rng) eqn:Hc.
  - apply enfa_contains_true in Hc.
    apply list_elem_of_split in Hc as (a & b & ->).
    assert (exists a' b', split1 "," (a ++ ","%char :: b) = (a', Some b'))
      as (a' & b' & ->).
    { clear. induction a as [|c a IH]; cbn.
      - rewrite decide_True by done. eauto.
      - destruct (decide (c = ","%char)); [eauto|].
        destruct IH as (a' & b' & ->). eauto. }
    cbn. unfold ENFA.int.
    destruct (match ENFA.strip a' with [] => _ | _ => _ end); cbn.
    + destruct (match ENFA.strip b' with [] => _ | _ => _ end); cbn; [done|].
      intros [= <-]. eauto.
    + intros [= <-]. eauto.
  - unfold ENFA.int.
    destruct (match ENFA.strip rng with [] => _ | _ => _ end); cbn; [done|].
    intros [= <-]. eauto.
Qed.

Lemma split1_Some sep s h r :
  split1 sep s = (h, Some r) -> s = h ++ sep :: r /\ sep ∉ h.
Proof.
  revert h. induction s as [|c s IH]; intros h; cbn; [done|].
  destruct (decide (c = sep)) as [->|Hne].
  - intros [= <- <-]. split; [done|]. apply not_elem_of_nil.
  - destruct (split1 sep s) as [h' r'] eqn:Hs. intros [= <- ->].
    destruct (IH h' eq_refl) as [-> Hn]. split; [done|].
    apply not_elem_of_cons. split; [congruence|done].
Qed.

Lemma enfa_new_Ok pat e :
  ENFA.new pat = Ok e ->
  exists h rng tl,
    upper pat = h ++ "{"%char :: rng ++ "}"%char :: tl
    /\ ("{"%char ∉ h) /\ ("}"%char ∉ rng)
    /\ ENFA.parse_range rng = Ok (ENFA.min_gap e, ENFA.max_gap e)
    /\ 0 <= ENFA.min_gap e <= ENFA.max_gap e
    /\ ENFA.head e = h /\ ENFA.tail e = tl.
Proof.
  unfold ENFA.new, ENFA._parse_enfa_pattern.
  destruct (negb _ || negb _); [done|]. cbn [bind].
  destruct (split1 "{" (upper pat)) as [h [rest|]] eqn:H1; [|done].
  apply split1_Some in H1 as [Hpat Hh]. cbn [ENFA.unpack2 bind fst snd].
  destruct (split1 "}" rest) as [rng [tl|]] eqn:H2; [|done].
  apply split1_Some in H2 as [-> Hr]. cbn [ENFA.unpack2 bind fst snd].
  destruct (ENFA.parse_range rng) as [[mn mx]|] eqn:Hpr; [|done]. cbn [bind fst snd].
  destruct (Z.ltb_spec mn 0); [done|].
  destruct (Z.ltb_spec mx mn); [done|].
  cbn. intros [= <-]. cbn. exists h, rng, tl. split_and!; try done; lia.
Qed.

Lemma enfa_new_unclosed pat h rest :
  upper pat = h ++ "{"%char :: rest -> "{"%char ∉ h -> "}"%char ∉ rest ->
  exists m, ENFA.new pat = Raise (ValueError m).
Proof.
  intros Hpat Hh Hr. unfold ENFA.new, ENFA._parse_enfa_pattern. rewrite Hpat.
  destruct (negb _ || negb _); [by eexists|]. cbn [bind].
  rewrite split1_first by done. cbn [ENFA.unpack2 bind fst snd].
  rewrite split1_notin by done. cbn. by eexists.
Qed.

Lemma enfa_new_bracketed pat h rng tl :
  upper pat = h ++ "{"%char :: rng ++ "}"%char :: tl ->
  "{"%char ∉ h -> "}"%char ∉ rng ->
  ENFA.new pat =
  bind (ENFA.parse_range rng) (fun gaps =>
    if (gaps.1 <? 0) || (gaps.2 <? gaps.1) then Raise (ValueError InvalidSpacerRange)
    else Ok {| ENFA.pattern := upper pat; ENFA.head := h;
               ENFA.min_gap := gaps.1; ENFA.max_gap := gaps.2; ENFA.tail := tl;
               ENFA.current_states := {[ ENFA.St ENFA.Head 0 ]} |}).
Proof.
  intros Hpat Hh Hr. unfold ENFA.new, ENFA._parse_enfa_pattern. rewrite Hpat.
  rewrite !(proj2 (enfa_contains_true _ _)) by set_solver. cbn [negb orb].
  rewrite split1_first by done. cbn [ENFA.unpack2 bind snd fst].
  rewrite split1_first by done. cbn [ENFA.unpack2 bind snd fst].
  destruct (ENFA.parse_range rng) as [[mn mx]|x]; cbn [bind fst snd]; [|done].
  by destruct ((mn <? 0) || (mx <? mn)).
Qed.

(** C6: constructing a spacer engine from a pattern without an opening or
    without a closing brace, with a bound that [int] rejects, or with
    [min_gap > max_gap] raises a ValueError (the parse failure) and returns
    no engine, and an engine is returned only for a pattern of the shape
    HEAD{range}TAIL whose range parses to [0 <= min_gap <= max_gap];
    [create_automaton] passes the constructor's exception on
    unchanged, raises a ValueError of its own for a tag that is none of the
    four supported ones, and for each supported tag returns an instance of
    the corresponding class. *)
Theorem construction_errors :
  (forall pat, "{"%char ∉ upper pat \/ "}"%char ∉ upper pat ->
     ENFA.new pat = Raise (ValueError ExpectsPattern))
  /\ (forall pat h rng tl,
        upper pat = h ++ "{"%char :: rng ++ "}"%char :: tl ->
        "{"%char ∉ h -> "}"%char ∉ rng ->
        match ENFA.parse_range rng with
        | Raise x =>
            ENFA.new pat = Raise x /\ exists s, x = ValueError (InvalidLiteral s)
        | Ok (mn, mx) =>
            (mx < mn -> ENFA.new pat = Raise (ValueError InvalidSpacerRange))
            /\ (mn < 0 -> ENFA.new pat = Raise (ValueError InvalidSpacerRange))
            /\ (0 <= mn <= mx ->
                ENFA.new pat =
                Ok {| ENFA.pattern := upper pat; ENFA.head := h;
                      ENFA.min_gap := mn; ENFA.max_gap := mx; ENFA.tail := tl;
                      ENFA.current_states := {[ ENFA.St ENFA.Head 0 ]} |})
        end)
  /\ (forall pat h rest,
        upper pat = h ++ "{"%char :: rest -> "{"%char ∉ h -> "}"%char ∉ rest ->
        exists m, ENFA.new pat = Raise (ValueError m))
  /\ (forall pat e, ENFA.new pat = Ok e ->
        exists h rng tl,
          upper pat = h ++ "{"%char :: rng ++ "}"%char :: tl
          /\ ("{"%char ∉ h) /\ ("}"%char ∉ rng)
          /\ ENFA.parse_range rng = Ok (ENFA.min_gap e, ENFA.max_gap e)
          /\ 0 <= ENFA.min_gap e <= ENFA.max_gap e
          /\ ENFA.head e = h /\ ENFA.tail e = tl)
  /\ (forall rng, ","%char ∉ rng ->
        ENFA.parse_range rng = bind (ENFA.int rng) (fun n => Ok (n, n)))
  /\ (forall a b, ","%char ∉ a ->
        ENFA.parse_range (a ++ ","%char :: b)
        = bind (ENFA.int a) (fun mn => bind (ENFA.int b) (fun mx => Ok (mn, mx))))
  /\ (forall pat x, ENFA.new pat = Raise x ->
        create_automaton AutomataType.ENFA pat = Raise x)
  /\ (forall pat e, ENFA.new pat = Ok e ->
        create_automaton AutomataType.ENFA pat = Ok (ENFA_instance e))
  /\ (forall tag pat,
        tag ∉ [AutomataType.DFA; AutomataType.NFA; AutomataType.ENFA; AutomataType.PDA] ->
        create_automaton tag pat = Raise (ValueError (UnsupportedType tag)))
  /\ (forall pat,
        create_automaton AutomataType.DFA pat = Ok (DFA_instance (DFA.new pat))
        /\ create_automaton AutomataType.NFA pat = Ok (NFA_instance (NFA.new pat))
        /\ create_automaton AutomataType.PDA pat
           = Ok (PDA_instance
                   (PDA.new (match pat with [] => lit "PALINDROME" | _ => pat end) 4)))
  /\ ENFA.new (lit "TATA1,3TATA") = Raise (ValueError ExpectsPattern)
  /\ ENFA.new (lit "TATA{1,x}TATA") = Raise (ValueError (InvalidLiteral (lit "X")))
  /\ ENFA.new (lit "TATA{3,1}TATA") = Raise (ValueError InvalidSpacerRange)
  /\ create_automaton (lit "Turing") (lit "ATG")
     = Raise (ValueError (UnsupportedType (lit "Turing"))).
Proof.
  split_and!.
  - intros pat H. unfold ENFA.new, ENFA._parse_enfa_pattern.
    destruct H as [H|H]; apply enfa_contains_false in H; rewrite H; cbn.
    + done.
    + by rewrite orb_true_r.
  - intros pat h rng tl Hpat Hh Hr.
    rewrite (enfa_new_bracketed pat h rng tl Hpat Hh Hr).
    destruct (ENFA.parse_range rng) as [[mn mx]|x] eqn:Hpr; cbn [bind fst snd].
    + split_and!.
      * intros H. destruct (Z.ltb_spec mx mn); [|lia]. by rewrite orb_true_r.
      * intros H. by destruct (Z.ltb_spec mn 0); [|lia].
      * intros H. destruct (Z.ltb_spec mn 0); [lia|].
        by destruct (Z.ltb_spec mx mn); [lia|].
    + split; [done|]. by eapply enfa_parse_range_raises.
  - apply enfa_new_unclosed.
  - apply enfa_new_Ok.
  - apply enfa_parse_range_plain.
  - apply enfa_parse_range_pair.
  - intros pat x H. unfold create_automaton.
    repeat (rewrite decide_False by (vm_compute; congruence)).
    rewrite decide_True by done. by rewrite H.
  - intros pat e H. unfold create_automaton.
    repeat (rewrite decide_False by (vm_compute; congruence)).
    rewrite decide_True by done. by rewrite H.
  - intros tag pat H. unfold create_automaton.
    rewrite !not_elem_of_cons in H. destruct H as (H1 & H2 & H3 & H4 & _).
    by rewrite !decide_False by done.
  - intros pat. unfold create_automaton. split_and!.
    + by rewrite decide_True.
    + rewrite decide_False by (vm_compute; congruence). by rewrite decide_True.
    + repeat (rewrite decide_False by (vm_compute; congruence)).
      by rewrite decide_True.
  - vm_compute. reflexivity.
  - vm_compute. reflexivity.
  - vm_compute. reflexivity.
  - vm_compute. reflexivity.
Qed.

(** ** The alternatives engine: the graph *)

Lemma enumerate_from_cons {A} k (x : A) l :
  enumerate_from k (x :: l) = (k, x) :: enumerate_from (k + 1) l.
Proof.
  unfold enumerate_from, range. rewrite len_cons.
  pose proof (len_nonneg l).
  replace (Z.to_nat (k + (1 + len l) - k)) with (S (Z.to_nat (k + 1 + len l - (k + 1))))
    by lia.
  cbn [seq map zip zip_with]. f_equal; [f_equal; lia|].
  rewrite <- seq_shift, map_map. f_equal. apply map_ext. intros; lia.
Qed.

Lemma enumerate_from_nil {A} k : enumerate_from k (@nil A) = [].
Proof. unfold enumerate_from. rewrite range_nil; [done|]. rewrite len_nil. lia. Qed.

Lemma enumerate_from_0 {A} (l : list A) : enumerate l = enumerate_from 0 l.
Proof. reflexivity. Qed.

Lemma nfa_edge_add u ch v g u' ch' v' :
  nfa_edge (NFA.g_trans (NFA._add_edge u ch v g)) u' ch' v'
  <-> nfa_edge (NFA.g_trans g) u' ch' v' \/ (u' = u /\ ch' = ch /\ v' = v).
Proof.
  unfold nfa_edge, NFA._add_edge. cbn [NFA.g_trans].
  destruct (decide ((u, ch) = (u', ch'))) as [[= <- <-]|Hne].
  - rewrite lookup_insert_eq. cbn [default from_option id].
    rewrite elem_of_union, elem_of_singleton. intuition auto.
  - rewrite lookup_insert_ne by done. split; [by left|].
    intros [?|(-> & -> & _)]; [done|by destruct Hne].
Qed.

Lemma slice_prefix_take {A} (l : list A) (i : Z) :
  0 <= i -> slice l 0 i = take (Z.to_nat i) l.
Proof.
  intros Hi. unfold slice, clamp. change (0 <? 0) with false. cbv iota.
  destruct (Z.ltb_spec i 0); [lia|].
  pose proof (len_nonneg l).
  rewrite (Z.min_l 0) by done. rewrite Z.sub_0_r. cbn [Z.to_nat drop].
  destruct (Z.le_gt_cases i (len l)).
  - by rewrite Z.min_l.
  - rewrite Z.min_r by lia. unfold len in *.
    rewrite Nat2Z.id. rewrite (take_ge l (Z.to_nat i)) by lia. apply firstn_all.
Qed.

Lemma trie_inv_add_final alts p2s g q ch u :
  trie_inv alts p2s g -> p2s !! q = Some u -> q ++ [ch] ∈ alts ->
  trie_inv alts p2s (NFA.add_final u ch (NFA._add_edge u ch 0 g)).
Proof.
  intros (H1 & H2 & H3 & H4 & H5 & H6) Hq Halt.
  split_and!; try done.
  - intros u' c v. cbn [NFA.add_final NFA.g_trans].
    intros [He|(-> & -> & ->)]%nfa_edge_add; [by apply H5|].
    exists q. split; [done|]. by left.
  - intros u' c. cbn [NFA.add_final NFA.g_final NFA._add_edge].
    intros [Hin|Hin%elem_of_singleton]%elem_of_union; [by apply H6|].
    inversion Hin; subst. by exists q.
Qed.

Lemma trie_inv_add_known alts p2s g q ch u v :
  trie_inv alts p2s g -> p2s !! q = Some u -> p2s !! (q ++ [ch]) = Some v ->
  trie_inv alts p2s (NFA._add_edge u ch v g).
Proof.
  intros (H1 & H2 & H3 & H4 & H5 & H6) Hq Hv.
  split_and!; try done.
  intros u' c v'. intros [He|(-> & -> & ->)]%nfa_edge_add; [by apply H5|].
  exists q. split; [done|]. right. split; [|done].
  apply (H2 _ _ Hv). by destruct q.
Qed.

Lemma trie_inv_add_fresh alts p2s g q ch u alt :
  trie_inv alts p2s g -> p2s !! q = Some u -> p2s !! (q ++ [ch]) = None ->
  alt ∈ alts -> (q ++ [ch]) `prefix_of` alt ->
  trie_inv alts (<[q ++ [ch] := NFA.g_next g]> p2s)
    (NFA._add_edge u ch (NFA.g_next g) (NFA._new_state g).2).
Proof.
  intros (H1 & H2 & H3 & H4 & H5 & H6) Hq Hnone Halt Hpre.
  assert (Hne : q ++ [ch] <> []) by by destruct q.
  assert (Hfresh : forall q' v, p2s !! q' = Some v -> v <> NFA.g_next g).
  { intros q' v Hv. apply H2 in Hv. lia. }
  assert (Hpos : 0 < NFA.g_next g) by (apply H2 in H1; lia).
  split_and!.
  - by rewrite lookup_insert_ne.
  - intros q' v. cbn [NFA._add_edge NFA._new_state NFA.g_next snd].
    rewrite lookup_insert. case_decide as Hd.
    + intros [= <-]. split; [lia|]. intros _. lia.
    + intros Hv. destruct (H2 _ _ Hv). split; [lia|done].
  - intros q1 q2 v. rewrite !lookup_insert.
    destruct (decide (q ++ [ch] = q1)) as [<-|]; destruct (decide (q ++ [ch] = q2)) as [<-|];
      try done.
    + intros [= <-] Hv. by apply Hfresh in Hv.
    + intros Hv [= <-]. by apply Hfresh in Hv.
    + apply H3.
  - intros q' v. rewrite lookup_insert. case_decide as Hd.
    + subst q'. intros _ _. by exists alt.
    + apply H4.
  - intros u' c v'. cbn [NFA._new_state snd].
    intros [He|(-> & -> & ->)]%nfa_edge_add.
    + destruct (H5 u' c v' He) as (q' & Hq' & Hcase).
      exists q'. split.
      * rewrite lookup_insert_ne; [done|]. intros <-. congruence.
      * destruct Hcase as [?|[Hv0 Hv]]; [by left|right]. split; [done|].
        rewrite lookup_insert_ne; [done|]. intros Heq. rewrite <- Heq in Hv. congruence.
    + exists q. split.
      * rewrite lookup_insert_ne; [done|]. intros Heq. congruence.
      * right. split; [lia|]. apply lookup_insert_eq.
  - intros u' c Hin. destruct (H6 u' c Hin) as (q' & Hq' & Ha).
    exists q'. split; [|done].
    rewrite lookup_insert_ne; [done|]. intros <-. congruence.
Qed.

Lemma nfa_add_chars_inv alts alt :
  alt ∈ alts ->
  forall rest done u p2s g,
    alt = done ++ rest -> trie_inv alts p2s g -> p2s !! done = Some u ->
    trie_inv alts
      (foldl (NFA.add_char alt) (u, p2s, g) (enumerate_from (len done) rest)).1.2
      (foldl (NFA.add_char alt) (u, p2s, g) (enumerate_from (len done) rest)).2.
Proof.
  intros Halt rest. induction rest as [|ch rest IH]; intros done u p2s g Heq Hinv Hu.
  - by rewrite enumerate_from_nil.
  - rewrite enumerate_from_cons. cbn [foldl]. unfold NFA.add_char at 2 4.
    pose proof (len_nonneg done) as Hd. pose proof (len_nonneg rest) as Hr.
    assert (Hlen : len alt = len done + 1 + len rest).
    { rewrite Heq, len_app, len_cons. lia. }
    destruct (Z.eqb_spec (len done) (len alt - 1)) as [Hlast|Hnl].
    + assert (rest = []) as -> by (apply len_zero; lia).
      rewrite enumerate_from_nil. cbn. apply (trie_inv_add_final alts p2s g done); [done|done|].
      by rewrite <- Heq.
    + assert (Hpre : slice alt 0 (len done + 1) = done ++ [ch]).
      { rewrite slice_prefix_take by lia.
        replace (Z.to_nat (len done + 1)) with (length (done ++ [ch]))
          by (rewrite length_app; unfold len; cbn; lia).
        rewrite Heq. rewrite (cons_middle ch done rest), app_assoc.
        by rewrite take_app_length. }
      rewrite Hpre.
      assert (Heq' : alt = (done ++ [ch]) ++ rest) by by rewrite <- app_assoc.
      assert (Hl' : len (done ++ [ch]) = len done + 1) by by rewrite len_app.
      destruct (p2s !! (done ++ [ch])) as [v|] eqn:Hv.
      * rewrite <- Hl'. apply IH; [done| |done].
        by apply (trie_inv_add_known alts p2s g done).
      * cbn [NFA._new_state]. rewrite <- Hl'. apply IH; [done| |apply lookup_insert_eq].
        apply (trie_inv_add_fresh alts p2s g done ch u alt); try done.
        rewrite Heq'. by apply prefix_app_r.
Qed.

Lemma nfa_add_alt_inv alts alt p2s g :
  alt ∈ alts -> trie_inv alts p2s g ->
  trie_inv alts (NFA.add_alt (p2s, g) alt).1 (NFA.add_alt (p2s, g) alt).2.
Proof.
  intros Halt Hinv. unfold NFA.add_alt. destruct alt as [|c alt']; [done|].
  pose proof (nfa_add_chars_inv alts (c :: alt') Halt (c :: alt') [] 0 p2s g
                eq_refl Hinv (proj1 Hinv)) as H.
  change (len []) with 0 in H. rewrite <- enumerate_from_0 in H.
  by destruct (foldl _ _ _) as [[u' p2s'] g'].
Qed.

Lemma nfa_add_alts_inv alts l st :
  l ⊆ alts -> trie_inv alts st.1 st.2 ->
  trie_inv alts (foldl NFA.add_alt st l).1 (foldl NFA.add_alt st l).2.
Proof.
  revert st. induction l as [|alt l IH]; intros [p2s g] Hsub Hinv; [done|].
  cbn [foldl]. apply IH.
  - intros x Hx. apply Hsub. by right.
  - apply nfa_add_alt_inv; [|done]. apply Hsub. by left.
Qed.

Lemma nfa_build_graph_inv alts :
  exists p2s, trie_inv alts p2s (NFA._build_graph alts).
Proof.
  unfold NFA._build_graph.
  eexists. apply (nfa_add_alts_inv alts alts (_, _)); [done|].
  cbn [fst snd]. split_and!.
  - apply lookup_singleton_eq.
  - intros q v [<- <-]%lookup_singleton_Some. cbn. split; [lia|done].
  - intros q1 q2 v [<- _]%lookup_singleton_Some [<- _]%lookup_singleton_Some. done.
  - intros q v [<- _]%lookup_singleton_Some Hq. done.
  - intros u ch v. unfold nfa_edge. cbn. rewrite lookup_empty. cbn.
    by intros ?%not_elem_of_empty.
  - intros u ch. cbn. by intros ?%not_elem_of_empty.
Qed.

(** ** The alternatives engine: stepping *)

Lemma nfa_fired_elem e c cand u v :
  (u, v) ∈ NFA.fired e c cand <-> u ∈ cand /\ nfa_edge (NFA.transitions e) u c v.
Proof.
  unfold NFA.fired, nfa_edge. rewrite list_elem_of_bind. split.
  - intros (u' & Hin & Hu'). apply elem_of_elements in Hu'.
    apply list_elem_of_bind in Hin as (v' & Hin & Hv'). apply elem_of_elements in Hv'.
    apply list_elem_of_singleton in Hin. inversion Hin; subst. done.
  - intros [Hu Hv]. exists u. split; [|by apply elem_of_elements].
    apply list_elem_of_bind. exists v. split; [by apply list_elem_of_singleton|].
    by apply elem_of_elements.
Qed.

Lemma nfa_step_next_elem e x v :
  v ∈ NFA.current_states (NFA.step e x).1 ->
  v = 0 \/ exists u, u ∈ NFA.current_states e ∪ {[ 0 ]}
                     /\ nfa_edge (NFA.transitions e) u (upper_char x) v.
Proof.
  unfold NFA.step. cbn [fst NFA.current_states NFA.with_states].
  case_decide as Hempty.
  - intros ->%elem_of_singleton. by left.
  - rewrite elem_of_list_to_set, list_elem_of_fmap.
    intros ([u v'] & -> & Hin). apply nfa_fired_elem in Hin. right. by exists u.
Qed.

Lemma nfa_step_flag_elem e x :
  (NFA.step e x).2.2 = true ->
  exists u v, u ∈ NFA.current_states e ∪ {[ 0 ]}
    /\ nfa_edge (NFA.transitions e) u (upper_char x) v
    /\ ((u, upper_char x) ∈ NFA._final_return_edges e \/ v = 0).
Proof.
  unfold NFA.step. cbn [snd].
  intros ([u v] & Hin & Hc)%existsb_exists.
  apply list_elem_of_In, nfa_fired_elem in Hin as [Hu Hv].
  exists u, v. split; [done|]. split; [done|].
  apply orb_true_iff in Hc as [Hc|Hc].
  - left. by apply bool_decide_eq_true in Hc.
  - right. apply andb_true_iff in Hc as [Hc _]. cbn in Hc. lia.
Qed.

Lemma nfa_cand_inv p2s t cs u :
  p2s !! [] = Some 0 -> nfa_run_inv p2s t cs -> u ∈ cs ∪ {[ 0 ]} ->
  exists q, p2s !! q = Some u /\ q `suffix_of` t.
Proof.
  intros H0 Hinv [Hu|Hu%elem_of_singleton]%elem_of_union; [by apply Hinv|].
  subst u. exists []. split; [done|]. apply suffix_nil.
Qed.

Lemma nfa_step_sound alts p2s e t x :
  trie_inv alts p2s (nfa_graph e) ->
  nfa_run_inv p2s t (NFA.current_states e) ->
  nfa_run_inv p2s (t ++ [upper_char x]) (NFA.current_states (NFA.step e x).1)
  /\ ((NFA.step e x).2.2 = true ->
      exists alt, alt ∈ alts /\ alt <> [] /\ alt `suffix_of` (t ++ [upper_char x])).
Proof.
  intros (H1 & H2 & H3 & H4 & H5 & H6) Hrun. cbn [nfa_graph NFA.g_trans NFA.g_final] in *.
  split.
  - intros v Hv. apply nfa_step_next_elem in Hv as [->|(u & Hu & He)].
    + exists []. split; [done|]. apply suffix_nil.
    + destruct (nfa_cand_inv p2s t _ u H1 Hrun Hu) as (q & Hq & Hsuf).
      destruct (H5 _ _ _ He) as (q' & Hq' & [[-> _]|[Hv0 Hv]]).
      * exists []. split; [done|]. apply suffix_nil.
      * assert (q' = q) as -> by by eapply H3.
        exists (q ++ [upper_char x]). split; [done|]. by apply suffix_app.
  - intros (u & v & Hu & He & Hfin)%nfa_step_flag_elem.
    destruct (nfa_cand_inv p2s t _ u H1 Hrun Hu) as (q & Hq & Hsuf).
    assert (exists q', p2s !! q' = Some u /\ q' ++ [upper_char x] ∈ alts)
      as (q' & Hq' & Halt).
    { destruct Hfin as [Hfin|Hv0]; [by apply H6|]. subst v.
      destruct (H5 _ _ _ He) as (q' & Hq' & [[_ Ha]|[Hv0 _]]); [|done].
      by exists q'. }
    assert (q' = q) as -> by by eapply H3.
    exists (q ++ [upper_char x]). split; [done|]. split; [by destruct q|].
    by apply suffix_app.
Qed.

Lemma nfa_step_graph e x :
  nfa_graph (NFA.step e x).1 = nfa_graph e
  /\ NFA.alternatives (NFA.step e x).1 = NFA.alternatives e.
Proof. done. Qed.

Lemma nfa_steps_snoc e t x :
  nfa_steps e (t ++ [x]) = (NFA.step (nfa_steps e t) x).1.
Proof. unfold nfa_steps. by rewrite foldl_app. Qed.

Lemma nfa_steps_graph e t :
  nfa_graph (nfa_steps e t) = nfa_graph e
  /\ NFA.alternatives (nfa_steps e t) = NFA.alternatives e.
Proof.
  induction t as [|x t IH] using rev_ind; [done|].
  rewrite nfa_steps_snoc. destruct (nfa_step_graph (nfa_steps e t) x) as [-> ->].
  done.
Qed.

Lemma upper_app s1 s2 : upper (s1 ++ s2) = upper s1 ++ upper s2.
Proof. unfold upper. apply map_app. Qed.

Lemma nfa_steps_inv alts p2s e t :
  trie_inv alts p2s (nfa_graph e) ->
  nfa_run_inv p2s (upper t) (NFA.current_states (nfa_steps (NFA.reset e) t)).
Proof.
  intros Hinv. induction t as [|x t IH] using rev_ind.
  - intros u Hu. cbn in Hu. apply elem_of_singleton in Hu as ->.
    exists []. split; [apply Hinv|done].
  - rewrite nfa_steps_snoc, upper_app. cbn [upper map].
    apply (nfa_step_sound alts); [|done].
    by destruct (nfa_steps_graph (NFA.reset e) t) as [-> _].
Qed.

Lemma nfa_new_graph_inv pat e :
  NFA.reset e = NFA.new pat ->
  exists p2s, trie_inv (NFA.alternatives e) p2s (nfa_graph e).
Proof.
  intros He.
  assert (NFA.alternatives e = NFA.parse_alternatives pat) as ->.
  { change (NFA.alternatives e) with (NFA.alternatives (NFA.reset e)). by rewrite He. }
  assert (nfa_graph e = NFA._build_graph (NFA.parse_alternatives pat)) as ->.
  { change (nfa_graph e) with (nfa_graph (NFA.reset e)). rewrite He.
    unfold nfa_graph, NFA.new. cbn. by destruct (NFA._build_graph _). }
  apply nfa_build_graph_inv.
Qed.

(** ** The alternatives engine: the batch search *)

Lemma foldl_longest_spec (P1 P2 : Z -> bool) (l : list Z) (L0 : Z) :
  let L := foldl (fun L c => if (c >? L) && P1 c && P2 c then c else L) L0 l in
  L0 <= L
  /\ (L = L0 \/ (L ∈ l /\ P1 L = true /\ P2 L = true))
  /\ (forall c, c ∈ l -> P1 c = true -> P2 c = true -> c <= L).
Proof.
  revert L0. induction l as [|c l IH]; intros L0; cbn [foldl].
  - split; [lia|]. split; [by left|]. by intros c ?%elem_of_nil.
  - destruct (IH (if (c >? L0) && P1 c && P2 c then c else L0)) as (Hge & Hin & Hmax).
    destruct ((c >? L0) && P1 c && P2 c) eqn:Hc.
    + apply andb_true_iff in Hc as [Hc HP2]. apply andb_true_iff in Hc as [Hc HP1].
      apply Z.gtb_lt in Hc.
      split; [lia|]. split.
      * right. destruct Hin as [->|(Hin & ? & ?)]; [|split; [by right|done]].
        split; [by left|done].
      * intros c' [->|Hc']%elem_of_cons ? ?; [done|by apply Hmax].
    + split; [done|]. split.
      * destruct Hin as [?|(Hin & ? & ?)]; [by left|right]. split; [by right|done].
      * intros c' [->|Hc']%elem_of_cons HP1 HP2; [|by apply Hmax].
        rewrite HP1, HP2, !andb_true_r in Hc. rewrite Z.gtb_ltb in Hc.
        apply Z.ltb_ge in Hc. lia.
Qed.

Lemma nfa_alt_lens_elem e c :
  c ∈ elements (NFA.alt_lens e)
  <-> exists alt, alt ∈ NFA.alternatives e /\ alt <> [] /\ len alt = c.
Proof.
  unfold NFA.alt_lens. rewrite elem_of_elements, elem_of_list_to_set, list_elem_of_fmap.
  split.
  - intros (alt & -> & [Hne Hin]%list_elem_of_filter). by exists alt.
  - intros (alt & Hin & Hne & <-). exists alt. split; [done|].
    by apply list_elem_of_filter.
Qed.

Lemma ends_at_iff (w s : str) (i : Z) :
  ends_at w s i
  <-> 0 <= i - len w + 1 /\ i + 1 <= len s /\ slice s (i - len w + 1) (i + 1) = w.
Proof.
  unfold ends_at. rewrite occurs_at_iff.
  replace (i - len w + 1 + len w) with (i + 1) by lia. done.
Qed.

Lemma suffix_ends_at (w t rest : str) :
  w `suffix_of` t -> ends_at w (t ++ rest) (len t - 1).
Proof.
  intros [pre ->]. exists pre, rest. split; [by rewrite <- app_assoc|].
  rewrite len_app. lia.
Qed.

Lemma nfa_choose_L_spec e s i :
  0 <= i < len s ->
  (NFA.choose_L e s i = 0
   /\ forall alt, alt ∈ NFA.alternatives e -> alt <> [] -> ~ ends_at alt s i)
  \/ longest_alt_ending (NFA.alternatives e) s i (NFA.choose_L e s i).
Proof.
  intros Hi. unfold NFA.choose_L.
  pose proof (foldl_longest_spec
                (fun c => i - c + 1 >=? 0)
                (fun c => bool_decide (slice s (i - c + 1) (i + 1) ∈ NFA.alternatives e))
                (elements (NFA.alt_lens e)) 0) as (Hge & Hin & Hmax).
  cbv zeta in Hge, Hin, Hmax.
  set (L := foldl _ 0 (elements (NFA.alt_lens e))) in *.
  assert (Hends : forall alt, alt ∈ NFA.alternatives e -> alt <> [] ->
                    ends_at alt s i -> len alt <= L).
  { intros alt Halt Hne (H1 & H2 & H3)%ends_at_iff. apply Hmax.
    - apply nfa_alt_lens_elem. by exists alt.
    - apply Z.geb_le. lia.
    - apply bool_decide_eq_true. by rewrite H3. }
  destruct Hin as [HL|(HL & HP1 & HP2)].
  - left. split; [done|]. intros alt Halt Hne He.
    specialize (Hends alt Halt Hne He).
    assert (len alt <> 0) by (intros ?%len_zero; done).
    pose proof (len_nonneg alt). lia.
  - right. apply nfa_alt_lens_elem in HL as (alt0 & _ & Hne0 & HL0).
    assert (0 < L).
    { rewrite <- HL0. pose proof (len_nonneg alt0).
      assert (len alt0 <> 0) by (intros ?%len_zero; done). lia. }
    apply Z.geb_le in HP1. apply bool_decide_eq_true in HP2.
    split; [done|]. split; [|done].
    exists (slice s (i - L + 1) (i + 1)). split; [done|].
    assert (Hlen : len (slice s (i - L + 1) (i + 1)) = L).
    { rewrite slice_length by lia. lia. }
    split; [done|]. apply ends_at_iff. rewrite Hlen. split; [lia|]. split; [lia|done].
Qed.

Lemma nfa_choose_L_alternatives e1 e2 s i :
  NFA.alternatives e1 = NFA.alternatives e2 ->
  NFA.choose_L e1 s i = NFA.choose_L e2 s i.
Proof. intros H. unfold NFA.choose_L, NFA.alt_lens. by rewrite H. Qed.

Lemma nfa_flag_at e t x rest :
  nfa_flag e (t ++ x :: rest) (len t) = (NFA.step (nfa_steps (NFA.reset e) t) x).2.2.
Proof.
  unfold nfa_flag. rewrite item_nonneg by apply len_nonneg.
  replace (Z.to_nat (len t)) with (length t) by (unfold len; lia).
  by rewrite list_lookup_middle, take_app_length.
Qed.

Lemma nfa_scan_prefix e s t rest :
  s = t ++ rest ->
  (foldl (NFA.scan s) (NFA.reset e, []) (enumerate t)).1 = nfa_steps (NFA.reset e) t
  /\ forall a b,
       (a, b) ∈ (foldl (NFA.scan s) (NFA.reset e, []) (enumerate t)).2
       <-> 0 <= b < len t /\ nfa_flag e s b = true
           /\ NFA.choose_L e s b <> 0 /\ a = b - NFA.choose_L e s b + 1.
Proof.
  revert rest. induction t as [|x t IH] using rev_ind; intros rest Hs.
  - split; [done|]. intros a b. cbn. rewrite elem_of_nil. change (len []) with 0.
    split; [done|lia].
  - rewrite <- app_assoc in Hs. cbn [app] in Hs.
    destruct (IH _ Hs) as [Hst Hms]. clear IH.
    rewrite enumerate_snoc, foldl_app, nfa_steps_snoc.
    destruct (foldl (NFA.scan s) (NFA.reset e, []) (enumerate t)) as [e1 ms].
    cbn [fst snd foldl] in *. subst e1. unfold NFA.scan.
    pose proof (nfa_flag_at e t x rest) as Hflag. rewrite <- Hs in Hflag.
    assert (HL : NFA.choose_L (NFA.step (nfa_steps (NFA.reset e) t) x).1 s (len t)
                 = NFA.choose_L e s (len t)).
    { apply nfa_choose_L_alternatives.
      destruct (nfa_step_graph (nfa_steps (NFA.reset e) t) x) as [_ ->].
      by destruct (nfa_steps_graph (NFA.reset e) t) as [_ ->]. }
    destruct (NFA.step (nfa_steps (NFA.reset e) t) x) as [e' [st m]].
    cbn [fst snd] in *. rewrite len_app. change (len [x]) with 1.
    pose proof (len_nonneg t) as Hlt.
    assert (Hold : forall a b, (a, b) ∈ ms -> b <> len t).
    { intros a b Hin%Hms. lia. }
    destruct m.
    + rewrite HL. destruct (Z.eqb_spec (NFA.choose_L e s (len t)) 0) as [H0|H0];
        cbn [negb fst snd].
      * split; [done|]. intros a b. rewrite Hms. split.
        -- intros (? & ? & ? & ?). split_and!; try done; lia.
        -- intros (Hb & Hf & HLb & ->).
           assert (b <> len t) by congruence.
           split_and!; try done; lia.
      * split; [done|]. intros a b. rewrite elem_of_app, list_elem_of_singleton, Hms.
        split.
        -- intros [(? & ? & ? & ?)|[= -> ->]]; split_and!; try done; lia.
        -- intros (Hb & Hf & HLb & ->).
           destruct (decide (b = len t)) as [->|]; [by right|left].
           split_and!; try done; lia.
    + split; [done|]. intros a b. rewrite Hms. split.
      * intros (? & ? & ? & ?). split_and!; try done; lia.
      * intros (Hb & Hf & HLb & ->).
        assert (b <> len t) by congruence.
        split_and!; try done; lia.
Qed.

Lemma upper_parts t x rest :
  upper (t ++ x :: rest) = t ++ x :: rest -> upper t = t /\ upper_char x = x.
Proof.
  rewrite upper_app. cbn [upper map]. intros H.
  apply app_inj_1 in H as [Ht Hx]; [|apply upper_length].
  split; [done|]. by injection Hx.
Qed.

Lemma nfa_flag_sound pat sq e i :
  NFA.reset e = NFA.new pat -> 0 <= i -> nfa_flag e (upper sq) i = true ->
  i < len (upper sq)
  /\ exists alt, alt ∈ NFA.alternatives e /\ alt <> [] /\ ends_at alt (upper sq) i.
Proof.
  intros He Hi Hflag. unfold nfa_flag in Hflag.
  rewrite item_nonneg in Hflag by done.
  destruct (upper sq !! Z.to_nat i) as [x|] eqn:Hx; [|done].
  pose proof (lookup_lt_Some _ _ _ Hx) as Hlt.
  split; [unfold len; lia|].
  pose proof (take_drop_middle _ _ _ Hx) as Hsplit.
  set (t := take (Z.to_nat i) (upper sq)) in *.
  set (rest := drop (Datatypes.S (Z.to_nat i)) (upper sq)) in *.
  assert (Hup : upper (t ++ x :: rest) = t ++ x :: rest).
  { rewrite Hsplit. apply upper_idemp. }
  apply upper_parts in Hup as [Ht Hxu].
  destruct (nfa_new_graph_inv pat e He) as (p2s & Hinv).
  pose proof (nfa_steps_graph (NFA.reset e) t) as [Hg Ha].
  destruct (nfa_step_sound (NFA.alternatives e) p2s (nfa_steps (NFA.reset e) t)
              (upper t) x) as [_ Hs].
  { by rewrite Hg. }
  { by apply (nfa_steps_inv (NFA.alternatives e)). }
  destruct (Hs Hflag) as (alt & Halt & Hne & Hsuf).
  exists alt. split; [done|]. split; [done|].
  rewrite Ht, Hxu in Hsuf.
  pose proof (suffix_ends_at alt (t ++ [x]) rest Hsuf) as Hends.
  rewrite <- app_assoc in Hends. cbn [app] in Hends. rewrite Hsplit in Hends.
  rewrite len_app in Hends. change (len [x]) with 1 in Hends.
  replace (len t + 1 - 1) with i in Hends; [done|].
  subst t. unfold len. rewrite length_take. lia.
Qed.

Lemma nfa_find_all_matches_elem e S a b :
  (a, b) ∈ (NFA.find_all_matches e S).2
  <-> 0 <= b < len (upper S) /\ nfa_flag e (upper S) b = true
      /\ NFA.choose_L e (upper S) b <> 0 /\ a = b - NFA.choose_L e (upper S) b + 1.
Proof.
  unfold NFA.find_all_matches.
  pose proof (nfa_scan_prefix e (upper S) (upper S) [] (eq_sym (app_nil_r _)))
    as [_ Hms].
  destruct (foldl (NFA.scan (upper S)) (NFA.reset e, []) (enumerate (upper S)))
    as [e' ms].
  cbn [snd] in *. apply Hms.
Qed.

(** C4: at every position [i] where [step] flags a match during
    [find_all_matches], the alternatives engine records exactly one
    interval, [i - L + 1, i], where [L] is the length of the longest
    alternative that stands in the (upper-cased) sequence with its last
    symbol at [i]; intervals are recorded at flagged positions only.  For
    the alternatives "AT" and "CAT" the search in "CAT" returns [(0,2)]
    alone. *)
Theorem nfa_find_all_matches_longest (pat S : str) (e : NFA.t) (i : Z) :
  NFA.reset e = NFA.new pat ->
  0 <= i ->
  (nfa_flag e (upper S) i = true ->
   exists L,
     longest_alt_ending (NFA.alternatives e) (upper S) i L
     /\ (i - L + 1, i) ∈ (NFA.find_all_matches e S).2
     /\ forall a, (a, i) ∈ (NFA.find_all_matches e S).2 -> a = i - L + 1)
  /\ (forall a, (a, i) ∈ (NFA.find_all_matches e S).2 ->
        nfa_flag e (upper S) i = true)
  /\ NFA.alternatives (NFA.new (lit "AT|CAT")) = [lit "AT"; lit "CAT"]
  /\ (NFA.find_all_matches (NFA.new (lit "AT|CAT")) (lit "CAT")).2 = [(0, 2)].
Proof.
  intros He Hi. split_and!.
  - intros Hflag.
    destruct (nfa_flag_sound pat S e i He Hi Hflag) as (Hlt & alt & Halt & Hne & Hends).
    destruct (nfa_choose_L_spec e (upper S) i (conj Hi Hlt)) as [[_ Hnone]|Hlong].
    { by destruct (Hnone alt Halt Hne). }
    exists (NFA.choose_L e (upper S) i). split; [done|].
    assert (NFA.choose_L e (upper S) i <> 0) by (destruct Hlong; lia).
    split.
    + by apply nfa_find_all_matches_elem.
    + by intros a (_ & _ & _ & ->)%nfa_find_all_matches_elem.
  - by intros a (_ & ? & _)%nfa_find_all_matches_elem.
  - vm_compute. reflexivity.
  - vm_compute. reflexivity.
Qed.

Lemma nfa_find_all_matches_longest_witness :
  NFA.reset (NFA.new (lit "AT|CAT")) = NFA.new (lit "AT|CAT")
  /\ 0 <= 2
  /\ forall a,
       (a, 2) ∈ (NFA.find_all_matches (NFA.new (lit "AT|CAT")) (lit "CAT")).2 ->
       nfa_flag (NFA.new (lit "AT|CAT")) (upper (lit "CAT")) 2 = true.
Proof.
  assert (H1 : NFA.reset (NFA.new (lit "AT|CAT")) = NFA.new (lit "AT|CAT"))
    by reflexivity.
  assert (H2 : 0 <= 2) by lia.
  split; [exact H1|]. split; [exact H2|].
  exact (proj1 (proj2
    (nfa_find_all_matches_longest (lit "AT|CAT") (lit "CAT")
       (NFA.new (lit "AT|CAT")) 2 H1 H2))).
Defined.

(** ** Symbols outside the alphabet *)

Lemma item_elem {A} (s : list A) (i : Z) (x : A) : item s i = Some x -> x ∈ s.
Proof.
  unfold item. destruct (_ <? 0); [|by intros ?%list_elem_of_lookup_2].
  done.
Qed.

Lemma item_is_elem s i c : item_is s i c = true -> c ∈ s.
Proof. unfold item_is. intros H%bool_decide_eq_true. by eapply item_elem. Qed.

Lemma nfa_edge_symbol alts p2s g u ch v :
  trie_inv alts p2s g -> nfa_edge (NFA.g_trans g) u ch v ->
  exists alt, alt ∈ alts /\ ch ∈ alt.
Proof.
  intros (H1 & H2 & H3 & H4 & H5 & H6) He.
  destruct (H5 _ _ _ He) as (q & Hq & [[_ Ha]|[_ Hv]]).
  - exists (q ++ [ch]). split; [done|]. apply elem_of_app. right. by left.
  - destruct (H4 _ _ Hv) as (alt & Halt & [k ->]); [by destruct q|].
    exists ((q ++ [ch]) ++ k). split; [done|].
    apply elem_of_app. left. apply elem_of_app. right. by left.
Qed.

Lemma nfa_step_foreign pat e x :
  NFA.reset e = NFA.new pat ->
  (forall alt, alt ∈ NFA.alternatives e -> upper_char x ∉ alt) ->
  NFA.step e x = (NFA.reset e, ({[ 0 ]}, false)).
Proof.
  intros He Hx. destruct (nfa_new_graph_inv pat e He) as (p2s & Hinv).
  assert (Hf : NFA.fired e (upper_char x) (NFA.current_states e ∪ {[ 0 ]}) = []).
  { apply elem_of_nil_inv. intros [u v] [_ Hedge]%nfa_fired_elem.
    destruct (nfa_edge_symbol _ _ (nfa_graph e) u (upper_char x) v Hinv Hedge)
      as (alt & Halt & Hin).
    by apply (Hx alt). }
  unfold NFA.step. rewrite Hf. cbn [fmap list_fmap list_to_set existsb].
  by rewrite decide_True.
Qed.

Lemma enfa_advance_no_tail e c st st' :
  c ∉ ENFA.tail e -> st' ∈ ENFA.advance e c st -> ENFA.phase st' <> ENFA.Tail.
Proof.
  intros Hc. unfold ENFA.advance. destruct (ENFA.phase st).
  - destruct (_ && _); [|by intros ?%not_elem_of_empty].
    destruct (_ =? _); by intros ->%elem_of_singleton.
  - intros [Hin|Hin]%elem_of_union.
    + destruct (_ <? _); [|by apply not_elem_of_empty in Hin].
      by apply elem_of_singleton in Hin as ->.
    + destruct (_ && _) eqn:Hb; [|by apply not_elem_of_empty in Hin].
      apply andb_true_iff in Hb as [_ Hb]. by apply item_is_elem in Hb.
  - destruct (_ && _) eqn:Hb; [|by intros ?%not_elem_of_empty].
    apply andb_true_iff in Hb as [_ Hb]. by apply item_is_elem in Hb.
Qed.

Lemma enfa_step_foreign e x :
  upper_char x ∉ ENFA.tail e -> (ENFA.step e x).2.2 = false.
Proof.
  intros Hx. unfold ENFA.step. cbn [snd].
  apply not_true_iff_false.
  intros (st & Hin & Hacc)%existsb_exists.
  apply andb_true_iff in Hacc as [Hph _]. apply bool_decide_eq_true in Hph.
  apply list_elem_of_In, elem_of_elements in Hin.
  unfold ENFA._epsilon_closure in Hin at 1.
  apply elem_of_union in Hin as [Hin|Hin].
  - apply elem_of_union_list in Hin as (X & HX & Hin).
    apply list_elem_of_fmap in HX as (st0 & -> & _).
    by apply (enfa_advance_no_tail e (upper_char x) st0 st Hx).
  - apply elem_of_singleton in Hin. by subst st.
Qed.

(** C2 fails on the code: an alternatives engine for "ATG" that has read "A"
    has the active set [{1}], and stepping it on "X" leaves it with [{0}];
    the complement-palindrome engine pushes "X" and advances its position;
    the spacer engine for "TATA{1,3}TATA" that has read "TATA" advances its
    spacer counter on "X". *)
Lemma step_out_of_alphabet_changes_state :
  (upper_char "X" ∉ alphabet)
  /\ NFA.get_current_states (NFA.step (NFA.new (lit "ATG")) "A").1 = {[ 1 ]}
  /\ NFA.get_current_states
       (NFA.step (NFA.step (NFA.new (lit "ATG")) "A").1 "X").1 = {[ 0 ]}
  /\ NFA.get_current_states
       (NFA.step (NFA.step (NFA.new (lit "ATG")) "A").1 "X").1
     <> NFA.get_current_states (NFA.step (NFA.new (lit "ATG")) "A").1
  /\ PDA.get_stack (PDA.step (PDA.new (lit "PALINDROME") 4) "X").1
     <> PDA.get_stack (PDA.new (lit "PALINDROME") 4)
  /\ PDA.pos (PDA.step (PDA.new (lit "PALINDROME") 4) "X").1
     <> PDA.pos (PDA.new (lit "PALINDROME") 4)
  /\ ENFA.get_current_states
       (foldl enfa_call enfa_TATA_1_3_TATA (Step <$> lit "TATAX"))
     <> ENFA.get_current_states
          (foldl enfa_call enfa_TATA_1_3_TATA (Step <$> lit "TATA")).
Proof.
  split_and!.
  - apply (bool_decide_unpack _). vm_compute. exact I.
  - apply (bool_decide_unpack _). vm_compute. exact I.
  - apply (bool_decide_unpack _). vm_compute. exact I.
  - apply (bool_decide_unpack _). vm_compute. exact I.
  - vm_compute. congruence.
  - vm_compute. congruence.
  - apply (bool_decide_unpack _). vm_compute. exact I.
Qed.

(** C2, amended: on a symbol whose upper-case form is outside the alphabet,
    [step] of each of the four engines reports no match (for the
    alternatives and the spacer engine: when the motifs of the pattern are
    over the alphabet).  The exact-match engine keeps its state; the
    alternatives engine falls back to the active set [{0}]; the spacer
    engine's new active set contains [(head, 0)]; the complement-palindrome
    engine pushes the upper-cased symbol, dropping the oldest entry once
    more than eight are held, and advances its position by one. *)
Theorem step_out_of_alphabet (x : ascii) :
  upper_char x ∉ alphabet ->
  (forall d : DFA.t, DFA.step d x = (d, (DFA.current_state d, false)))
  /\ (forall (pat : str) (e : NFA.t),
        NFA.reset e = NFA.new pat ->
        Forall (Forall (fun c => c ∈ alphabet)) (NFA.alternatives e) ->
        (NFA.step e x).2.2 = false
        /\ NFA.get_current_states (NFA.step e x).1 = {[ 0 ]})
  /\ (forall e : ENFA.t,
        Forall (fun c => c ∈ alphabet) (ENFA.tail e) ->
        (ENFA.step e x).2.2 = false
        /\ ENFA.St ENFA.Head 0 ∈ ENFA.get_current_states (ENFA.step e x).1)
  /\ (forall e : PDA.t,
        (PDA.step e x).2.2 = false
        /\ PDA.pos (PDA.step e x).1 = PDA.pos e + 1
        /\ PDA.get_stack (PDA.step e x).1
           = (if len (PDA.stack e) + 1 >? 8
              then drop 1 (PDA.stack e ++ [upper_char x])
              else PDA.stack e ++ [upper_char x])).
Proof.
  intros Hx. split_and!.
  - intros d. unfold DFA.step, in_alphabet. by rewrite bool_decide_eq_false_2.
  - intros pat e He Halts.
    rewrite (nfa_step_foreign pat e x He); [done|].
    intros alt Halt Hin. rewrite Forall_forall in Halts.
    specialize (Halts alt Halt). rewrite Forall_forall in Halts. by apply Hx, Halts.
  - intros e Htail. split.
    + apply enfa_step_foreign. intros Hin. rewrite Forall_forall in Htail.
      by apply Hx, Htail.
    + apply enfa_closure_head0.
  - intros e. unfold PDA.step. rewrite len_app. change (len [upper_char x]) with 1.
    by destruct (_ >? 8).
Qed.

Lemma step_out_of_alphabet_witness :
  (upper_char "N" ∉ alphabet)
  /\ forall d : DFA.t, DFA.step d "N" = (d, (DFA.current_state d, false)).
Proof.
  assert (H : upper_char "N" ∉ alphabet).
  { apply (bool_decide_unpack _). vm_compute. exact I. }
  split; [exact H|].
  exact (proj1 (step_out_of_alphabet "N" H)).
Defined.

(** ** The complement-palindrome engine's batch search *)

Lemma pda_expand_loop_spec s fuel l r :
  -1 <= l -> (Z.to_nat (l + 1) <= fuel)%nat ->
  exists m, 0 <= m
    /\ PDA.expand_loop fuel s (len s) l r = (l - m, r + m)
    /\ (forall d, 0 <= d < m -> PDA.pairs_up s (len s) (l - d) (r + d) = true)
    /\ PDA.pairs_up s (len s) (l - m) (r + m) = false.
Proof.
  revert l r. induction fuel as [|fuel IH]; intros l r Hl Hfuel.
  - exists 0. rewrite !Z.sub_0_r, !Z.add_0_r. split; [done|]. split; [done|].
    split; [intros; lia|]. unfold PDA.pairs_up.
    assert (l = -1) as -> by lia. done.
  - cbn [PDA.expand_loop]. destruct (PDA.pairs_up s (len s) l r) eqn:Hp.
    + assert (0 <= l).
      { unfold PDA.pairs_up in Hp. apply andb_true_iff in Hp as [Hp _].
        apply andb_true_iff in Hp as [Hp _]. apply Z.geb_le in Hp. lia. }
      destruct (IH (l - 1) (r + 1)) as (m & Hm & Heq & Hall & Hstop); [lia|lia|].
      exists (m + 1). split; [lia|]. split; [rewrite Heq; f_equal; lia|]. split.
      * intros d Hd. destruct (decide (d = 0)) as [->|].
        -- by rewrite Z.sub_0_r, Z.add_0_r.
        -- replace (l - d) with (l - 1 - (d - 1)) by lia.
           replace (r + d) with (r + 1 + (d - 1)) by lia. apply Hall. lia.
      * replace (l - (m + 1)) with (l - 1 - m) by lia.
        by replace (r + (m + 1)) with (r + 1 + m) by lia.
    + exists 0. rewrite !Z.sub_0_r, !Z.add_0_r. split; [done|]. split; [done|].
      split; [intros; lia|done].
Qed.

Lemma pda_comp_pair a b :
  b <> "?"%char -> PDA._comp a = b <-> complement_pair a b.
Proof.
  intros Hb. unfold complement_pair. split.
  - unfold PDA._comp.
    destruct (decide (a = "A"%char)) as [->|_]; [intros <-; tauto|].
    destruct (decide (a = "T"%char)) as [->|_]; [intros <-; tauto|].
    destruct (decide (a = "G"%char)) as [->|_]; [intros <-; tauto|].
    destruct (decide (a = "C"%char)) as [->|_]; [intros <-; tauto|].
    intros <-. done.
  - intros [[-> ->]|[[-> ->]|[[-> ->]|[-> ->]]]]; reflexivity.
Qed.

Lemma pda_pairs_up_pair s i d :
  "?"%char ∉ s -> 0 <= d ->
  PDA.pairs_up s (len s) (i - d) (i + 1 + d) = true <-> pair_at s i d.
Proof.
  intros Hq Hd. unfold PDA.pairs_up, pair_at.
  rewrite !andb_true_iff, Z.geb_le, Z.ltb_lt, bool_decide_eq_true.
  split.
  - intros [[Hl Hr] Heq]. rewrite !item_nonneg in Heq by lia.
    split; [done|]. split; [done|].
    destruct (s !! Z.to_nat (i + 1 + d)) as [b|] eqn:Hb.
    + destruct (s !! Z.to_nat (i - d)) as [a|] eqn:Ha; [|done].
      exists a, b. split; [done|]. split; [done|].
      cbn in Heq. injection Heq as Heq. apply pda_comp_pair; [|done].
      intros ->. by apply list_elem_of_lookup_2 in Hb.
    + apply lookup_ge_None in Hb. unfold len in *. lia.
  - intros (Hl & Hr & a & b & Ha & Hb & Hp). split; [done|].
    rewrite !item_nonneg by lia. rewrite Ha, Hb. cbn. f_equal.
    apply pda_comp_pair; [|done].
    intros ->. by apply list_elem_of_lookup_2 in Hb.
Qed.

Lemma pda_expand_elem e s i L R :
  "?"%char ∉ s -> 0 <= i ->
  (L, R) ∈ PDA.expand e s (len s) i (i + 1)
  <-> exists m, maximal_arms s i m /\ L = i + 1 - m /\ R = i + m
                /\ PDA.min_len e <= R - L + 1.
Proof.
  intros Hq Hi. unfold PDA.expand.
  destruct (pda_expand_loop_spec s (Z.to_nat (i + 1)) i (i + 1))
    as (m & Hm & -> & Hall & Hstop); [lia|lia|].
  assert (Hmax : maximal_arms s i m).
  { split; [done|]. split.
    - intros d Hd. apply pda_pairs_up_pair; [done|lia|]. by apply Hall.
    - intros Hp. apply pda_pairs_up_pair in Hp; [|done|lia]. congruence. }
  assert (Huniq : forall m', maximal_arms s i m' -> m' = m).
  { intros m' (Hm' & Hall' & Hstop').
    destruct (Z.lt_trichotomy m' m) as [Hlt|[->|Hgt]]; [|done|].
    - destruct Hstop'. apply Hmax. lia.
    - destruct Hmax as (_ & _ & Hs). destruct Hs. apply Hall'. lia. }
  destruct (Z.geb_spec (i + 1 + m - 1 - (i - m + 1) + 1) (PDA.min_len e)) as [Hge|Hlt].
  - rewrite list_elem_of_singleton. split.
    + intros [= -> ->]. exists m. split; [done|]. split; [lia|]. split; lia.
    + intros (m' & Hm' & -> & -> & _). apply Huniq in Hm' as ->. f_equal; lia.
  - rewrite elem_of_nil. split; [done|].
    intros (m' & Hm' & -> & -> & Hmin). apply Huniq in Hm' as ->. lia.
Qed.

Lemma interval_le_trans : Transitive PDA.interval_le.
Proof. intros [a1 a2] [b1 b2] [c1 c2]. unfold PDA.interval_le. cbn. lia. Qed.

Lemma interval_le_total : Total PDA.interval_le.
Proof. intros [a1 a2] [b1 b2]. unfold PDA.interval_le. cbn. lia. Qed.

Lemma pda_sorted_set_elem l x : x ∈ PDA.sorted_set l <-> x ∈ l.
Proof.
  unfold PDA.sorted_set. rewrite merge_sort_Permutation.
  by rewrite elem_of_elements, elem_of_list_to_set.
Qed.

Lemma strictly_sorted l :
  StronglySorted PDA.interval_le l -> NoDup l -> StronglySorted interval_lt l.
Proof.
  induction 1 as [|x l Hs IH Hall]; intros Hnd; [constructor|].
  apply NoDup_cons in Hnd as [Hx Hnd]. constructor; [by apply IH|].
  rewrite Forall_forall in Hall |- *. intros y Hy.
  specialize (Hall y Hy).
  assert (x <> y) by (intros ->; done).
  destruct x as [x1 x2], y as [y1 y2]. unfold PDA.interval_le, interval_lt in *.
  cbn in *. assert (x1 <> y1 \/ x2 <> y2) by (destruct (decide (x1 = y1)); [right; congruence|by left]).
  lia.
Qed.

Lemma pda_sorted_set_sorted l : StronglySorted interval_lt (PDA.sorted_set l).
Proof.
  apply strictly_sorted.
  - apply (@StronglySorted_merge_sort _ _ _ interval_le_trans interval_le_total).
  - unfold PDA.sorted_set. rewrite merge_sort_Permutation. apply NoDup_elements.
Qed.

(** On a sequence without "?" the batch search returns, in strictly ascending
    order, the maximal spans around the centres [(i, i+1)] whose length
    reaches the minimum. *)
Lemma pda_find_all_matches_spec (e : PDA.t) (sq : str) :
  "?"%char ∉ upper sq ->
  (forall L R,
     (L, R) ∈ (PDA.find_all_matches e sq).2 <->
     exists i m, 0 <= i < len (upper sq) - 1
       /\ maximal_arms (upper sq) i m
       /\ L = i + 1 - m /\ R = i + m /\ PDA.min_len e <= R - L + 1)
  /\ StronglySorted interval_lt (PDA.find_all_matches e sq).2.
Proof.
  intros Hq. unfold PDA.find_all_matches. cbn [snd]. split.
  - intros L R. rewrite pda_sorted_set_elem, list_elem_of_bind. split.
    + intros (i & Hin & Hi%elem_of_range).
      apply pda_expand_elem in Hin as (m & ?); [|done|lia].
      exists i, m. split; [lia|done].
    + intros (i & m & Hi & H). exists i. split; [|apply elem_of_range; lia].
      apply pda_expand_elem; [done|lia|]. by exists m.
  - apply pda_sorted_set_sorted.
Qed.

(** C5 fails on the code: [_comp] sends every symbol that is not a base to
    "?", and "?" is equal to a "?" of the sequence, so in "NN??" and in
    "????" the engine reports the span [0,3] although no symbol there has a
    complement.  The two examples of the claim come out as stated: "AATT"
    gives [(0,3)], "AAAA" gives nothing. *)
Theorem pda_sentinel_pairs_with_question_mark :
  (PDA.find_all_matches (PDA.new (lit "PALINDROME") 4) (lit "NN??")).2 = [(0, 3)]
  /\ (forall i d, ~ pair_at (lit "NN??") i d)
  /\ (PDA.find_all_matches (PDA.new (lit "PALINDROME") 4) (lit "????")).2 = [(0, 3)]
  /\ (PDA.find_all_matches (PDA.new (lit "PALINDROME") 4) (lit "AATT")).2 = [(0, 3)]
  /\ (PDA.find_all_matches (PDA.new (lit "PALINDROME") 4) (lit "AAAA")).2 = [].
Proof.
  split_and!.
  - vm_compute. reflexivity.
  - intros i d (_ & _ & a & b & Ha & Hb & Hp).
    apply list_elem_of_lookup_2 in Ha, Hb.
    assert (Hx : forall c, c ∈ lit "NN??" -> c = "N"%char \/ c = "?"%char).
    { intros c Hc. cbn in Hc. rewrite !elem_of_cons, elem_of_nil in Hc. tauto. }
    apply Hx in Ha, Hb. unfold complement_pair in Hp.
    destruct Ha as [-> | ->], Hb as [-> | ->];
      destruct Hp as [[? ?]|[[? ?]|[[? ?]|[? ?]]]]; discriminate.
  - vm_compute. reflexivity.
  - vm_compute. reflexivity.
  - vm_compute. reflexivity.
Qed.

(** * Further properties of the engines *)

(** ** The exact-match engine: table, states and restart edge *)

Lemma dfa_build_lookup_spec p i c :
  0 < len p ->
  DFA._build_linear_chain p !! (i, c)
  = if decide (i ∈ range 0 (len p) /\ c ∈ alphabet)
    then Some (DFA.chain_target p (len p) i c) else None.
Proof.
  intros Hn. unfold DFA._build_linear_chain.
  destruct (Z.eqb_spec (len p) 0); [lia|].
  rewrite outer_insert_lookup. by case_decide.
Qed.

Lemma dfa_chain_target_range p i c :
  0 <= i < len p -> 0 <= DFA.chain_target p (len p) i c < len p.
Proof.
  intros Hi. unfold DFA.chain_target.
  destruct (item_is p i c).
  - destruct (Z.eqb_spec i (len p - 1)); lia.
  - destruct (item_is p 0 c); cbn [andb]; [|lia].
    destruct (Z.eqb_spec i 0); cbn [negb]; lia.
Qed.

Lemma dfa_call_fields d c :
  DFA.pattern (dfa_call d c) = DFA.pattern d
  /\ DFA.transitions (dfa_call d c) = DFA.transitions d.
Proof. destruct c as [|x]; [done|]. apply dfa_step_fields. Qed.

Lemma dfa_calls_fields d calls :
  DFA.pattern (foldl dfa_call d calls) = DFA.pattern d
  /\ DFA.transitions (foldl dfa_call d calls) = DFA.transitions d.
Proof.
  induction calls as [|c calls IH] using rev_ind; [done|].
  rewrite foldl_app. cbn [foldl].
  destruct (dfa_call_fields (foldl dfa_call d calls) c) as [-> ->]. done.
Qed.

Lemma dfa_calls_state_range P calls :
  P <> [] ->
  0 <= DFA.current_state (foldl dfa_call (DFA.new P) calls) < len (upper P).
Proof.
  intros HP.
  assert (Hn : 0 < len (upper P)).
  { rewrite len_upper. destruct P; [done|]. rewrite len_cons.
    pose proof (len_nonneg P). lia. }
  induction calls as [|c calls IH] using rev_ind; [cbn; lia|].
  rewrite foldl_app. cbn [foldl].
  destruct (dfa_calls_fields (DFA.new P) calls) as [Hp Ht]. cbn in Hp, Ht.
  set (d := foldl dfa_call (DFA.new P) calls) in *.
  destruct c as [|x]; cbn [dfa_call]; [cbn; lia|].
  unfold DFA.step. destruct (in_alphabet (upper_char x)) eqn:Ha; [|done].
  cbn [fst DFA.current_state]. rewrite Ht, dfa_build_lookup_spec by done.
  rewrite decide_True.
  - cbn. by apply dfa_chain_target_range.
  - split; [by apply elem_of_range|]. by apply in_alphabet_true.
Qed.

(** X1: for a non-empty pattern the transition table is a total function
    from the states [get_states] and the symbols [get_symbol_set] to the
    states, it has no other entry, and after any calls of [reset] and
    [step] the current state is one of the states. *)
Theorem dfa_table_total_and_closed (P : str) (calls : list call) :
  P <> [] ->
  let d := foldl dfa_call (DFA.new P) calls in
  DFA.current_state d ∈ DFA.get_states d
  /\ (forall i c, i ∈ DFA.get_states d -> c ∈ DFA.get_symbol_set d ->
        exists j, DFA.transitions d !! (i, c) = Some j /\ j ∈ DFA.get_states d)
  /\ (forall i c j, DFA.transitions d !! (i, c) = Some j ->
        i ∈ DFA.get_states d /\ c ∈ DFA.get_symbol_set d).
Proof.
  intros HP d.
  destruct (dfa_calls_fields (DFA.new P) calls) as [Hp Ht]. cbn in Hp, Ht.
  pose proof (dfa_calls_state_range P calls HP) as Hcur. fold d in Hp, Ht, Hcur.
  assert (Hn : 0 < len (upper P)) by lia.
  unfold DFA.get_states, DFA.get_symbol_set. rewrite Hp, Ht. split_and!.
  - by apply elem_of_range.
  - intros i c Hi Hc. rewrite dfa_build_lookup_spec, decide_True by done.
    eexists. split; [done|]. apply elem_of_range, dfa_chain_target_range.
    by apply elem_of_range.
  - intros i c j. rewrite dfa_build_lookup_spec by done. by case_decide.
Qed.

Lemma dfa_table_total_and_closed_witness :
  lit "ATG" <> []
  /\ DFA.current_state (foldl dfa_call (DFA.new (lit "ATG")) [Step "A"; Step "T"])
     ∈ DFA.get_states (foldl dfa_call (DFA.new (lit "ATG")) [Step "A"; Step "T"]).
Proof.
  assert (H : lit "ATG" <> []) by (vm_compute; congruence).
  split; [exact H|].
  exact (proj1 (dfa_table_total_and_closed (lit "ATG") [Step "A"; Step "T"] H)).
Defined.

Lemma dfa_empty_calls calls :
  DFA.current_state (foldl dfa_call (DFA.new []) calls) = 0.
Proof.
  induction calls as [|c calls IH] using rev_ind; [done|].
  rewrite foldl_app. cbn [foldl].
  destruct (dfa_calls_fields (DFA.new []) calls) as [Hp Ht]. cbn in Hp, Ht.
  set (d := foldl dfa_call (DFA.new []) calls) in *.
  destruct c as [|x]; cbn [dfa_call]; [done|].
  unfold DFA.step. destruct (in_alphabet (upper_char x)) eqn:Ha; [|done].
  cbn [fst DFA.current_state]. rewrite Ht, IH.
  apply in_alphabet_true in Ha. unfold alphabet in Ha.
  rewrite !elem_of_cons, elem_of_nil in Ha.
  destruct Ha as [->|[->|[->|[->|[]]]]]; reflexivity.
Qed.

Lemma dfa_empty_step d x :
  DFA.pattern d = [] -> DFA.transitions d = DFA._build_linear_chain [] ->
  DFA.current_state d = 0 ->
  DFA.step d x = (d, (0, false)).
Proof.
  intros Hp Ht Hc. unfold DFA.step. rewrite Hc.
  destruct (in_alphabet (upper_char x)) eqn:Ha; [|done].
  rewrite Hp, Ht. apply in_alphabet_true in Ha. unfold alphabet in Ha.
  rewrite !elem_of_cons, elem_of_nil in Ha.
  destruct d as [p tr cur]. cbn in *. subst.
  destruct Ha as [->|[->|[->|[->|[]]]]]; reflexivity.
Qed.

Lemma dfa_empty_scan d l :
  DFA.pattern d = [] -> DFA.transitions d = DFA._build_linear_chain [] ->
  DFA.current_state d = 0 ->
  foldl DFA.scan (d, []) l = (d, []).
Proof.
  intros Hp Ht Hc. induction l as [|[i x] l IH] using rev_ind; [done|].
  rewrite foldl_app, IH. cbn [foldl]. unfold DFA.scan.
  by rewrite dfa_empty_step.
Qed.

(** X2: the engine of the empty pattern stays in state 0 whatever it is
    fed, [step] never reports a match, [find_all_matches] returns the empty
    list for every sequence; and its current state 0 is not among
    [get_states], which is empty. *)
Theorem dfa_empty_pattern (calls : list call) (x : ascii) (sq : str) :
  let d := foldl dfa_call (DFA.new []) calls in
  DFA.current_state d = 0
  /\ (DFA.step d x).2 = (0, false)
  /\ DFA.current_state (DFA.step d x).1 = 0
  /\ (DFA.find_all_matches d sq).2 = []
  /\ DFA.get_states d = []
  /\ DFA.get_important_restart_edges d = ∅.
Proof.
  intros d.
  destruct (dfa_calls_fields (DFA.new []) calls) as [Hp Ht]. cbn in Hp, Ht.
  pose proof (dfa_empty_calls calls) as Hc. fold d in Hp, Ht, Hc.
  rewrite (dfa_empty_step d x Hp Ht Hc). split_and!; try done.
  - unfold DFA.find_all_matches.
    rewrite (dfa_empty_scan (DFA.reset d)); [done|done|done|done].
  - unfold DFA.get_states. by rewrite Hp.
  - unfold DFA.get_important_restart_edges. by rewrite Hp.
Qed.

Lemma dfa_reset_new_fields P d :
  DFA.reset d = DFA.new P ->
  DFA.pattern d = upper P /\ DFA.transitions d = DFA._build_linear_chain (upper P).
Proof. intros H. by injection H. Qed.

(** X3: [step] reports a match exactly when the symbol read is in the
    alphabet and the edge taken, (current state, symbol), is the one that
    [get_important_restart_edges] exports; this holds in every state of an
    engine built by the constructor. *)
Theorem dfa_match_iff_restart_edge (P : str) (d : DFA.t) (x : ascii) :
  DFA.reset d = DFA.new P ->
  (DFA.step d x).2.2 = true
  <-> upper_char x ∈ alphabet
      /\ (DFA.current_state d, upper_char x) ∈ DFA.get_important_restart_edges d.
Proof.
  intros [Hp Ht]%dfa_reset_new_fields.
  unfold DFA.step, DFA.get_important_restart_edges.
  destruct (in_alphabet (upper_char x)) eqn:Ha.
  2:{ cbn. apply not_true_iff_false in Ha. rewrite in_alphabet_true in Ha.
      split; [done|]. by intros [? _]. }
  apply in_alphabet_true in Ha. cbn [snd]. rewrite Hp, Ht.
  set (p := upper P). set (c := upper_char x) in *. pose proof (len_nonneg p) as Hn.
  rewrite !andb_true_iff, !Z.eqb_eq, item_is_last.
  destruct (Z.gtb_spec (len p) 0) as [Hpos|Hz].
  - rewrite item_last. destruct (last p) as [l|] eqn:Hl.
    2:{ apply last_None in Hl. rewrite Hl in Hpos. unfold len in Hpos.
        cbn in Hpos. lia. }
    rewrite elem_of_singleton. split.
    + intros [[Hc _] Heq]. split; [done|]. rewrite Hc. congruence.
    + intros [_ Heq].
      assert (Hc : DFA.current_state d = len p - 1) by congruence.
      assert (Hlc : l = c) by congruence.
      split; [|by rewrite Hlc]. split; [done|]. rewrite Hlc in Hl.
      rewrite Hc, dfa_build_lookup_spec by lia.
      rewrite decide_True by (split; [apply elem_of_range; lia|done]).
      cbn. unfold DFA.chain_target.
      assert (item_is p (len p - 1) c = true) as ->.
      { apply item_is_true; [lia|]. rewrite last_lookup in Hl.
        replace (Z.to_nat (len p - 1)) with (pred (length p)) by (unfold len; lia).
        done. }
      by rewrite Z.eqb_refl.
  - assert (p = []) as -> by (apply len_zero; lia). cbn. split.
    + by intros [_ ?].
    + by intros [_ ?%not_elem_of_empty].
Qed.

Lemma dfa_match_iff_restart_edge_witness :
  DFA.reset (DFA.step (DFA.new (lit "AT")) "A").1 = DFA.new (lit "AT")
  /\ ((DFA.step (DFA.step (DFA.new (lit "AT")) "A").1 "T").2.2 = true
      <-> upper_char "T" ∈ alphabet
          /\ (DFA.current_state (DFA.step (DFA.new (lit "AT")) "A").1, upper_char "T")
             ∈ DFA.get_important_restart_edges (DFA.step (DFA.new (lit "AT")) "A").1).
Proof.
  assert (H : DFA.reset (DFA.step (DFA.new (lit "AT")) "A").1 = DFA.new (lit "AT"))
    by reflexivity.
  split; [exact H|].
  exact (dfa_match_iff_restart_edge (lit "AT") _ "T" H).
Defined.

(** ** The exact-match engine: patterns whose first symbol does not recur *)

Lemma take_prefix_nested (c : ascii) (rest : str) (j1 j2 : nat) :
  c ∉ rest -> (1 <= j1 <= length (c :: rest))%nat ->
  (j2 <= length (c :: rest))%nat ->
  take j1 (c :: rest) `suffix_of` take j2 (c :: rest) -> j1 = j2.
Proof.
  intros Hc H1 H2 [k Hk].
  assert (Hlen : j2 = (length k + Init.Nat.min j1 (length (c :: rest)))%nat).
  { apply (f_equal length) in Hk. rewrite length_app, !length_take in Hk. lia. }
  destruct k as [|x k]; [cbn [length] in *; lia|]. exfalso. apply Hc.
  assert (Hl : take j2 (c :: rest) !! length (x :: k) = Some c).
  { rewrite Hk, lookup_app_r by lia. rewrite Nat.sub_diag.
    destruct j1; [lia|done]. }
  rewrite lookup_take_lt in Hl by lia. cbn in Hl.
  by apply list_elem_of_lookup_2 in Hl.
Qed.

Lemma take_prefix_unique (c : ascii) (rest t : str) (j1 j2 : nat) :
  c ∉ rest ->
  (1 <= j1 <= length (c :: rest))%nat -> (1 <= j2 <= length (c :: rest))%nat ->
  take j1 (c :: rest) `suffix_of` t -> take j2 (c :: rest) `suffix_of` t ->
  j1 = j2.
Proof.
  intros Hc H1 H2 Hs1 Hs2.
  destruct (suffix_weak_total _ _ _ Hs1 Hs2) as [H|H].
  - apply (take_prefix_nested c rest j1 j2); [done|lia|lia|done].
  - symmetry. apply (take_prefix_nested c rest j2 j1); [done|lia|lia|done].
Qed.

Lemma dfa_inv_suffix p t d :
  dfa_inv p t d ->
  exists k : nat, DFA.current_state d = Z.of_nat k /\ (k < length p)%nat
                  /\ take k p `suffix_of` t.
Proof.
  intros (_ & _ & k & Hk & Hkp & _ & Hs). exists k. split; [done|]. split; [done|].
  rewrite <- Hs. apply suffix_drop.
Qed.

Lemma dfa_step_target p t d c :
  dfa_inv p t d -> c ∈ alphabet ->
  DFA.current_state (DFA.step d c).1
  = DFA.chain_target p (len p) (DFA.current_state d) c
  /\ (DFA.step d c).2.2
     = (DFA.current_state d =? len p - 1)
       && (DFA.chain_target p (len p) (DFA.current_state d) c =? 0)
       && item_is p (-1) c.
Proof.
  intros (Hp & Htr & k & Hk & Hkp & _) Hc. unfold DFA.step.
  rewrite (upper_char_alphabet c Hc).
  assert (in_alphabet c = true) as -> by by apply in_alphabet_true.
  cbn [fst snd DFA.current_state].
  rewrite Htr, Hp, Hk, build_lookup; [done|unfold len; lia|unfold len; lia|done].
Qed.

Lemma take_snoc_suffix_inv (p t : str) (j : nat) (c : ascii) :
  (1 <= j <= length p)%nat -> take j p `suffix_of` t ++ [c] ->
  p !! pred j = Some c /\ take (pred j) p `suffix_of` t.
Proof.
  intros Hj Hs. destruct j as [|j]; [lia|]. cbn [pred].
  destruct (lookup_lt_is_Some_2 p j) as [x Hx]; [lia|].
  rewrite (take_S_r _ _ _ Hx) in Hs.
  pose proof (suffix_snoc_inv_1 _ _ _ _ Hs) as ->.
  split; [done|]. by apply suffix_snoc_inv_2 in Hs.
Qed.

Lemma dfa_step_zero_inv c0 rest t d c :
  c0 ∉ rest ->
  dfa_inv (c0 :: rest) t d -> dfa_zero_inv (c0 :: rest) t d -> c ∈ alphabet ->
  dfa_zero_inv (c0 :: rest) (t ++ [c]) (DFA.step d c).1.
Proof.
  intros Hc0 Hinv Hzero Hc Hz j Hj Hsuf.
  destruct (dfa_step_target _ _ _ _ Hinv Hc) as [Htgt _]. rewrite Htgt in Hz.
  destruct (dfa_inv_suffix _ _ _ Hinv) as (k & Hk & Hkp & Hks).
  set (p := c0 :: rest) in *.
  destruct (take_snoc_suffix_inv p t j c) as [Hlast Hpre]; [lia|done|].
  unfold dfa_zero_inv in Hzero. rewrite Hk in Hz, Hzero.
  unfold DFA.chain_target in Hz.
  destruct (item_is p (Z.of_nat k) c) eqn:Hit.
  - apply item_is_true in Hit; [|lia]. rewrite Nat2Z.id in Hit.
    destruct (Z.eqb_spec (Z.of_nat k) (len p - 1)) as [Hkl|_]; [|lia].
    assert (length p = Datatypes.S k) as Hpk by (unfold len in Hkl; lia).
    destruct k as [|k]; [lia|].
    destruct (decide (j = 1%nat)) as [->|Hj1].
    + cbn in Hlast. injection Hlast as <-. cbn in Hit.
      by apply list_elem_of_lookup_2 in Hit.
    + assert (pred j = Datatypes.S k); [|lia].
      apply (take_prefix_unique c0 rest t); [done|fold p; lia|fold p; lia|done|done].
  - apply not_true_iff_false in Hit. rewrite item_is_true in Hit by lia.
    rewrite Nat2Z.id in Hit.
    destruct (item_is p 0 c && negb (Z.of_nat k =? 0)) eqn:Hre; [lia|].
    destruct (decide (j = 1%nat)) as [->|Hj1].
    + cbn in Hlast. apply andb_false_iff in Hre as [Hre|Hre].
      * apply not_true_iff_false in Hre. apply Hre. by apply item_is_true.
      * apply negb_false_iff, Z.eqb_eq in Hre.
        assert (k = O) as -> by lia. done.
    + destruct k as [|k].
      * apply (Hzero eq_refl (pred j)); [lia|done].
      * assert (pred j = Datatypes.S k) as Hjk.
        { apply (take_prefix_unique c0 rest t); [done|fold p; lia|fold p; lia|done|done]. }
        rewrite Hjk in Hlast. done.
Qed.

Lemma occurs_snoc_inv p t c a b :
  occurs p (t ++ [c]) a b -> b < len t -> occurs p t a b.
Proof.
  intros (Ha & Hlen & Hb & Hs) Hlt. pose proof (len_nonneg p).
  repeat split; [done|done|done|].
  rewrite slice_take_drop in Hs;
    [|lia|lia|rewrite len_app; change (len [c]) with 1; lia].
  rewrite slice_take_drop; [|lia|lia|lia].
  rewrite drop_app_le in Hs by (unfold len in *; lia).
  rewrite take_app_le in Hs; [done|]. rewrite length_drop. unfold len in *. lia.
Qed.

Lemma occurs_last_suffix p t a :
  occurs p t a (len t - 1) -> p `suffix_of` t.
Proof.
  intros (Ha & Hlen & Hb & Hs). pose proof (len_nonneg p).
  rewrite slice_take_drop in Hs by lia.
  rewrite take_ge in Hs. { rewrite <- Hs. apply suffix_drop. }
  rewrite length_drop. unfold len in *. lia.
Qed.

Lemma dfa_scan_complete c0 rest t d0 :
  c0 ∉ rest -> Forall (fun c => c ∈ alphabet) t -> dfa_inv (c0 :: rest) [] d0 ->
  dfa_inv (c0 :: rest) t (foldl DFA.scan (d0, []) (enumerate t)).1
  /\ dfa_zero_inv (c0 :: rest) t (foldl DFA.scan (d0, []) (enumerate t)).1
  /\ forall a b, occurs (c0 :: rest) t a b ->
                 (a, b) ∈ (foldl DFA.scan (d0, []) (enumerate t)).2.
Proof.
  intros Hc0 Ht H0. set (p := c0 :: rest) in *.
  induction t as [|c t IH] using rev_ind.
  - split; [done|]. split.
    + intros _ j Hj Hs%suffix_length. rewrite length_take in Hs. cbn in Hs. lia.
    + intros a b (Ha & Hl & Hb & _). change (len []) with 0 in Hb.
      pose proof (len_nonneg p).
      assert (len p <> 0) by (unfold p, len; cbn; lia). lia.
  - apply Forall_app in Ht as [Ht Hc]. rewrite Forall_singleton in Hc.
    destruct (IH Ht) as (Hinv & Hzero & Hms). clear IH.
    rewrite enumerate_snoc, foldl_app.
    destruct (foldl DFA.scan (d0, []) (enumerate t)) as [d ms].
    cbn [foldl fst snd] in *. unfold DFA.scan.
    destruct (dfa_step_inv p t d c Hinv Hc) as (Hinv' & Hpat & _).
    pose proof (dfa_step_zero_inv c0 rest t d c Hc0 Hinv Hzero Hc) as Hzero'.
    destruct (dfa_step_target p t d c Hinv Hc) as [_ Hflag].
    destruct (DFA.step d c) as [d' [st m]]. cbn [fst snd] in *.
    assert (Hnew : forall a, occurs p (t ++ [c]) a (len t) ->
                     m = true /\ a = len t - len p + 1).
    { intros a Hocc. split; [|destruct Hocc as (_ & ? & _); lia].
      pose proof (occurs_last_suffix p (t ++ [c]) a) as Hs.
      rewrite len_app in Hs. change (len [c]) with 1 in Hs.
      replace (len t + 1 - 1) with (len t) in Hs by lia. specialize (Hs Hocc).
      rewrite <- (firstn_all p) in Hs.
      destruct (take_snoc_suffix_inv p t (length p) c) as [Hlast Hpre];
        [unfold p; cbn; lia|done|].
      destruct (dfa_inv_suffix _ _ _ Hinv) as (k & Hk & Hkp & Hks).
      assert (Hlp : length p = Datatypes.S (length rest)) by done.
      assert (k = pred (length p)) as ->.
      { destruct (decide (length p = 1%nat)) as [H1|H1]; [lia|].
        destruct k as [|k].
        - exfalso. apply (Hzero Hk (pred (length p))); [lia|done].
        - apply (take_prefix_unique c0 rest t); [done|fold p; lia|fold p; lia|done|done]. }
      rewrite Hflag, Hk.
      assert (Z.of_nat (pred (length p)) = len p - 1) as Hpl
        by (unfold len, p; cbn; lia).
      rewrite Hpl, Z.eqb_refl. unfold DFA.chain_target.
      assert (item_is p (len p - 1) c = true) as Hit.
      { apply item_is_true; [unfold len, p; cbn; lia|].
        rewrite <- Hpl, Nat2Z.id. done. }
      rewrite Hit, Z.eqb_refl. cbn.
      apply item_is_last. by rewrite last_lookup. }
    split; [by destruct m|]. split; [by destruct m|].
    intros a b Hocc.
    assert (Hb : b < len t \/ b = len t).
    { destruct Hocc as (_ & _ & Hb & _). rewrite len_app in Hb.
      change (len [c]) with 1 in Hb. lia. }
    destruct Hb as [Hb| ->].
    + apply occurs_snoc_inv in Hocc; [|done]. apply Hms in Hocc.
      destruct m; [|done]. cbn. apply elem_of_app. by left.
    + destruct (Hnew a Hocc) as [-> ->]. cbn. rewrite Hpat.
      apply elem_of_app. right. by apply list_elem_of_singleton.
Qed.

(** X4: when the first symbol of the pattern occurs nowhere else in it
    (as in "ATG"), [find_all_matches] of the exact-match engine returns
    exactly the occurrences of the pattern in a sequence over the alphabet:
    every interval returned is an occurrence and every occurrence is
    returned. *)
Theorem dfa_exact_when_first_symbol_unique (P sq : str) (d : DFA.t) :
  P <> [] -> first_symbol_unique P ->
  Forall (fun c => c ∈ alphabet) P ->
  Forall (fun c => c ∈ alphabet) sq ->
  DFA.reset d = DFA.new P ->
  forall a b, (a, b) ∈ (DFA.find_all_matches d sq).2 <-> occurs P sq a b.
Proof.
  intros HP Hfirst HPa HS Hd a b. split.
  - intros Hin. rewrite <- (upper_alphabet P HPa).
    by apply (dfa_find_all_matches_occurs P sq d).
  - intros Hocc. unfold DFA.find_all_matches. rewrite Hd.
    pose proof (dfa_new_inv P HP) as Hinv. rewrite (upper_alphabet P HPa) in Hinv.
    destruct P as [|c0 rest]; [done|]. cbn in Hfirst.
    destruct (dfa_scan_complete c0 rest sq (DFA.new (c0 :: rest)) Hfirst HS Hinv)
      as (_ & _ & Hms).
    destruct (foldl DFA.scan (DFA.new (c0 :: rest), []) (enumerate sq)) as [d' ms].
    cbn [snd] in *. by apply Hms.
Qed.

Lemma dfa_exact_when_first_symbol_unique_witness :
  lit "ATG" <> [] /\ first_symbol_unique (lit "ATG")
  /\ ((4, 6) ∈ (DFA.find_all_matches (DFA.new (lit "ATG")) (lit "GATAATGC")).2
      <-> occurs (lit "ATG") (lit "GATAATGC") 4 6).
Proof.
  assert (H1 : lit "ATG" <> []) by (vm_compute; congruence).
  assert (H2 : first_symbol_unique (lit "ATG")).
  { apply (bool_decide_unpack _). vm_compute. exact I. }
  split; [exact H1|]. split; [exact H2|].
  apply (dfa_exact_when_first_symbol_unique (lit "ATG") (lit "GATAATGC")
           (DFA.new (lit "ATG")) H1 H2).
  - apply (bool_decide_unpack _). vm_compute. exact I.
  - apply (bool_decide_unpack _). vm_compute. exact I.
  - reflexivity.
Defined.

(** ** The exact-match engine: reported intervals never overlap *)

Lemma dfa_build_default_range p i c :
  0 <= i ->
  0 <= default 0 (DFA._build_linear_chain p !! (i, c)) <= i + 1.
Proof.
  intros Hi. pose proof (len_nonneg p) as Hn.
  destruct (decide (len p = 0)) as [H0|H0].
  - unfold DFA._build_linear_chain. rewrite H0. cbn [Z.eqb].
    rewrite (inner_insert_lookup (fun _ => 0)). case_decide; cbn; [lia|].
    rewrite lookup_empty. cbn. lia.
  - rewrite dfa_build_lookup_spec by lia. case_decide as Hd; cbn; [|lia].
    destruct Hd as [Hr%elem_of_range _].
    pose proof (dfa_chain_target_range p i c Hr) as Hrange.
    unfold DFA.chain_target in *. destruct (item_is p i c).
    + destruct (i =? len p - 1); lia.
    + destruct (item_is p 0 c); cbn [andb]; [|lia].
      destruct (Z.eqb_spec i 0); cbn [negb]; lia.
Qed.

Lemma dfa_step_progress p d x :
  DFA.transitions d = DFA._build_linear_chain p -> DFA.pattern d = p ->
  0 <= DFA.current_state d ->
  0 <= DFA.current_state (DFA.step d x).1 <= DFA.current_state d + 1
  /\ ((DFA.step d x).2.2 = true ->
      DFA.current_state d = len p - 1 /\ DFA.current_state (DFA.step d x).1 = 0).
Proof.
  intros Ht Hp Hc. unfold DFA.step.
  destruct (in_alphabet (upper_char x)); cbn [fst snd DFA.current_state].
  - rewrite Ht, Hp. split; [by apply dfa_build_default_range|].
    intros [[H1 H2]%andb_true_iff _]%andb_true_iff. lia.
  - split; [lia|done].
Qed.

Lemma dfa_scan_disjoint p d0 t :
  DFA.transitions d0 = DFA._build_linear_chain p -> DFA.pattern d0 = p ->
  DFA.current_state d0 = 0 ->
  let r := foldl DFA.scan (d0, []) (enumerate t) in
  0 <= DFA.current_state r.1 <= len t
  /\ StronglySorted interval_before r.2
  /\ Forall (fun ab : interval =>
               0 <= ab.1 /\ ab.2 - ab.1 + 1 = len p
               /\ ab.2 + 1 + DFA.current_state r.1 <= len t) r.2.
Proof.
  intros Ht Hp Hc. cbv zeta. induction t as [|c t IH] using rev_ind.
  - rewrite enumerate_nil. cbn [foldl fst snd]. rewrite Hc.
    change (len []) with 0. split; [lia|]. split; constructor.
  - destruct IH as ([Hcur Hle] & Hsorted & Hall).
    rewrite enumerate_snoc, foldl_app.
    destruct (dfa_scan_fields (d0, []) (enumerate t)) as [Hp' Ht']. cbn [fst] in Hp', Ht'.
    destruct (foldl DFA.scan (d0, []) (enumerate t)) as [d ms].
    cbn [foldl fst snd] in *. unfold DFA.scan.
    rewrite Hp in Hp'. rewrite Ht in Ht'.
    destruct (dfa_step_progress p d c Ht' Hp' Hcur) as [Hrange Hm].
    destruct (dfa_step_fields d c) as [Hp2 _]. rewrite Hp' in Hp2.
    destruct (DFA.step d c) as [d' [st m]]. cbn [fst snd] in *.
    rewrite len_app. change (len [c]) with 1. pose proof (len_nonneg t).
    destruct m; cbn [fst snd].
    + destruct (Hm eq_refl) as [Hk Hk']. rewrite Hp2, Hk'.
      split; [lia|]. split.
      * apply StronglySorted_app_2; [|done|repeat constructor].
        intros [a b] [a' b'] Hin ->%list_elem_of_singleton.
        rewrite Forall_forall in Hall. destruct (Hall _ Hin) as (_ & _ & Hb).
        unfold interval_before. cbn in *. lia.
      * apply Forall_app. split.
        -- eapply Forall_impl; [exact Hall|]. intros [a b]. cbn. lia.
        -- constructor; [|constructor]. cbn. lia.
    + split; [lia|]. split; [done|].
      eapply Forall_impl; [exact Hall|]. intros [a b]. cbn. lia.
Qed.

(** X5: the intervals that the exact-match engine's [find_all_matches]
    returns never overlap: each one ends before the next one starts, each
    has the length of the pattern and lies inside the sequence; this holds
    for every pattern and every sequence, whatever its symbols. *)
Theorem dfa_find_all_matches_disjoint (P sq : str) (d : DFA.t) :
  DFA.reset d = DFA.new P ->
  StronglySorted interval_before (DFA.find_all_matches d sq).2
  /\ Forall (fun ab : interval =>
               0 <= ab.1 /\ ab.2 - ab.1 + 1 = len P /\ ab.2 < len sq)
            (DFA.find_all_matches d sq).2.
Proof.
  intros Hd. unfold DFA.find_all_matches. rewrite Hd.
  pose proof (dfa_scan_disjoint (upper P) (DFA.new P) sq eq_refl eq_refl eq_refl)
    as ([Hcur _] & Hsorted & Hall).
  cbv zeta in *.
  destruct (foldl DFA.scan (DFA.new P, []) (enumerate sq)) as [d' ms].
  cbn [fst snd] in *. split; [done|].
  eapply Forall_impl; [exact Hall|]. intros [a b]. cbn. rewrite len_upper. lia.
Qed.

Lemma dfa_find_all_matches_disjoint_witness :
  DFA.reset (DFA.new (lit "AA")) = DFA.new (lit "AA")
  /\ StronglySorted interval_before
       (DFA.find_all_matches (DFA.new (lit "AA")) (lit "AAAAA")).2.
Proof.
  assert (H : DFA.reset (DFA.new (lit "AA")) = DFA.new (lit "AA")) by reflexivity.
  split; [exact H|].
  exact (proj1 (dfa_find_all_matches_disjoint (lit "AA") (lit "AAAAA") _ H)).
Defined.

(** ** The alternatives engine: every occurrence is flagged *)

Lemma graph_ext_refl st : graph_ext st st.
Proof. by split_and!. Qed.

Lemma graph_ext_trans st1 st2 st3 :
  graph_ext st1 st2 -> graph_ext st2 st3 -> graph_ext st1 st3.
Proof.
  intros (A1 & A2 & A3) (B1 & B2 & B3). split_and!.
  - by etrans.
  - intros u ch v H. by apply B2, A2.
  - by etrans.
Qed.

Lemma trie_covers_upto_ext p2s g p2s' g' alt n :
  graph_ext (p2s, g) (p2s', g') ->
  trie_covers_upto p2s g alt n -> trie_covers_upto p2s' g' alt n.
Proof.
  intros (E1 & E2 & E3) Hc q ch rest Heq Hlen. cbn in *.
  destruct (Hc q ch rest Heq Hlen) as (u & Hu & Hlast & Hmid).
  exists u. split; [by eapply lookup_weaken|]. split.
  - intros Hr. destruct (Hlast Hr) as [He Hf]. split; [by apply E2|].
    by apply E3.
  - intros Hr. destruct (Hmid Hr) as (v & Hv & He).
    exists v. split; [by eapply lookup_weaken|by apply E2].
Qed.

Lemma graph_ext_add_edge p2s g u ch v :
  graph_ext (p2s, g) (p2s, NFA._add_edge u ch v g).
Proof.
  split_and!; [done| |done]. intros u' ch' v' H. cbn. apply nfa_edge_add. by left.
Qed.

Lemma split_at_length {A} (q1 q2 : list A) (c1 c2 : A) (r1 r2 : list A) :
  q1 ++ c1 :: r1 = q2 ++ c2 :: r2 -> length q1 = length q2 ->
  q1 = q2 /\ c1 = c2 /\ r1 = r2.
Proof.
  intros Heq Hlen. apply app_inj_1 in Heq as [-> Heq]; [|done].
  by injection Heq as -> ->.
Qed.

Lemma nfa_add_char_last alt done u p2s g ch :
  alt = done ++ [ch] ->
  NFA.add_char alt (u, p2s, g) (len done, ch)
  = (u, p2s, NFA.add_final u ch (NFA._add_edge u ch 0 g)).
Proof.
  intros ->. unfold NFA.add_char. rewrite len_app. change (len [ch]) with 1.
  by replace (len done + 1 - 1) with (len done) by lia; rewrite Z.eqb_refl.
Qed.

Lemma nfa_add_char_mid alt done u p2s g ch rest :
  alt = done ++ ch :: rest -> rest <> [] ->
  NFA.add_char alt (u, p2s, g) (len done, ch)
  = match p2s !! (done ++ [ch]) with
    | Some v => (v, p2s, NFA._add_edge u ch v g)
    | None =>
        (NFA.g_next g, <[done ++ [ch] := NFA.g_next g]> p2s,
         NFA._add_edge u ch (NFA.g_next g) (NFA._new_state g).2)
    end.
Proof.
  intros Heq Hrest. unfold NFA.add_char.
  pose proof (len_nonneg done) as Hd. pose proof (len_nonneg rest) as Hr.
  assert (len rest <> 0) by (intros ?%len_zero; done).
  assert (Hlen : len alt = len done + 1 + len rest).
  { rewrite Heq, len_app, len_cons. lia. }
  destruct (Z.eqb_spec (len done) (len alt - 1)) as [Hlast|Hnl]; [lia|].
  assert (Hpre : slice alt 0 (len done + 1) = done ++ [ch]).
  { rewrite slice_prefix_take by lia.
    replace (Z.to_nat (len done + 1)) with (length (done ++ [ch]))
      by (rewrite length_app; unfold len; cbn; lia).
    rewrite Heq. rewrite (cons_middle ch done rest), app_assoc.
    by rewrite take_app_length. }
  rewrite Hpre. by destruct (p2s !! (done ++ [ch])).
Qed.

Lemma nfa_add_chars_covers alt rest :
  forall done u p2s g,
    alt = done ++ rest -> p2s !! done = Some u ->
    trie_covers_upto p2s g alt (length done) ->
    graph_ext (p2s, g)
      ((foldl (NFA.add_char alt) (u, p2s, g) (enumerate_from (len done) rest)).1.2,
       (foldl (NFA.add_char alt) (u, p2s, g) (enumerate_from (len done) rest)).2)
    /\ trie_covers_upto
         (foldl (NFA.add_char alt) (u, p2s, g) (enumerate_from (len done) rest)).1.2
         (foldl (NFA.add_char alt) (u, p2s, g) (enumerate_from (len done) rest)).2
         alt (length alt).
Proof.
  induction rest as [|ch rest IH]; intros done u p2s g Heq Hu Hcov.
  - rewrite enumerate_from_nil. cbn. split; [apply graph_ext_refl|].
    rewrite app_nil_r in Heq. by subst alt.
  - rewrite enumerate_from_cons. cbn [foldl].
    assert (Hlen' : length alt = (length done + 1 + length rest)%nat).
    { rewrite Heq, length_app. cbn. lia. }
    destruct (decide (rest = [])) as [->|Hrest].
    + rewrite (nfa_add_char_last alt done u p2s g ch Heq).
      rewrite enumerate_from_nil. cbn [foldl fst snd].
      set (g1 := NFA.add_final u ch (NFA._add_edge u ch 0 g)).
      assert (Hext : graph_ext (p2s, g) (p2s, g1)).
      { split_and!; [done| |].
        - intros u' ch' v' H. cbn. apply nfa_edge_add. by left.
        - cbn. apply union_subseteq_l. }
      split; [done|]. intros q c r Hsplit Hq.
      destruct (decide (length q < length done)%nat) as [Hlt|Hge].
      * by apply (trie_covers_upto_ext p2s g p2s g1 alt (length done) Hext Hcov
                    q c r Hsplit Hlt).
      * rewrite Heq in Hsplit. symmetry in Hsplit.
        apply split_at_length in Hsplit as (-> & -> & ->); [|cbn in *; lia].
        exists u. split; [done|]. split; [|done]. intros _. split.
        -- cbn. apply nfa_edge_add. by right.
        -- cbn. apply elem_of_union. right. by apply elem_of_singleton.
    + rewrite (nfa_add_char_mid alt done u p2s g ch rest Heq Hrest).
      assert (Heq' : alt = (done ++ [ch]) ++ rest) by by rewrite <- app_assoc.
      assert (Hl' : len (done ++ [ch]) = len done + 1) by by rewrite len_app.
      assert (Hl'' : length (done ++ [ch]) = Datatypes.S (length done))
        by (rewrite length_app; cbn; lia).
      assert (Hstep : forall p2s1 g1 v,
                graph_ext (p2s, g) (p2s1, g1) ->
                p2s1 !! (done ++ [ch]) = Some v ->
                nfa_edge (NFA.g_trans g1) u ch v ->
                trie_covers_upto p2s1 g1 alt (length (done ++ [ch]))).
      { intros p2s1 g1 v Hext Hv He q c r Hsplit Hq.
        destruct (decide (length q < length done)%nat) as [Hlt|Hge].
        - by apply (trie_covers_upto_ext p2s g p2s1 g1 alt (length done) Hext Hcov
                      q c r Hsplit Hlt).
        - rewrite Heq in Hsplit. symmetry in Hsplit.
          apply split_at_length in Hsplit as (-> & -> & ->); [|lia].
          exists u. split; [by eapply lookup_weaken, Hext|]. split; [done|].
          intros _. by exists v. }
      destruct (p2s !! (done ++ [ch])) as [v|] eqn:Hv.
      * pose proof (graph_ext_add_edge p2s g u ch v) as Hext.
        rewrite <- Hl'.
        destruct (IH (done ++ [ch]) v p2s (NFA._add_edge u ch v g) Heq' Hv) as [He Hc].
        { apply (Hstep _ _ v Hext Hv). apply nfa_edge_add. by right. }
        split; [|done]. by eapply graph_ext_trans.
      * cbn [NFA._new_state snd]. rewrite <- Hl'.
        set (v := NFA.g_next g).
        set (g0 := {| NFA.g_next := v + 1; NFA.g_trans := NFA.g_trans g;
                      NFA.g_final := NFA.g_final g |}).
        assert (Hext : graph_ext (p2s, g)
                         (<[done ++ [ch] := v]> p2s, NFA._add_edge u ch v g0)).
        { split_and!; cbn.
          - by apply insert_subseteq.
          - intros u' ch' v' H. apply nfa_edge_add. by left.
          - done. }
        destruct (IH (done ++ [ch]) v (<[done ++ [ch] := v]> p2s)
                    (NFA._add_edge u ch v g0) Heq' (lookup_insert_eq _ _ _))
          as [He Hc].
        { apply (Hstep _ _ v Hext (lookup_insert_eq _ _ _)).
          apply nfa_edge_add. by right. }
        split; [|done]. by eapply graph_ext_trans.
Qed.

Lemma nfa_add_alt_covers alt p2s g :
  p2s !! [] = Some 0 ->
  graph_ext (p2s, g) (NFA.add_alt (p2s, g) alt)
  /\ trie_covers_upto (NFA.add_alt (p2s, g) alt).1 (NFA.add_alt (p2s, g) alt).2
       alt (length alt).
Proof.
  intros H0. unfold NFA.add_alt. destruct alt as [|c alt'].
  - split; [apply graph_ext_refl|]. intros q ch rest Heq Hq. cbn in Hq. lia.
  - pose proof (nfa_add_chars_covers (c :: alt') (c :: alt') [] 0 p2s g eq_refl H0)
      as H.
    change (len []) with 0 in H. rewrite <- enumerate_from_0 in H.
    destruct H as [He Hc].
    { intros q ch rest _ Hq. cbn in Hq. lia. }
    by destruct (foldl _ _ _) as [[u' p2s'] g'].
Qed.

Lemma nfa_add_alts_ext l st :
  st.1 !! [] = Some 0 -> graph_ext st (foldl NFA.add_alt st l).
Proof.
  revert st. induction l as [|alt l IH]; intros [p2s g] H0; [apply graph_ext_refl|].
  cbn [foldl]. destruct (nfa_add_alt_covers alt p2s g H0) as [He _].
  eapply graph_ext_trans; [exact He|]. apply IH.
  destruct He as [Hsub _]. by eapply lookup_weaken.
Qed.

Lemma nfa_add_alts_covers l st alt :
  st.1 !! [] = Some 0 -> alt ∈ l ->
  trie_covers_upto (foldl NFA.add_alt st l).1 (foldl NFA.add_alt st l).2
    alt (length alt).
Proof.
  revert st. induction l as [|a l IH]; intros [p2s g] H0 Hin.
  - by apply elem_of_nil in Hin.
  - cbn [foldl]. destruct (nfa_add_alt_covers a p2s g H0) as [He Hc].
    assert (H0' : (NFA.add_alt (p2s, g) a).1 !! [] = Some 0).
    { destruct He as [Hsub _]. by eapply lookup_weaken. }
    apply elem_of_cons in Hin as [->|Hin]; [|by apply IH].
    pose proof (nfa_add_alts_ext l (NFA.add_alt (p2s, g) a) H0') as Hext.
    destruct (NFA.add_alt (p2s, g) a) as [p2s1 g1].
    destruct (foldl NFA.add_alt (p2s1, g1) l) as [p2s2 g2] eqn:Hf.
    by apply (trie_covers_upto_ext p2s1 g1 p2s2 g2).
Qed.

Lemma nfa_build_graph_full alts :
  exists p2s,
    trie_inv alts p2s (NFA._build_graph alts)
    /\ forall alt, alt ∈ alts ->
         trie_covers_upto p2s (NFA._build_graph alts) alt (length alt).
Proof.
  unfold NFA._build_graph.
  set (st0 := ({[ [] := 0 ]}, {| NFA.g_next := 1; NFA.g_trans := ∅; NFA.g_final := ∅ |})
              : gmap str Z * NFA.graph).
  exists (foldl NFA.add_alt st0 alts).1. split.
  - apply (nfa_add_alts_inv alts alts st0); [done|].
    subst st0. cbn [fst snd]. split_and!.
    + apply lookup_singleton_eq.
    + intros q v [<- <-]%lookup_singleton_Some. cbn. split; [lia|done].
    + intros q1 q2 v [<- _]%lookup_singleton_Some [<- _]%lookup_singleton_Some. done.
    + intros q v [<- _]%lookup_singleton_Some Hq. done.
    + intros u ch v. unfold nfa_edge. cbn. rewrite lookup_empty. cbn.
      by intros ?%not_elem_of_empty.
    + intros u ch. cbn. by intros ?%not_elem_of_empty.
  - intros alt Halt. apply nfa_add_alts_covers; [|done]. apply lookup_singleton_eq.
Qed.

Lemma nfa_new_graph_full pat e :
  NFA.reset e = NFA.new pat ->
  exists p2s,
    trie_inv (NFA.alternatives e) p2s (nfa_graph e)
    /\ forall alt, alt ∈ NFA.alternatives e ->
         trie_covers_upto p2s (nfa_graph e) alt (length alt).
Proof.
  intros He.
  assert (NFA.alternatives e = NFA.parse_alternatives pat) as ->.
  { change (NFA.alternatives e) with (NFA.alternatives (NFA.reset e)). by rewrite He. }
  assert (nfa_graph e = NFA._build_graph (NFA.parse_alternatives pat)) as ->.
  { change (nfa_graph e) with (nfa_graph (NFA.reset e)). rewrite He.
    unfold nfa_graph, NFA.new. cbn. by destruct (NFA._build_graph _). }
  apply nfa_build_graph_full.
Qed.

Lemma nfa_step_next_intro e x u v :
  u ∈ NFA.current_states e ∪ {[ 0 ]} ->
  nfa_edge (NFA.transitions e) u (upper_char x) v ->
  v ∈ NFA.current_states (NFA.step e x).1.
Proof.
  intros Hu He. unfold NFA.step. cbn [fst NFA.current_states NFA.with_states].
  assert (Hv : v ∈ (list_to_set
              (snd <$> NFA.fired e (upper_char x) (NFA.current_states e ∪ {[0]}))
              : gset Z)).
  { apply elem_of_list_to_set, list_elem_of_fmap. exists (u, v). split; [done|].
    by apply nfa_fired_elem. }
  case_decide as Hempty; [|done].
  rewrite Hempty in Hv. by apply not_elem_of_empty in Hv.
Qed.

Lemma nfa_step_flag_intro e x u :
  u ∈ NFA.current_states e ∪ {[ 0 ]} ->
  nfa_edge (NFA.transitions e) u (upper_char x) 0 ->
  (u, upper_char x) ∈ NFA._final_return_edges e ->
  (NFA.step e x).2.2 = true.
Proof.
  intros Hu He Hf. unfold NFA.step. cbn [snd].
  apply existsb_exists. exists (u, 0). split.
  - apply list_elem_of_In. by apply nfa_fired_elem.
  - cbn. by rewrite bool_decide_eq_true_2.
Qed.

Lemma nfa_cand_complete alts p2s g t cs alt q ch rest :
  trie_inv alts p2s g -> trie_covers_upto p2s g alt (length alt) ->
  nfa_run_complete p2s alts t cs ->
  alt ∈ alts -> alt = q ++ ch :: rest -> q `suffix_of` t ->
  exists u, p2s !! q = Some u /\ u ∈ cs ∪ {[ 0 ]}
    /\ (rest = [] -> nfa_edge (NFA.g_trans g) u ch 0 /\ (u, ch) ∈ NFA.g_final g)
    /\ (rest <> [] ->
        exists v, p2s !! (q ++ [ch]) = Some v /\ nfa_edge (NFA.g_trans g) u ch v).
Proof.
  intros Hinv Hcov Hrun Halt Heq Hsuf.
  destruct (Hcov q ch rest Heq) as (u & Hu & Hlast & Hmid).
  { rewrite Heq, length_app. cbn. lia. }
  exists u. split; [done|]. split; [|done].
  destruct (decide (q = [])) as [->|Hq].
  - destruct Hinv as [H0 _]. rewrite H0 in Hu. injection Hu as <-.
    apply elem_of_union. right. by apply elem_of_singleton.
  - destruct (Hrun alt q ch rest Halt Heq Hq Hsuf) as (u' & Hu' & Hin).
    rewrite Hu in Hu'. injection Hu' as <-. apply elem_of_union. by left.
Qed.

Lemma suffix_snoc_split {A} (q t : list A) (c : A) :
  q <> [] -> q `suffix_of` t ++ [c] ->
  exists q0, q = q0 ++ [c] /\ q0 `suffix_of` t.
Proof.
  intros Hq Hs. destruct q as [|y q0] using rev_ind; [done|].
  pose proof (suffix_snoc_inv_1 _ _ _ _ Hs) as ->.
  exists q0. split; [done|]. by apply suffix_snoc_inv_2 in Hs.
Qed.

Lemma nfa_step_complete alts p2s e t x :
  trie_inv alts p2s (nfa_graph e) ->
  (forall alt, alt ∈ alts -> trie_covers_upto p2s (nfa_graph e) alt (length alt)) ->
  nfa_run_complete p2s alts t (NFA.current_states e) ->
  nfa_run_complete p2s alts (t ++ [upper_char x]) (NFA.current_states (NFA.step e x).1)
  /\ (forall alt, alt ∈ alts -> alt <> [] ->
        alt `suffix_of` (t ++ [upper_char x]) -> (NFA.step e x).2.2 = true).
Proof.
  intros Hinv Hcov Hrun. split.
  - intros alt q ch rest Halt Heq Hq Hsuf.
    destruct (suffix_snoc_split q t _ Hq Hsuf) as (q0 & -> & Hsuf0).
    rewrite <- app_assoc in Heq. cbn [app] in Heq.
    destruct (nfa_cand_complete alts p2s (nfa_graph e) t _ alt q0 (upper_char x)
                (ch :: rest) Hinv (Hcov alt Halt) Hrun Halt Heq Hsuf0)
      as (u & Hu & Hin & _ & Hmid).
    destruct Hmid as (v & Hv & He); [done|].
    exists v. split; [done|]. by eapply nfa_step_next_intro.
  - intros alt Halt Hne Hsuf.
    destruct (suffix_snoc_split alt t _ Hne Hsuf) as (q0 & -> & Hsuf0).
    destruct (nfa_cand_complete alts p2s (nfa_graph e) t _ (q0 ++ [upper_char x])
                q0 (upper_char x) [] Hinv (Hcov _ Halt) Hrun Halt eq_refl Hsuf0)
      as (u & Hu & Hin & Hlast & _).
    destruct (Hlast eq_refl) as [He Hf].
    by eapply nfa_step_flag_intro.
Qed.

Lemma nfa_steps_complete alts p2s e t :
  trie_inv alts p2s (nfa_graph e) ->
  (forall alt, alt ∈ alts -> trie_covers_upto p2s (nfa_graph e) alt (length alt)) ->
  nfa_run_complete p2s alts (upper t)
    (NFA.current_states (nfa_steps (NFA.reset e) t)).
Proof.
  intros Hinv Hcov. induction t as [|x t IH] using rev_ind.
  - intros alt q ch rest _ _ Hq Hs%suffix_length. destruct q; [done|]. cbn in Hs. lia.
  - rewrite nfa_steps_snoc, upper_app. cbn [upper map].
    apply (nfa_step_complete alts p2s); [| |done].
    + by destruct (nfa_steps_graph (NFA.reset e) t) as [-> _].
    + by destruct (nfa_steps_graph (NFA.reset e) t) as [-> _].
Qed.

Lemma ends_at_suffix (w t rest : str) :
  ends_at w (t ++ rest) (len t - 1) -> w `suffix_of` t.
Proof.
  intros (pre & post & Heq & Hlen).
  assert (Hl : length (pre ++ w) = length t).
  { unfold len in Hlen. rewrite length_app. lia. }
  rewrite app_assoc in Heq. symmetry in Heq.
  apply app_inj_1 in Heq as [<- _]; [|done]. by exists pre.
Qed.

Lemma nfa_flag_complete pat sq e i alt :
  NFA.reset e = NFA.new pat -> 0 <= i ->
  alt ∈ NFA.alternatives e -> alt <> [] -> ends_at alt (upper sq) i ->
  nfa_flag e (upper sq) i = true.
Proof.
  intros He Hi Halt Hne Hends.
  assert (Hlt : i < len (upper sq)) by (apply ends_at_iff in Hends; lia).
  destruct (lookup_lt_is_Some_2 (upper sq) (Z.to_nat i)) as [x Hx];
    [unfold len in Hlt; lia|].
  unfold nfa_flag. rewrite item_nonneg, Hx by done.
  pose proof (take_drop_middle _ _ _ Hx) as Hsplit.
  set (t := take (Z.to_nat i) (upper sq)) in *.
  set (rest := drop (Datatypes.S (Z.to_nat i)) (upper sq)) in *.
  assert (Hup : upper (t ++ x :: rest) = t ++ x :: rest).
  { rewrite Hsplit. apply upper_idemp. }
  apply upper_parts in Hup as [Ht Hxu].
  destruct (nfa_new_graph_full pat e He) as (p2s & Hinv & Hcov).
  pose proof (nfa_steps_graph (NFA.reset e) t) as [Hg Ha].
  destruct (nfa_step_complete (NFA.alternatives e) p2s (nfa_steps (NFA.reset e) t)
              (upper t) x) as [_ Hflag].
  { by rewrite Hg. }
  { by rewrite Hg. }
  { by apply (nfa_steps_complete (NFA.alternatives e)). }
  apply (Hflag alt Halt Hne). rewrite Ht, Hxu.
  apply (ends_at_suffix alt (t ++ [x]) rest).
  rewrite <- app_assoc. cbn [app]. rewrite Hsplit.
  rewrite len_app. change (len [x]) with 1.
  replace (len t + 1 - 1) with i; [done|].
  subst t. unfold len. rewrite length_take. unfold len in Hlt. lia.
Qed.

Lemma longest_alt_ending_unique alts s i L1 L2 :
  longest_alt_ending alts s i L1 -> longest_alt_ending alts s i L2 -> L1 = L2.
Proof.
  intros (H1 & (a1 & Ha1 & Hl1 & He1) & Hm1) (H2 & (a2 & Ha2 & Hl2 & He2) & Hm2).
  assert (a1 <> []) by (intros ->; cbn in Hl1; unfold len in Hl1; cbn in Hl1; lia).
  assert (a2 <> []) by (intros ->; cbn in Hl2; unfold len in Hl2; cbn in Hl2; lia).
  pose proof (Hm1 a2 Ha2 ltac:(done) He2). pose proof (Hm2 a1 Ha1 ltac:(done) He1).
  lia.
Qed.

Lemma nfa_find_all_matches_longest_iff (pat sq : str) (e : NFA.t) (a b : Z) :
  NFA.reset e = NFA.new pat ->
  (a, b) ∈ (NFA.find_all_matches e sq).2
  <-> 0 <= b /\ longest_alt_ending (NFA.alternatives e) (upper sq) b (b - a + 1).
Proof.
  intros He. rewrite nfa_find_all_matches_elem. split.
  - intros (Hb & Hflag & HL & ->). split; [lia|].
    destruct (nfa_choose_L_spec e (upper sq) b Hb) as [[H0 _]|Hlong]; [done|].
    by replace (b - (b - NFA.choose_L e (upper sq) b + 1) + 1)
      with (NFA.choose_L e (upper sq) b) by lia.
  - intros [Hb Hlong].
    pose proof Hlong as (Hpos & (alt & Halt & Hlen & Hends) & _).
    assert (Hne : alt <> []).
    { intros ->. unfold len in Hlen. cbn in Hlen. lia. }
    assert (Hlt : b < len (upper sq)) by (apply ends_at_iff in Hends; lia).
    split; [lia|]. split; [by eapply nfa_flag_complete|].
    destruct (nfa_choose_L_spec e (upper sq) b (conj Hb Hlt)) as [[_ Hnone]|Hlong'].
    { by destruct (Hnone alt Halt Hne). }
    pose proof (longest_alt_ending_unique _ _ _ _ _ Hlong Hlong') as HL.
    split; lia.
Qed.

(** X6: [find_all_matches] of the alternatives engine returns the interval
    [a, b] exactly when [b - a + 1] is the length of the longest alternative
    that stands in the (upper-cased) sequence with its last symbol at [b]:
    every position where some alternative ends is reported, with the
    longest alternative ending there, and nothing else is. *)
Theorem nfa_find_all_matches_exact (pat sq : str) (e : NFA.t) (a b : Z) :
  NFA.reset e = NFA.new pat ->
  (a, b) ∈ (NFA.find_all_matches e sq).2
  <-> 0 <= b /\ longest_alt_ending (NFA.alternatives e) (upper sq) b (b - a + 1).
Proof. apply nfa_find_all_matches_longest_iff. Qed.

Lemma nfa_find_all_matches_exact_witness :
  NFA.reset (NFA.new (lit "AT|CAT")) = NFA.new (lit "AT|CAT")
  /\ ((0, 2) ∈ (NFA.find_all_matches (NFA.new (lit "AT|CAT")) (lit "CAT")).2
      <-> 0 <= 2
          /\ longest_alt_ending (NFA.alternatives (NFA.new (lit "AT|CAT")))
               (upper (lit "CAT")) 2 (2 - 0 + 1)).
Proof.
  assert (H : NFA.reset (NFA.new (lit "AT|CAT")) = NFA.new (lit "AT|CAT"))
    by reflexivity.
  split; [exact H|].
  exact (nfa_find_all_matches_exact (lit "AT|CAT") (lit "CAT") _ 0 2 H).
Defined.

(** ** The alternatives engine: the exported graph and the alternatives *)

Lemma nfa_calls_reset e calls :
  NFA.reset (foldl nfa_call e calls) = NFA.reset e.
Proof.
  induction calls as [|c calls IH] using rev_ind; [done|].
  rewrite foldl_app. cbn [foldl]. destruct c; cbn [nfa_call]; by rewrite <- IH.
Qed.

Lemma nfa_edge_in_states alts p2s g u ch v :
  trie_inv alts p2s g -> nfa_edge (NFA.g_trans g) u ch v ->
  0 <= u < NFA.g_next g /\ 0 <= v < NFA.g_next g.
Proof.
  intros (H1 & H2 & H3 & H4 & H5 & H6) He.
  destruct (H5 _ _ _ He) as (q & Hq & Hcase).
  destruct (H2 _ _ Hq) as [Hu _]. split; [done|].
  destruct Hcase as [[-> _]|[_ Hv]]; [lia|]. by destruct (H2 _ _ Hv).
Qed.

(** X7: in an engine built by the constructor, after any calls of [reset]
    and [step], the active states are among [get_states]; both ends of
    every edge of the transition table are among [get_states]; and every
    edge of [get_important_restart_edges] is an edge of the table that
    leads to state 0. *)
Theorem nfa_graph_closed (pat : str) (calls : list call) :
  let e := foldl nfa_call (NFA.new pat) calls in
  (forall u, u ∈ NFA.get_current_states e -> u ∈ NFA.get_states e)
  /\ (forall u ch v, nfa_edge (NFA.transitions e) u ch v ->
        u ∈ NFA.get_states e /\ v ∈ NFA.get_states e)
  /\ (forall u ch, (u, ch) ∈ NFA.get_important_restart_edges e ->
        nfa_edge (NFA.transitions e) u ch 0)
  /\ (forall u, u ∈ NFA.get_initial_states e ∪ NFA.get_accept_states e ->
        u ∈ NFA.get_states e).
Proof.
  cbv zeta.
  assert (Hall : forall calls, let e := foldl nfa_call (NFA.new pat) calls in
            exists p2s, trie_inv (NFA.alternatives e) p2s (nfa_graph e)
              /\ (forall alt, alt ∈ NFA.alternatives e ->
                    trie_covers_upto p2s (nfa_graph e) alt (length alt))).
  { intros cs. cbv zeta. apply (nfa_new_graph_full pat). by rewrite nfa_calls_reset. }
  assert (Hedges : forall calls u ch v,
            nfa_edge (NFA.transitions (foldl nfa_call (NFA.new pat) calls)) u ch v ->
            u ∈ NFA.get_states (foldl nfa_call (NFA.new pat) calls)
            /\ v ∈ NFA.get_states (foldl nfa_call (NFA.new pat) calls)).
  { intros cs u ch v He. destruct (Hall cs) as (p2s & Hinv & _).
    destruct (nfa_edge_in_states _ _ _ u ch v Hinv He) as [Hu Hv].
    unfold NFA.get_states. by rewrite !elem_of_range. }
  assert (Hzero : forall calls, 0 ∈ NFA.get_states (foldl nfa_call (NFA.new pat) calls)).
  { intros cs. destruct (Hall cs) as (p2s & (H1 & H2 & _) & _).
    destruct (H2 _ _ H1) as [Hr _]. unfold NFA.get_states. by apply elem_of_range. }
  split_and!.
  - induction calls as [|c calls IH] using rev_ind.
    + intros u Hu. cbn in Hu. apply elem_of_singleton in Hu as ->. apply (Hzero []).
    + intros u Hu. pose proof (Hzero (calls ++ [c])) as Hz.
      rewrite foldl_app in Hu, Hz |- *. cbn [foldl] in Hu, Hz |- *.
      destruct c as [|x]; cbn [nfa_call] in Hu, Hz |- *.
      * cbn in Hu. by apply elem_of_singleton in Hu as ->.
      * unfold NFA.get_current_states in Hu.
        apply nfa_step_next_elem in Hu as [->|(u0 & _ & He)]; [done|].
        by destruct (Hedges calls u0 _ u He).
  - apply Hedges.
  - intros u ch Hf. destruct (Hall calls) as (p2s & Hinv & Hcov).
    pose proof Hinv as (_ & _ & H3 & _ & _ & H6).
    destruct (H6 u ch Hf) as (q & Hq & Halt).
    destruct (Hcov _ Halt q ch [] eq_refl) as (u' & Hu' & Hlast & _).
    { rewrite length_app. cbn. lia. }
    rewrite Hq in Hu'. injection Hu' as <-. by destruct (Hlast eq_refl).
  - intros u Hu. assert (u = 0) as ->.
    { unfold NFA.get_initial_states, NFA.get_accept_states in Hu.
      apply elem_of_union in Hu as [Hu|Hu]; by apply elem_of_singleton in Hu. }
    apply Hzero.
Qed.

Lemma split_concat sep s :
  concat (split sep s) = filter (fun c => c <> sep) s
  /\ Forall (fun piece => sep ∉ piece) (split sep s)
  /\ split sep s <> [].
Proof.
  induction s as [|c s (IH1 & IH2 & IH3)]; cbn [split].
  - split; [done|]. split; [|done]. repeat constructor. apply not_elem_of_nil.
  - destruct (decide (c = sep)) as [->|Hne].
    + rewrite filter_cons_False by (intros ?; done). cbn.
      split; [done|]. split; [|done]. constructor; [apply not_elem_of_nil|done].
    + rewrite filter_cons_True by done.
      destruct (split sep s) as [|x xs]; [done|]. cbn in *.
      split; [by rewrite IH1|]. split; [|done].
      apply Forall_cons in IH2 as [Hx Hxs]. constructor; [|done].
      apply not_elem_of_cons. split; [congruence|done].
Qed.

Lemma concat_filter_nonempty {A} (ls : list (list A)) :
  concat (filter (fun p => p <> []) ls) = concat ls.
Proof.
  induction ls as [|l ls IH]; [done|].
  destruct (decide (l = [])) as [->|Hne].
  - by rewrite filter_cons_False by (intros ?; done).
  - rewrite filter_cons_True by done. cbn. by rewrite IH.
Qed.

(** X8: the list of alternatives that the constructor parses is never empty;
    no alternative contains the separator; an empty alternative appears only
    as the single entry of the list, when the pattern has no symbol besides
    separators; and the alternatives, put end to end, are the upper-cased
    pattern without its separators. *)
Theorem nfa_alternatives_parsed (pat : str) :
  NFA.alternatives (NFA.new pat) <> []
  /\ (forall alt, alt ∈ NFA.alternatives (NFA.new pat) -> "|"%char ∉ alt)
  /\ (forall alt, alt ∈ NFA.alternatives (NFA.new pat) -> alt = [] ->
        NFA.alternatives (NFA.new pat) = [[]]
        /\ filter (fun c => c <> "|"%char) (upper pat) = [])
  /\ concat (NFA.alternatives (NFA.new pat))
     = filter (fun c => c <> "|"%char) (upper pat).
Proof.
  cbn [NFA.new NFA.alternatives]. unfold NFA.parse_alternatives.
  destruct (split_concat "|" (upper pat)) as (Hcat & Hall & _).
  pose proof (concat_filter_nonempty (split "|" (upper pat))) as Hcf.
  assert (Hsub : forall alt, alt ∈ filter (fun p => p <> []) (split "|" (upper pat)) ->
                   alt <> [] /\ "|"%char ∉ alt).
  { intros alt [Hne Hin]%list_elem_of_filter. split; [done|].
    rewrite Forall_forall in Hall. by apply Hall. }
  destruct (filter (fun p => p <> []) (split "|" (upper pat))) as [|a l] eqn:Hf.
  - split_and!; [done| | |].
    + intros alt ->%list_elem_of_singleton. apply not_elem_of_nil.
    + intros alt _ _. split; [done|]. by rewrite <- Hcat, <- Hcf.
    + by rewrite <- Hcat, <- Hcf.
  - split_and!; [done| | |].
    + intros alt Hin. by apply Hsub.
    + intros alt Hin ->. by destruct (Hsub [] Hin).
    + by rewrite <- Hcat, <- Hcf.
Qed.

(** ** The spacer engine: states, and stepping against the batch search *)

Lemma enfa_get_states_elem e st :
  st ∈ ENFA.get_states e
  <-> 0 <= ENFA.k st
      /\ match ENFA.phase st with
         | ENFA.Head => ENFA.k st <= len (ENFA.head e)
         | ENFA.Spacer => ENFA.k st <= ENFA.max_gap e
         | ENFA.Tail => ENFA.k st <= len (ENFA.tail e)
         end.
Proof.
  unfold ENFA.get_states. rewrite !elem_of_app, !list_elem_of_fmap.
  destruct st as [ph k]. cbn [ENFA.phase ENFA.k]. split.
  - intros [(y & [= -> ->] & Hy)|[(y & [= -> ->] & Hy)|(y & [= -> ->] & Hy)]];
      apply elem_of_range in Hy; lia.
  - intros [Hk Hph]. destruct ph.
    + left. exists k. split; [done|]. apply elem_of_range. lia.
    + right. left. exists k. split; [done|]. apply elem_of_range. lia.
    + right. right. exists k. split; [done|]. apply elem_of_range. lia.
Qed.

Lemma enfa_step_elem e x st' :
  st' ∈ ENFA.current_states (ENFA.step e x).1
  <-> st' = ENFA.St ENFA.Head 0
      \/ exists st, st ∈ ENFA.current_states e ∪ {[ ENFA.St ENFA.Head 0 ]}
                    /\ st' ∈ ENFA.advance e (upper_char x) st.
Proof.
  unfold ENFA.step, ENFA._epsilon_closure.
  cbn [fst ENFA.current_states ENFA.with_states].
  rewrite elem_of_union, elem_of_singleton, elem_of_union_list. split.
  - intros [(X & HX & Hin)|Heq]; [|by left]. right.
    apply list_elem_of_fmap in HX as (st & -> & Hst). apply elem_of_elements in Hst.
    by exists st.
  - intros [Heq|(st & Hst & Hin)]; [by right|]. left.
    exists (ENFA.advance e (upper_char x) st). split; [|done].
    apply list_elem_of_fmap. exists st. split; [done|]. by apply elem_of_elements.
Qed.

Lemma enfa_step_accepting e x :
  (ENFA.step e x).2.2 = true
  <-> ENFA.St ENFA.Tail (len (ENFA.tail e)) ∈ ENFA.current_states (ENFA.step e x).1.
Proof.
  unfold ENFA.step. cbn [fst snd ENFA.current_states ENFA.with_states]. split.
  - intros ([ph k] & Hin & Hacc)%existsb_exists.
    apply andb_true_iff in Hacc as [Hph Hk]. apply bool_decide_eq_true in Hph.
    apply Z.eqb_eq in Hk. cbn in Hph, Hk. subst.
    by apply list_elem_of_In, elem_of_elements in Hin.
  - intros Hin. apply existsb_exists. exists (ENFA.St ENFA.Tail (len (ENFA.tail e))).
    split; [by apply list_elem_of_In, elem_of_elements|].
    cbn. by rewrite bool_decide_eq_true_2, Z.eqb_refl.
Qed.

Lemma enfa_advance_inv e c st st' :
  st' ∈ ENFA.advance e c st ->
  match ENFA.phase st with
  | ENFA.Head =>
      ENFA.k st < len (ENFA.head e) /\ item_is (ENFA.head e) (ENFA.k st) c = true
      /\ st' = (if ENFA.k st + 1 =? len (ENFA.head e)
                then ENFA.St ENFA.Spacer 0 else ENFA.St ENFA.Head (ENFA.k st + 1))
  | ENFA.Spacer =>
      (ENFA.k st < ENFA.max_gap e /\ st' = ENFA.St ENFA.Spacer (ENFA.k st + 1))
      \/ (ENFA.min_gap e <= ENFA.k st /\ 0 < len (ENFA.tail e)
          /\ item_is (ENFA.tail e) 0 c = true /\ st' = ENFA.St ENFA.Tail 1)
  | ENFA.Tail =>
      ENFA.k st < len (ENFA.tail e) /\ item_is (ENFA.tail e) (ENFA.k st) c = true
      /\ st' = ENFA.St ENFA.Tail (ENFA.k st + 1)
  end.
Proof.
  unfold ENFA.advance. destruct (ENFA.phase st).
  - destruct (Z.ltb_spec (ENFA.k st) (len (ENFA.head e))); cbn [andb];
      [|by intros ?%not_elem_of_empty].
    destruct (item_is _ _ _); [|by intros ?%not_elem_of_empty].
    destruct (_ =? _); by intros ->%elem_of_singleton.
  - intros [Hin|Hin]%elem_of_union.
    + destruct (Z.ltb_spec (ENFA.k st) (ENFA.max_gap e));
        [|by apply not_elem_of_empty in Hin].
      left. by apply elem_of_singleton in Hin as ->.
    + destruct (_ && _) eqn:Hb; [|by apply not_elem_of_empty in Hin].
      apply andb_true_iff in Hb as [Hb Hit]. apply andb_true_iff in Hb as [Hg Hlt].
      apply elem_of_singleton in Hin as ->. right.
      apply Z.geb_le in Hg. apply Z.gtb_lt in Hlt. done.
  - destruct (Z.ltb_spec (ENFA.k st) (len (ENFA.tail e))); cbn [andb];
      [|by intros ?%not_elem_of_empty].
    destruct (item_is _ _ _); [|by intros ?%not_elem_of_empty].
    by intros ->%elem_of_singleton.
Qed.

Lemma enfa_advance_head e c (k : Z) :
  k < len (ENFA.head e) -> item_is (ENFA.head e) k c = true ->
  (if k + 1 =? len (ENFA.head e)
   then ENFA.St ENFA.Spacer 0 else ENFA.St ENFA.Head (k + 1))
  ∈ ENFA.advance e c (ENFA.St ENFA.Head k).
Proof.
  intros Hk Hit. unfold ENFA.advance. cbn [ENFA.phase ENFA.k].
  rewrite (proj2 (Z.ltb_lt _ _) Hk), Hit. cbn [andb].
  destruct (_ =? _); by apply elem_of_singleton.
Qed.

Lemma enfa_advance_spacer e c (g : Z) :
  g < ENFA.max_gap e ->
  ENFA.St ENFA.Spacer (g + 1) ∈ ENFA.advance e c (ENFA.St ENFA.Spacer g).
Proof.
  intros Hg. unfold ENFA.advance. cbn [ENFA.phase ENFA.k].
  rewrite (proj2 (Z.ltb_lt _ _) Hg). apply elem_of_union. left.
  by apply elem_of_singleton.
Qed.

Lemma enfa_advance_spacer_tail e c (g : Z) :
  ENFA.min_gap e <= g -> 0 < len (ENFA.tail e) -> item_is (ENFA.tail e) 0 c = true ->
  ENFA.St ENFA.Tail 1 ∈ ENFA.advance e c (ENFA.St ENFA.Spacer g).
Proof.
  intros Hg Hlt Hit. unfold ENFA.advance. cbn [ENFA.phase ENFA.k].
  apply elem_of_union. right.
  rewrite (proj2 (Z.geb_le _ _) Hg), (proj2 (Z.gtb_lt _ _) Hlt), Hit. cbn.
  by apply elem_of_singleton.
Qed.

Lemma enfa_advance_tail e c (k : Z) :
  k < len (ENFA.tail e) -> item_is (ENFA.tail e) k c = true ->
  ENFA.St ENFA.Tail (k + 1) ∈ ENFA.advance e c (ENFA.St ENFA.Tail k).
Proof.
  intros Hk Hit. unfold ENFA.advance. cbn [ENFA.phase ENFA.k].
  rewrite (proj2 (Z.ltb_lt _ _) Hk), Hit. cbn [andb]. by apply elem_of_singleton.
Qed.

Lemma enfa_head0_sound e T : enfa_state_sound e T (ENFA.St ENFA.Head 0).
Proof.
  split; [done|]. cbn. split; [by left|]. apply suffix_nil.
Qed.

Lemma enfa_step_sound e T x :
  0 <= ENFA.max_gap e ->
  (forall st, st ∈ ENFA.current_states e -> enfa_state_sound e T st) ->
  forall st', st' ∈ ENFA.current_states (ENFA.step e x).1 ->
              enfa_state_sound e (T ++ [upper_char x]) st'.
Proof.
  intros Hmax Hinv st' Hin.
  apply enfa_step_elem in Hin as [->|(st & Hst & Hadv)];
    [apply enfa_head0_sound|].
  assert (Hs : enfa_state_sound e T st).
  { apply elem_of_union in Hst as [Hst|Hst]; [by apply Hinv|].
    apply elem_of_singleton in Hst as ->. apply enfa_head0_sound. }
  apply enfa_advance_inv in Hadv. destruct st as [ph k].
  destruct Hs as [Hk Hs]. cbn [ENFA.phase ENFA.k] in *.
  pose proof (len_nonneg (ENFA.head e)) as Hlh.
  pose proof (len_nonneg (ENFA.tail e)) as Hlt.
  destruct ph.
  - destruct Hs as [_ Hsuf]. destruct Hadv as (Hlt' & Hit & ->).
    apply item_is_true in Hit; [|done].
    pose proof (take_S_r _ _ _ Hit) as Htk.
    assert (Hne : ENFA.head e <> []).
    { intros Heq. by rewrite Heq in Hit. }
    destruct (Z.eqb_spec (k + 1) (len (ENFA.head e))) as [Hlast|Hnl].
    + split; [done|]. cbn. split; [done|]. split; [done|].
      exists []. split; [done|]. rewrite app_nil_r.
      rewrite <- (firstn_all (ENFA.head e)).
      replace (length (ENFA.head e)) with (Datatypes.S (Z.to_nat k))
        by (unfold len in Hlast; lia).
      rewrite Htk. by apply suffix_app.
    + split; [cbn; lia|]. cbn. split; [right; lia|].
      replace (Z.to_nat (k + 1)) with (Datatypes.S (Z.to_nat k)) by lia.
      rewrite Htk. by apply suffix_app.
  - destruct Hs as (Hkm & Hne & gap & Hgl & Hsuf).
    destruct Hadv as [[Hlt' ->]|(Hmin & Htl & Hit & ->)].
    + split; [cbn; lia|]. cbn. split; [lia|]. split; [done|].
      exists (gap ++ [upper_char x]). split; [rewrite len_app; unfold len in *; cbn; lia|].
      rewrite app_assoc. by apply suffix_app.
    + split; [done|]. cbn. split; [lia|]. split; [done|].
      exists gap. split; [lia|].
      apply item_is_true in Hit; [|done].
      change (Z.to_nat 0) with 0%nat in Hit. change (Z.to_nat 1) with 1%nat.
      rewrite (take_S_r _ _ _ Hit), take_0, app_nil_l, app_assoc.
      by apply suffix_app.
  - destruct Hs as (Hkt & Hne & gap & Hgl & Hsuf).
    destruct Hadv as (Hlt' & Hit & ->).
    apply item_is_true in Hit; [|lia].
    split; [cbn; lia|]. cbn. split; [lia|]. split; [done|].
    exists gap. split; [done|].
    replace (Z.to_nat (k + 1)) with (Datatypes.S (Z.to_nat k)) by lia.
    rewrite (take_S_r _ _ _ Hit), !app_assoc. apply suffix_app.
    by rewrite <- app_assoc.
Qed.

Lemma enfa_steps_snoc e t x :
  enfa_steps e (t ++ [x]) = (ENFA.step (enfa_steps e t) x).1.
Proof. unfold enfa_steps. by rewrite foldl_app. Qed.

Lemma enfa_steps_shape e t :
  enfa_steps (ENFA.reset e) t
  = ENFA.with_states e (ENFA.current_states (enfa_steps (ENFA.reset e) t)).
Proof.
  induction t as [|x t IH] using rev_ind; [done|].
  rewrite enfa_steps_snoc. rewrite IH at 1 2. done.
Qed.

Lemma enfa_steps_sound e t :
  0 <= ENFA.max_gap e ->
  forall st, st ∈ ENFA.current_states (enfa_steps (ENFA.reset e) t) ->
             enfa_state_sound e (upper t) st.
Proof.
  intros Hmax. induction t as [|x t IH] using rev_ind; intros st Hst.
  - cbn in Hst. apply elem_of_singleton in Hst as ->. apply enfa_head0_sound.
  - rewrite enfa_steps_snoc, enfa_steps_shape in Hst.
    rewrite upper_app. change (upper [x]) with [upper_char x].
    revert Hst.
    apply (enfa_step_sound
             (ENFA.with_states e (ENFA.current_states (enfa_steps (ENFA.reset e) t)))
             (upper t) x Hmax).
    intros st0 Hst0. by apply IH.
Qed.

Lemma enfa_head_tracked e T cs (k : nat) :
  enfa_run_complete e T cs -> (k < length (ENFA.head e))%nat ->
  take k (ENFA.head e) `suffix_of` T ->
  ENFA.St ENFA.Head (Z.of_nat k) ∈ cs ∪ {[ ENFA.St ENFA.Head 0 ]}.
Proof.
  intros (Hh & _) Hk Hsuf. apply elem_of_union.
  destruct k as [|k]; [right; by apply elem_of_singleton|].
  left. apply Hh; [lia|done].
Qed.

Lemma enfa_step_complete e T x :
  ENFA.head e <> [] ->
  enfa_run_complete e T (ENFA.current_states e) ->
  enfa_run_complete e (T ++ [upper_char x]) (ENFA.current_states (ENFA.step e x).1).
Proof.
  intros Hne Hinv. pose proof Hinv as (Hh & Hs & Ht).
  split; [|split].
  - intros k Hk Hsuf. destruct k as [|k]; [lia|].
    destruct (lookup_lt_is_Some_2 (ENFA.head e) k) as [c Hc]; [lia|].
    rewrite (take_S_r _ _ _ Hc) in Hsuf.
    pose proof (suffix_snoc_inv_1 _ _ _ _ Hsuf) as ->.
    apply suffix_snoc_inv_2 in Hsuf.
    apply enfa_step_elem. right. exists (ENFA.St ENFA.Head (Z.of_nat k)).
    split; [apply (enfa_head_tracked e T); [done|lia|done]|].
    pose proof (enfa_advance_head e (upper_char x) (Z.of_nat k)) as Hadv.
    destruct (Z.eqb_spec (Z.of_nat k + 1) (len (ENFA.head e))) as [Heq|_];
      [unfold len in Heq; lia|].
    rewrite Nat2Z.inj_succ, <- Z.add_1_r. apply Hadv; [unfold len; lia|].
    apply item_is_true; [lia|]. by rewrite Nat2Z.id.
  - intros gap Hgl Hsuf. destruct gap as [|c gap _] using rev_ind.
    + rewrite app_nil_r in Hsuf.
      destruct (ENFA.head e) as [|c0 h0 _] eqn:Hhead using rev_ind; [done|].
      pose proof (suffix_snoc_inv_1 _ _ _ _ Hsuf) as ->.
      apply suffix_snoc_inv_2 in Hsuf.
      apply enfa_step_elem. right. exists (ENFA.St ENFA.Head (Z.of_nat (length h0))).
      split.
      * apply (enfa_head_tracked e T); [done| |].
        -- rewrite Hhead, length_app. cbn. lia.
        -- by rewrite Hhead, take_app_length.
      * pose proof (enfa_advance_head e (upper_char x) (Z.of_nat (length h0)))
          as Hadv.
        rewrite Hhead in Hadv.
        destruct (Z.eqb_spec (Z.of_nat (length h0) + 1) (len (h0 ++ [upper_char x])))
          as [_|Hneq]; [|unfold len in Hneq; rewrite length_app in Hneq; cbn in Hneq; lia].
        rewrite <- Hhead in Hadv. apply Hadv.
        -- rewrite Hhead. unfold len. rewrite length_app. cbn. lia.
        -- rewrite Hhead. apply item_is_true; [lia|]. rewrite Nat2Z.id.
           by rewrite lookup_app_r, Nat.sub_diag.
    + rewrite app_assoc in Hsuf.
      pose proof (suffix_snoc_inv_1 _ _ _ _ Hsuf) as ->.
      apply suffix_snoc_inv_2 in Hsuf.
      assert (Hl : len (gap ++ [upper_char x]) = len gap + 1)
        by (unfold len; rewrite length_app; cbn; lia).
      rewrite Hl in *.
      apply enfa_step_elem. right. exists (ENFA.St ENFA.Spacer (len gap)).
      split; [apply elem_of_union; left; apply Hs; [lia|done]|].
      apply enfa_advance_spacer. lia.
  - intros gap k Hgl Hk Hsuf. destruct k as [|k]; [lia|].
    destruct (lookup_lt_is_Some_2 (ENFA.tail e) k) as [c Hc]; [lia|].
    rewrite (take_S_r _ _ _ Hc), !app_assoc in Hsuf.
    pose proof (suffix_snoc_inv_1 _ _ _ _ Hsuf) as ->.
    apply suffix_snoc_inv_2 in Hsuf. rewrite <- app_assoc in Hsuf.
    apply enfa_step_elem. right.
    rewrite Nat2Z.inj_succ, <- Z.add_1_r.
    destruct k as [|k].
    + rewrite take_0, app_nil_r in Hsuf.
      exists (ENFA.St ENFA.Spacer (len gap)).
      split; [apply elem_of_union; left; apply Hs; [lia|done]|].
      apply enfa_advance_spacer_tail; [lia|unfold len; lia|].
      by apply item_is_true.
    + exists (ENFA.St ENFA.Tail (Z.of_nat (Datatypes.S k))).
      split; [apply elem_of_union; left; apply (Ht gap); [done|lia|done]|].
      apply enfa_advance_tail; [unfold len; lia|].
      apply item_is_true; [lia|]. by rewrite Nat2Z.id.
Qed.

Lemma enfa_steps_complete e t :
  ENFA.head e <> [] ->
  enfa_run_complete e (upper t) (ENFA.current_states (enfa_steps (ENFA.reset e) t)).
Proof.
  intros Hne. induction t as [|x t IH] using rev_ind.
  - assert (Hnil : forall w : str, ENFA.head e ++ w `suffix_of` [] -> False).
    { intros w Hsuf. apply suffix_nil_inv in Hsuf.
      by apply app_eq_nil in Hsuf as [? _]. }
    cbn [upper]. split; [|split].
    + intros k Hk Hsuf. apply suffix_nil_inv in Hsuf.
      apply (f_equal length) in Hsuf. rewrite length_take in Hsuf. cbn in Hsuf. lia.
    + intros gap _ Hsuf. by destruct (Hnil _ Hsuf).
    + intros gap k _ _ Hsuf. by destruct (Hnil _ Hsuf).
  - rewrite enfa_steps_snoc, enfa_steps_shape.
    rewrite upper_app. change (upper [x]) with [upper_char x].
    by apply (enfa_step_complete
                (ENFA.with_states e
                   (ENFA.current_states (enfa_steps (ENFA.reset e) t)))).
Qed.

Lemma enfa_new_reset pat e : ENFA.new pat = Ok e -> ENFA.reset e = e.
Proof.
  unfold ENFA.new. destruct (ENFA._parse_enfa_pattern pat) as [[[[h mn] mx] tl]|];
    [|done].
  cbn. by intros [= <-].
Qed.

Lemma enfa_calls_steps e calls :
  exists t, foldl enfa_call (ENFA.reset e) calls = enfa_steps (ENFA.reset e) t.
Proof.
  induction calls as [|c calls [t IH]] using rev_ind; [by exists []|].
  rewrite foldl_app. cbn [foldl]. rewrite IH. destruct c as [|x]; cbn.
  - exists []. by rewrite enfa_steps_shape.
  - exists (t ++ [x]). by rewrite enfa_steps_snoc.
Qed.

Lemma enfa_accepting_sound e t x :
  0 <= ENFA.min_gap e <= ENFA.max_gap e ->
  (ENFA.step (enfa_steps (ENFA.reset e) t) x).2.2 = true ->
  ENFA.head e <> [] /\ ENFA.tail e <> []
  /\ exists a, (a, len t) ∈ (ENFA.find_all_matches e (t ++ [x])).2.
Proof.
  intros Hg Hacc. apply enfa_step_accepting in Hacc.
  rewrite enfa_steps_shape in Hacc. cbn [ENFA.tail ENFA.with_states] in Hacc.
  assert (Hmax : 0 <= ENFA.max_gap e) by lia.
  apply (enfa_step_sound
           (ENFA.with_states e (ENFA.current_states (enfa_steps (ENFA.reset e) t)))
           (upper t) x Hmax (enfa_steps_sound e t Hmax)) in Hacc.
  destruct Hacc as [_ (Hk & Hne & gap & Hgl & Hsuf)].
  cbn [ENFA.phase ENFA.k ENFA.head ENFA.tail ENFA.min_gap ENFA.max_gap
       ENFA.with_states] in *.
  split; [done|]. split; [intros Heq; rewrite Heq in Hk; unfold len in Hk; cbn in Hk; lia|].
  replace (Z.to_nat (len (ENFA.tail e))) with (length (ENFA.tail e)) in Hsuf
    by (unfold len; lia).
  rewrite firstn_all in Hsuf. destruct Hsuf as [pre Heq].
  exists (len pre). apply enfa_find_all_matches_elem; [lia|].
  exists (len gap). rewrite upper_app. change (upper [x]) with [upper_char x].
  rewrite Heq. split_and!.
  - apply (f_equal len) in Heq. rewrite !len_app, len_upper in Heq.
    change (len [upper_char x]) with 1 in Heq. lia.
  - by exists pre, (gap ++ ENFA.tail e).
  - lia.
  - lia.
  - exists (pre ++ ENFA.head e ++ gap), []. split.
    + by rewrite app_nil_r, <- !app_assoc.
    + rewrite !len_app. lia.
Qed.

Lemma enfa_accepting_complete e t x a :
  0 <= ENFA.min_gap e -> ENFA.head e <> [] -> ENFA.tail e <> [] ->
  (a, len t) ∈ (ENFA.find_all_matches e (t ++ [x])).2 ->
  (ENFA.step (enfa_steps (ENFA.reset e) t) x).2.2 = true.
Proof.
  intros Hmin Hne Htne Hin. apply enfa_step_accepting.
  rewrite enfa_steps_shape. cbn [ENFA.tail ENFA.with_states].
  apply enfa_find_all_matches_elem in Hin as (g & Hb & Hh & Hg & Ht); [|done].
  rewrite upper_app in Hh, Ht. change (upper [x]) with [upper_char x] in Hh, Ht.
  destruct Hh as (pre & post & Heq & Ha).
  destruct Ht as (pre2 & post2 & Heq2 & Ha2).
  pose proof (len_nonneg pre). pose proof (len_nonneg post).
  pose proof (len_nonneg (ENFA.head e)). pose proof (len_nonneg (ENFA.tail e)).
  pose proof (len_nonneg post2).
  assert (Hlen : len (upper t ++ [upper_char x]) = len t + 1).
  { rewrite len_app, len_upper. done. }
  assert (Hp2 : post2 = []).
  { apply len_zero. rewrite Heq2, !len_app in Hlen. lia. }
  subst post2. rewrite app_nil_r in Heq2.
  assert (Hpost : len post = g + len (ENFA.tail e)).
  { rewrite Heq, !len_app in Hlen. lia. }
  assert (Hsplit : pre ++ ENFA.head e ++ take (Z.to_nat g) post = pre2
                   /\ drop (Z.to_nat g) post = ENFA.tail e).
  { apply app_inj_1.
    - unfold len in *. rewrite !length_app, length_take. lia.
    - rewrite <- !app_assoc, take_drop. by rewrite <- Heq. }
  destruct Hsplit as [Hpre2 Htl].
  pose proof (enfa_step_complete
                (ENFA.with_states e
                   (ENFA.current_states (enfa_steps (ENFA.reset e) t)))
                (upper t) x Hne (enfa_steps_complete e t Hne)) as (_ & _ & Hc).
  cbn [ENFA.head ENFA.tail ENFA.min_gap ENFA.max_gap ENFA.with_states] in Hc.
  specialize (Hc (take (Z.to_nat g) post) (length (ENFA.tail e))).
  replace (Z.of_nat (length (ENFA.tail e))) with (len (ENFA.tail e)) in Hc by done.
  apply Hc.
  - unfold len in *. rewrite length_take. lia.
  - assert (length (ENFA.tail e) <> 0)%nat by (by intros ?%nil_length_inv). lia.
  - rewrite firstn_all. exists pre. rewrite Heq2, <- Hpre2.
    by rewrite <- !app_assoc.
Qed.

(** X9: for a constructed spacer engine, [step] reports acceptance after the
    symbols [t] and then [x] exactly when head and tail are both non-empty
    and [find_all_matches] on the text read so far returns an interval that
    ends at the symbol just read.  With an empty head or an empty tail
    [step] never accepts, whatever [find_all_matches] returns. *)
Theorem enfa_step_accepts_iff_match pat e t x :
  ENFA.new pat = Ok e ->
  ((ENFA.step (enfa_steps e t) x).2.2 = true
   <-> ENFA.head e <> [] /\ ENFA.tail e <> []
       /\ exists a, (a, len t) ∈ (ENFA.find_all_matches e (t ++ [x])).2).
Proof.
  intros Hnew. pose proof (enfa_new_gaps pat e Hnew) as Hg.
  rewrite <- (enfa_new_reset pat e Hnew) at 1. split.
  - by apply enfa_accepting_sound.
  - intros (Hne & Htne & a & Hin).
    apply (enfa_accepting_complete e t x a); [lia|done..].
Qed.

Lemma enfa_step_accepts_iff_match_witness :
  ENFA.new (lit "ta{1,2}g") = Ok (ENFA.mk (lit "TA{1,2}G") (lit "TA") 1 2 (lit "G")
                                    {[ ENFA.St ENFA.Head 0 ]})
  /\ (ENFA.step (enfa_steps (ENFA.mk (lit "TA{1,2}G") (lit "TA") 1 2 (lit "G")
                               {[ ENFA.St ENFA.Head 0 ]}) (lit "cTAc")) "g").2.2
     = true.
Proof.
  assert (Hnew : ENFA.new (lit "ta{1,2}g")
                 = Ok (ENFA.mk (lit "TA{1,2}G") (lit "TA") 1 2 (lit "G")
                         {[ ENFA.St ENFA.Head 0 ]})) by (vm_compute; reflexivity).
  split; [exact Hnew|].
  apply (proj2 (enfa_step_accepts_iff_match _ _ (lit "cTAc") "g"%char Hnew)).
  split; [done|]. split; [done|]. exists 1.
  apply (bool_decide_unpack _). vm_compute. exact I.
Defined.

(** X10: whatever calls a constructed spacer engine has served, every active
    state is one of the states [get_states] lists, and two of the listed
    states are never active: [(tail, 0)], and [(head, len(head))] when the
    head is not empty (reading the last head symbol leads to [(spacer, 0)]
    directly). *)
Theorem enfa_active_states_listed pat e0 calls st :
  ENFA.new pat = Ok e0 ->
  st ∈ ENFA.get_current_states (foldl enfa_call e0 calls) ->
  st ∈ ENFA.get_states (foldl enfa_call e0 calls)
  /\ st <> ENFA.St ENFA.Tail 0
  /\ (ENFA.head e0 <> [] -> st <> ENFA.St ENFA.Head (len (ENFA.head e0))).
Proof.
  intros Hnew Hst. pose proof (enfa_new_gaps pat e0 Hnew) as Hg.
  rewrite <- (enfa_new_reset pat e0 Hnew) in Hst |- * at 1.
  destruct (enfa_calls_steps e0 calls) as [t Ht]. rewrite Ht in *.
  unfold ENFA.get_current_states in Hst.
  apply enfa_steps_sound in Hst; [|lia].
  rewrite enfa_steps_shape. destruct st as [ph k]. destruct Hst as [Hk Hs].
  cbn [ENFA.phase ENFA.k] in *. split; [|split].
  - apply enfa_get_states_elem.
    cbn [ENFA.phase ENFA.k ENFA.head ENFA.tail ENFA.max_gap ENFA.with_states].
    split; [done|]. pose proof (len_nonneg (ENFA.head e0)).
    destruct ph; [destruct Hs as [[->|?] _]; lia|by destruct Hs|by destruct Hs as [[_ ?] _]].
  - intros [= -> ->]. destruct Hs as [? _]. lia.
  - intros Hne [= -> ->]. destruct Hs as [[Heq|?] _]; [|lia].
    by apply len_zero in Heq.
Qed.

Lemma enfa_active_states_listed_witness :
  ENFA.St ENFA.Spacer 1
  ∈ ENFA.get_states
      (foldl enfa_call (ENFA.mk (lit "TA{1,2}G") (lit "TA") 1 2 (lit "G")
                          {[ ENFA.St ENFA.Head 0 ]})
         [Step "t"%char; Step "a"%char; Step "c"%char]).
Proof.
  refine (proj1 (enfa_active_states_listed (lit "ta{1,2}g") _
                   [Step "t"%char; Step "a"%char; Step "c"%char]
                   (ENFA.St ENFA.Spacer 1) _ _)).
  - vm_compute. reflexivity.
  - apply (bool_decide_unpack _). vm_compute. exact I.
Defined.

(** ** The complement-palindrome engine: the stack window and the spans *)

Lemma pda_steps_snoc e t x :
  pda_steps e (t ++ [x]) = (PDA.step (pda_steps e t) x).1.
Proof. unfold pda_steps. by rewrite foldl_app. Qed.

(** X11: after [reset] and one [step] per symbol of [t], the stack holds the
    last eight symbols read, upper-cased (all of them while no more than
    eight were read), the position is the number of symbols read, the mode
    is "pop" exactly when more than eight were read, and the minimum length
    and the pattern are those the engine had. *)
Theorem pda_stack_is_window (e : PDA.t) (t : str) :
  PDA.get_stack (pda_steps (PDA.reset e) t) = drop (length t - 8) (upper t)
  /\ PDA.pos (pda_steps (PDA.reset e) t) = len t
  /\ (PDA.get_control_state (pda_steps (PDA.reset e) t) = PDA.pop <-> 8 < len t)
  /\ PDA.min_len (pda_steps (PDA.reset e) t) = PDA.min_len e
  /\ PDA.pattern (pda_steps (PDA.reset e) t) = PDA.pattern e.
Proof.
  induction t as [|x t IH] using rev_ind.
  - cbn. split_and!; try done. all: split; [done|unfold len; cbn; lia].
  - rewrite pda_steps_snoc. destruct IH as (Hst & Hpos & Hmode & Hmin & Hpat).
    unfold PDA.get_stack, PDA.get_control_state in *.
    unfold PDA.step. rewrite Hst, Hpos, Hmin, Hpat.
    rewrite upper_app. change (upper [x]) with [upper_char x].
    assert (Hlen : len (drop (length t - 8) (upper t) ++ [upper_char x])
                   = Z.min (len t) 8 + 1).
    { unfold len. rewrite length_app, length_drop, upper_length. cbn. lia. }
    assert (Hl' : len (t ++ [x]) = len t + 1).
    { unfold len. rewrite length_app. cbn. lia. }
    rewrite Hlen, Hl'. rewrite length_app. cbn [length].
    pose proof (len_nonneg t) as Hn.
    destruct (Z.gtb_spec (Z.min (len t) 8 + 1) 8) as [Hgt|Hle]; cbn.
    + split_and!; try done; [|split; [lia|done]].
      rewrite (drop_app_le (upper t)) by (rewrite upper_length; unfold len in *; lia).
      rewrite drop_app_le
        by (rewrite length_drop, upper_length; unfold len in *; lia).
      rewrite drop_drop. f_equal. f_equal. unfold len in *. lia.
    + split_and!; try done; [|split; [done|lia]].
      replace (length t + 1 - 8)%nat with 0%nat by (unfold len in *; lia).
      by replace (length t - 8)%nat with 0%nat by (unfold len in *; lia).
Qed.

Lemma complement_pair_comp a b :
  complement_pair a b -> PDA._comp a = b /\ PDA._comp b = a.
Proof. intros [[-> ->]|[[-> ->]|[[-> ->]|[-> ->]]]]; by split. Qed.

Lemma complement_pair_alphabet a b :
  complement_pair a b -> a ∈ alphabet /\ b ∈ alphabet.
Proof.
  intros [[-> ->]|[[-> ->]|[[-> ->]|[-> ->]]]]; split;
    apply (bool_decide_unpack _); vm_compute; exact I.
Qed.

(** X12: on a sequence without "?", every span [(L, R)] that the
    complement-palindrome engine returns lies inside the sequence, has an
    even length that reaches the engine's minimum, consists of the four
    bases, and reads the same when reversed and complemented. *)
Theorem pda_spans_are_reverse_complements (e : PDA.t) (sq : str) (L R : Z) :
  "?"%char ∉ upper sq ->
  (L, R) ∈ (PDA.find_all_matches e sq).2 ->
  0 <= L /\ R < len sq
  /\ PDA.min_len e <= R - L + 1 /\ Z.even (R - L + 1) = true
  /\ Forall (fun c => c ∈ alphabet) (slice (upper sq) L (R + 1))
  /\ reverse_complement (slice (upper sq) L (R + 1)) = slice (upper sq) L (R + 1).
Proof.
  intros Hq Hin.
  apply (proj1 (pda_find_all_matches_spec e sq Hq)) in Hin
    as (i & m & Hi & (Hm & Hall & _) & -> & -> & Hmin).
  rewrite <- (len_upper sq). set (T := upper sq) in *.
  assert (Hb : 0 <= i + 1 - m /\ i + m < len T).
  { destruct (decide (m = 0)) as [->|Hm0]; [lia|].
    destruct (Hall (m - 1)) as (? & ? & _); lia. }
  split; [lia|]. split; [lia|]. split; [done|].
  split; [replace (i + m - (i + 1 - m) + 1) with (2 * m) by lia;
          by rewrite Z.even_mul|].
  rewrite slice_take_drop by lia.
  set (w := take (Z.to_nat (i + m + 1 - (i + 1 - m))) (drop (Z.to_nat (i + 1 - m)) T)).
  assert (Hlw : length w = Z.to_nat (2 * m)).
  { unfold w. rewrite length_take, length_drop. unfold len in *. lia. }
  assert (Hw : forall j, (j < Z.to_nat (2 * m))%nat ->
                         w !! j = T !! (Z.to_nat (i + 1 - m) + j)%nat).
  { intros j Hj. unfold w. rewrite lookup_take_lt by lia. by rewrite lookup_drop. }
  assert (Hpair : forall d, 0 <= d < m ->
            exists a b, w !! Z.to_nat (m - 1 - d) = Some a
                        /\ w !! Z.to_nat (m + d) = Some b /\ complement_pair a b).
  { intros d Hd. destruct (Hall d Hd) as (Hl & Hr & a & b & Ha & Hb' & Hp).
    exists a, b. rewrite !Hw by lia. split_and!; [| |done].
    - rewrite <- Ha. f_equal. lia.
    - rewrite <- Hb'. f_equal. lia. }
  split.
  - apply Forall_lookup. intros j c Hc.
    assert (Hj : (j < Z.to_nat (2 * m))%nat)
      by (rewrite <- Hlw; by eapply lookup_lt_Some).
    destruct (decide (Z.of_nat j < m)) as [Hlt|Hge].
    + destruct (Hpair (m - 1 - Z.of_nat j)) as (a & b & Ha & _ & Hp); [lia|].
      replace (Z.to_nat (m - 1 - (m - 1 - Z.of_nat j))) with j in Ha by lia.
      assert (a = c) as -> by congruence.
      by apply complement_pair_alphabet in Hp as [? _].
    + destruct (Hpair (Z.of_nat j - m)) as (a & b & _ & Hb' & Hp); [lia|].
      replace (Z.to_nat (m + (Z.of_nat j - m))) with j in Hb' by lia.
      assert (b = c) as -> by congruence.
      by apply complement_pair_alphabet in Hp as [_ ?].
  - unfold reverse_complement. apply list_eq. intros j.
    rewrite list_lookup_fmap.
    destruct (decide (j < Z.to_nat (2 * m))%nat) as [Hj|Hj].
    + rewrite reverse_lookup by lia. rewrite Hlw.
      destruct (decide (Z.of_nat j < m)) as [Hlt|Hge].
      * destruct (Hpair (m - 1 - Z.of_nat j)) as (a & b & Ha & Hb' & Hp); [lia|].
        replace (Z.to_nat (m - 1 - (m - 1 - Z.of_nat j))) with j in Ha by lia.
        replace (Z.to_nat (m + (m - 1 - Z.of_nat j)))
          with (Z.to_nat (2 * m) - Datatypes.S j)%nat in Hb' by lia.
        rewrite Ha, Hb'. cbn. f_equal.
        by apply complement_pair_comp in Hp as [_ ?].
      * destruct (Hpair (Z.of_nat j - m)) as (a & b & Ha & Hb' & Hp); [lia|].
        replace (Z.to_nat (m + (Z.of_nat j - m))) with j in Hb' by lia.
        replace (Z.to_nat (m - 1 - (Z.of_nat j - m)))
          with (Z.to_nat (2 * m) - Datatypes.S j)%nat in Ha by lia.
        rewrite Ha, Hb'. cbn. f_equal.
        by apply complement_pair_comp in Hp as [? _].
    + rewrite (lookup_ge_None_2 w) by lia.
      rewrite lookup_ge_None_2; [done|]. rewrite length_reverse. lia.
Qed.

Lemma pda_spans_are_reverse_complements_witness :
  reverse_complement (slice (upper (lit "cgaattca")) 1 (6 + 1))
  = slice (upper (lit "cgaattca")) 1 (6 + 1).
Proof.
  refine (proj2 (proj2 (proj2 (proj2 (proj2
            (pda_spans_are_reverse_complements
               (PDA.new (lit "PALINDROME") 4) (lit "cgaattca") 1 6 _ _)))))).
  - apply (bool_decide_unpack _). vm_compute. exact I.
  - apply (bool_decide_unpack _). vm_compute. exact I.
Defined.

(** ** The factory and the menu *)

Lemma enfa_new_not_unsupported pat tag :
  ENFA.new pat <> Raise (ValueError (UnsupportedType tag)).
Proof.
  unfold ENFA.new, ENFA._parse_enfa_pattern.
  destruct (negb _ || negb _); [done|]. cbn [bind].
  destruct (ENFA.unpack2 (split1 "{" (upper pat))) as [hr|x] eqn:H1; cbn [bind].
  - destruct (ENFA.unpack2 (split1 "}" hr.2)) as [rt|x] eqn:H2; cbn [bind].
    + destruct (ENFA.parse_range rt.1) as [gaps|x] eqn:H3; cbn [bind].
      * by destruct (_ || _).
      * apply enfa_parse_range_raises in H3 as [s ->]. done.
    + unfold ENFA.unpack2 in H2. destruct (split1 "}" hr.2) as [? [?|]]; [done|].
      by injection H2 as <-.
  - unfold ENFA.unpack2 in H1. destruct (split1 "{" (upper pat)) as [? [?|]]; [done|].
    by injection H1 as <-.
Qed.

Lemma enfa_new_pattern pat e : ENFA.new pat = Ok e -> ENFA.pattern e = upper pat.
Proof.
  unfold ENFA.new. destruct (ENFA._parse_enfa_pattern pat) as [[[[h mn] mx] tl]|];
    [|done].
  cbn. by intros [= <-].
Qed.

(** X13: the factory agrees with the menu.  The engine that
    [create_automaton] returns for a tag reports that tag as its type and
    stores the upper-cased pattern (for the complement-palindrome engine
    "PALINDROME" when the pattern is empty); the tags of [available_types]
    are four different ones, and they are exactly the tags for which the
    factory does not raise "Unsupported automata type". *)
Theorem create_automaton_agrees_with_menu (tag pat : str) :
  (forall e, create_automaton tag pat = Ok e ->
     get_type e = tag
     /\ engine_pattern e
        = upper (if decide (tag = AutomataType.PDA /\ pat = [])
                 then lit "PALINDROME" else pat))
  /\ NoDup (available_types.*1)
  /\ (tag ∈ available_types.*1
      <-> create_automaton tag pat <> Raise (ValueError (UnsupportedType tag))).
Proof.
  assert (Hd : AutomataType.DFA <> AutomataType.PDA) by done.
  assert (Hn : AutomataType.NFA <> AutomataType.PDA) by done.
  assert (He : AutomataType.ENFA <> AutomataType.PDA) by done.
  split; [|split].
  - intros e. unfold create_automaton.
    destruct (decide (tag = AutomataType.DFA)) as [->|].
    { intros [= <-]. split; [done|]. rewrite decide_False by tauto. done. }
    destruct (decide (tag = AutomataType.NFA)) as [->|].
    { intros [= <-]. split; [done|]. rewrite decide_False by tauto. done. }
    destruct (decide (tag = AutomataType.ENFA)) as [->|].
    { destruct (ENFA.new pat) as [e'|] eqn:Hnew; [|done]. cbn.
      intros [= <-]. split; [done|]. rewrite decide_False by tauto.
      by apply (enfa_new_pattern pat). }
    destruct (decide (tag = AutomataType.PDA)) as [->|]; [|done].
    intros [= <-]. split; [done|]. cbn.
    destruct pat; [by rewrite decide_True|by rewrite decide_False by (intros [_ ?]; done)].
  - apply (bool_decide_unpack _). vm_compute. exact I.
  - unfold create_automaton. cbn [available_types fmap list_fmap fst].
    rewrite !elem_of_cons, elem_of_nil.
    destruct (decide (tag = AutomataType.DFA)); [split; [done|tauto]|].
    destruct (decide (tag = AutomataType.NFA)); [split; [done|tauto]|].
    destruct (decide (tag = AutomataType.ENFA)).
    { split; [|tauto]. intros _.
      pose proof (enfa_new_not_unsupported pat tag) as Hnot.
      destruct (ENFA.new pat); cbn; [done|]. congruence. }
    destruct (decide (tag = AutomataType.PDA)); [split; [done|tauto]|].
    split; [tauto|]. intros H. by destruct H.
Qed.

(** ** The exported transition table of the exact-match engine *)

Lemma dfa_get_transitions_lookup d k :
  DFA.get_transitions d !! k
  = (fun ns => ({[ ns ]} : gset Z)) <$> DFA.transitions d !! k.
Proof.
  unfold DFA.get_transitions. revert k.
  apply (map_fold_weak_ind
           (fun (r : gmap (Z * ascii) (gset Z)) (m : gmap (Z * ascii) Z) =>
              forall k, r !! k = (fun ns => ({[ ns ]} : gset Z)) <$> m !! k)).
  - intros k. by rewrite !lookup_empty.
  - intros i x m r Hi IH k. rewrite (IH i), Hi. cbn.
    rewrite (left_id_L ∅ (∪)).
    destruct (decide (k = i)) as [->|Hne].
    + by rewrite !lookup_insert_eq.
    + rewrite !lookup_insert_ne by done. apply IH.
Qed.

Lemma dfa_build_lookup_empty i c :
  DFA._build_linear_chain [] !! (i, c)
  = if decide (i = 0 /\ c ∈ alphabet) then Some 0 else None.
Proof.
  unfold DFA._build_linear_chain. change (len [] =? 0) with true. cbv iota.
  rewrite (inner_insert_lookup (fun _ => 0) 0 alphabet ∅ i c).
  case_decide; [done|]. apply lookup_empty.
Qed.

(** X14: the table that [get_transitions] exports for a constructed engine
    is the step function: its keys are the pairs of a state of [get_states]
    (for the empty pattern, where [get_states] is empty, the state 0) and a
    symbol of [get_symbol_set], and the set stored under [(s, c)] holds
    exactly the state that [step] reaches from [s] on [c]. *)
Theorem dfa_get_transitions_is_step (P : str) (d : DFA.t) (s : Z) (c : ascii) :
  DFA.reset d = DFA.new P ->
  DFA.get_transitions d !! (s, c)
  = if decide ((s ∈ DFA.get_states d \/ (DFA.pattern d = [] /\ s = 0))
               /\ c ∈ DFA.get_symbol_set d)
    then Some {[ (DFA.step (dfa_at d s) c).2.1 ]} else None.
Proof.
  intros Hd. apply dfa_reset_new_fields in Hd as [Hp Ht].
  rewrite dfa_get_transitions_lookup.
  unfold DFA.get_states, DFA.get_symbol_set, DFA.step, dfa_at.
  cbn [DFA.pattern DFA.transitions DFA.current_state].
  assert (Hstep : c ∈ alphabet -> in_alphabet (upper_char c) = true /\ upper_char c = c).
  { intros Hc. rewrite (upper_char_alphabet c Hc). split; [|done].
    by apply in_alphabet_true. }
  rewrite Ht, Hp. pose proof (len_nonneg (upper P)) as Hn.
  destruct (decide (upper P = [])) as [He|Hne].
  - rewrite He, dfa_build_lookup_empty.
    destruct (decide (s = 0 /\ c ∈ alphabet)) as [[-> Hc]|Hno].
    + rewrite decide_True by (split; [by right|done]).
      destruct (Hstep Hc) as [-> ->]. cbn.
      by rewrite dfa_build_lookup_empty, decide_True.
    + rewrite decide_False; [done|]. intros [[Hin|[_ ->]] Hc]; [|tauto].
      by apply elem_of_range in Hin; unfold len in Hin; cbn in Hin; lia.
  - assert (Hpos : 0 < len (upper P)).
    { destruct (decide (len (upper P) = 0)) as [H0|]; [|lia].
      by apply len_zero in H0. }
    rewrite dfa_build_lookup_spec by done.
    destruct (decide (s ∈ range 0 (len (upper P)) /\ c ∈ alphabet)) as [[Hs Hc]|Hno].
    + rewrite decide_True by (split; [by left|done]).
      destruct (Hstep Hc) as [-> ->]. cbn.
      by rewrite dfa_build_lookup_spec, decide_True.
    + rewrite decide_False; [done|]. intros [[Hin|[? _]] Hc]; tauto.
Qed.

Lemma dfa_get_transitions_is_step_witness :
  DFA.get_transitions (DFA.new (lit "ATG")) !! (1, "A"%char) = Some {[ 1 ]}.
Proof.
  rewrite (dfa_get_transitions_is_step (lit "ATG") (DFA.new (lit "ATG")) 1 "A"%char);
    [|reflexivity].
  rewrite decide_True; [reflexivity|].
  split; [left|]; apply (bool_decide_unpack _); vm_compute; exact I.
Defined.

(** ** The exported diagram of the spacer engine *)

Lemma enfa_edge_empty s a ns : ~ enfa_edge ∅ s a ns.
Proof. intros (X & HX & _). by rewrite lookup_empty in HX. Qed.

Lemma enfa_edge_add key ns0 tr s a ns :
  enfa_edge (ENFA.add_edge key ns0 tr) s a ns
  <-> enfa_edge tr s a ns \/ ((s, a) = key /\ ns = ns0).
Proof.
  unfold enfa_edge, ENFA.add_edge. destruct (decide ((s, a) = key)) as [<-|Hne].
  - rewrite lookup_insert_eq. split.
    + intros (X & [= <-] & Hin). apply elem_of_union in Hin as [Hin|Hin].
      * left. destruct (tr !! (s, a)) as [Y|]; [by exists Y|].
        by apply not_elem_of_empty in Hin.
      * right. by apply elem_of_singleton in Hin.
    + intros [(X & HX & Hin)|[_ Heq]]; eexists; (split; [done|]);
        apply elem_of_union.
      * left. by rewrite HX.
      * right. by apply elem_of_singleton.
  - rewrite lookup_insert_ne by done. split; [by left|].
    intros [H|[? _]]; [done|congruence].
Qed.

Lemma enfa_edge_foldl {A}
    (f : gmap (ENFA.ENFAState * option ascii) (gset ENFA.ENFAState) -> A ->
         gmap (ENFA.ENFAState * option ascii) (gset ENFA.ENFAState))
    (Q : A -> Prop) s a ns :
  (forall tr x, enfa_edge (f tr x) s a ns <-> enfa_edge tr s a ns \/ Q x) ->
  forall l tr,
    enfa_edge (foldl f tr l) s a ns
    <-> enfa_edge tr s a ns \/ exists x, x ∈ l /\ Q x.
Proof.
  intros Hf l. induction l as [|x l IH]; intros tr; cbn [foldl].
  - split; [by left|]. intros [H|(x & Hx & _)]; [done|].
    by apply elem_of_nil in Hx.
  - rewrite IH, Hf. split.
    + intros [[H|H]|(y & Hy & H)]; [by left| |].
      * right. exists x. split; [by left|done].
      * right. exists y. split; [by right|done].
    + intros [H|(y & Hy & H)]; [by left; left|].
      apply elem_of_cons in Hy as [->|Hy]; [by left; right|].
      right. by exists y.
Qed.

Lemma enfa_motif_edge ph w tr k s a ns :
  enfa_edge (ENFA.motif_edge ph w tr k) s a ns
  <-> enfa_edge tr s a ns
      \/ exists c, item w k = Some c /\ s = ENFA.St ph k /\ a = Some c
                   /\ ns = ENFA.St ph (k + 1).
Proof.
  unfold ENFA.motif_edge. destruct (item w k) as [c|].
  - rewrite enfa_edge_add. split.
    + intros [H|[[= -> ->] ->]]; [by left|]. right. by exists c.
    + intros [H|(c' & [= <-] & -> & -> & ->)]; [by left|by right].
  - split; [by left|]. by intros [H|(c & ? & _)].
Qed.

Lemma enfa_spacer_edges e tr g s a ns :
  enfa_edge (ENFA.spacer_edges e tr g) s a ns
  <-> enfa_edge tr s a ns
      \/ ((exists c, c ∈ alphabet /\ s = ENFA.St ENFA.Spacer g /\ a = Some c
                     /\ ns = ENFA.St ENFA.Spacer (g + 1))
          \/ (ENFA.min_gap e <= g /\ exists c, ENFA.tail e !! 0%nat = Some c
                /\ s = ENFA.St ENFA.Spacer g /\ a = Some c
                /\ ns = ENFA.St ENFA.Tail 1)).
Proof.
  unfold ENFA.spacer_edges.
  set (f := fun trans c =>
              ENFA.add_edge (ENFA.St ENFA.Spacer g, Some c)
                            (ENFA.St ENFA.Spacer (g + 1)) trans).
  assert (Hin : enfa_edge (foldl f tr alphabet) s a ns
                <-> enfa_edge tr s a ns
                    \/ exists c, c ∈ alphabet
                         /\ (s = ENFA.St ENFA.Spacer g /\ a = Some c
                             /\ ns = ENFA.St ENFA.Spacer (g + 1))).
  { apply (enfa_edge_foldl f
             (fun c => s = ENFA.St ENFA.Spacer g /\ a = Some c
                       /\ ns = ENFA.St ENFA.Spacer (g + 1))).
    intros tr' c. unfold f. rewrite enfa_edge_add. split.
    - intros [H|[[= -> ->] ->]]; [by left|by right].
    - intros [H|(-> & -> & ->)]; [by left|by right]. }
  assert (Hit : item (ENFA.tail e) 0 = ENFA.tail e !! 0%nat)
    by (by rewrite item_nonneg).
  rewrite Hit.
  destruct (Z.geb_spec g (ENFA.min_gap e)) as [Hg|Hg]; cbn [andb].
  - destruct (Z.gtb_spec (len (ENFA.tail e)) 0) as [Hl|Hl].
    + destruct (ENFA.tail e !! 0%nat) as [c0|] eqn:H0.
      * rewrite enfa_edge_add, Hin. split.
        -- intros [[H|(c & Hc & H)]|[[= -> ->] ->]]; [by left| |].
           ++ right. left. by exists c.
           ++ right. right. split; [done|]. by exists c0.
        -- intros [H|[(c & Hc & H)|(_ & c & [= <-] & -> & -> & ->)]];
             [by left; left| |by right].
           left. right. by exists c.
      * rewrite Hin. split.
        -- intros [H|(c & Hc & H)]; [by left|]. right. left. by exists c.
        -- intros [H|[(c & Hc & H)|(_ & c & ? & _)]]; [by left| |done].
           right. by exists c.
    + rewrite Hin. split.
      * intros [H|(c & Hc & H)]; [by left|]. right. left. by exists c.
      * intros [H|[(c & Hc & H)|(_ & c & Hc & _)]]; [by left| |].
        -- right. by exists c.
        -- apply lookup_lt_Some in Hc. unfold len in Hl. lia.
  - rewrite Hin. split.
    + intros [H|(c & Hc & H)]; [by left|]. right. left. by exists c.
    + intros [H|[(c & Hc & H)|(? & _)]]; [by left| |lia].
      right. by exists c.
Qed.

Lemma enfa_get_transitions_edge e s a ns :
  enfa_edge (ENFA.get_transitions e) s a ns <-> enfa_diagram_edge e s a ns.
Proof.
  unfold ENFA.get_transitions.
  rewrite (enfa_edge_foldl (ENFA.motif_edge ENFA.Tail (ENFA.tail e)) _ s a ns
             (fun tr k => enfa_motif_edge ENFA.Tail (ENFA.tail e) tr k s a ns)).
  rewrite (enfa_edge_foldl (ENFA.spacer_edges e) _ s a ns
             (fun tr g => enfa_spacer_edges e tr g s a ns)).
  rewrite enfa_edge_add.
  rewrite (enfa_edge_foldl (ENFA.motif_edge ENFA.Head (ENFA.head e)) _ s a ns
             (fun tr k => enfa_motif_edge ENFA.Head (ENFA.head e) tr k s a ns)).
  split.
  - intros [[[[H|(k & Hk & c & Hc & -> & -> & ->)]|[[= -> ->] ->]]
            |(g & Hg & [(c & Hc & -> & -> & ->)|(Hmin & c & Hc & -> & -> & ->)])]
           |(k & Hk & c & Hc & -> & -> & ->)].
    + by apply enfa_edge_empty in H.
    + apply elem_of_range in Hk. rewrite item_nonneg in Hc by lia.
      apply edge_head; [lia|done].
    + apply edge_epsilon.
    + apply elem_of_range in Hg. by apply edge_spacer.
    + apply elem_of_range in Hg. by apply edge_spacer_tail.
    + apply elem_of_range in Hk. rewrite item_nonneg in Hc by lia.
      apply edge_tail; [lia|done].
  - intros [k c Hk Hc| |g c Hg Hc|g c Hg Hmin Hc|k c Hk Hc].
    + left. left. left. right. exists k. pose proof (lookup_lt_Some _ _ _ Hc).
      split; [apply elem_of_range; unfold len; lia|].
      exists c. by rewrite item_nonneg.
    + left. left. by right.
    + left. right. exists g. split; [by apply elem_of_range|]. left. by exists c.
    + left. right. exists g. split; [by apply elem_of_range|]. right.
      split; [done|]. by exists c.
    + right. exists k. pose proof (lookup_lt_Some _ _ _ Hc).
      split; [apply elem_of_range; unfold len; lia|].
      exists c. by rewrite item_nonneg.
Qed.

Lemma enfa_diagram_edge_inv e s a ns :
  enfa_diagram_edge e s a ns ->
  (exists k c, 0 <= k /\ ENFA.head e !! Z.to_nat k = Some c
     /\ s = ENFA.St ENFA.Head k /\ a = Some c /\ ns = ENFA.St ENFA.Head (k + 1))
  \/ (s = ENFA.St ENFA.Head (len (ENFA.head e)) /\ a = None
      /\ ns = ENFA.St ENFA.Spacer 0)
  \/ (exists g c, 0 <= g < ENFA.max_gap e /\ c ∈ alphabet
        /\ s = ENFA.St ENFA.Spacer g /\ a = Some c
        /\ ns = ENFA.St ENFA.Spacer (g + 1))
  \/ (exists g c, 0 <= g < ENFA.max_gap e /\ ENFA.min_gap e <= g
        /\ ENFA.tail e !! 0%nat = Some c
        /\ s = ENFA.St ENFA.Spacer g /\ a = Some c /\ ns = ENFA.St ENFA.Tail 1)
  \/ (exists k c, 0 <= k /\ ENFA.tail e !! Z.to_nat k = Some c
        /\ s = ENFA.St ENFA.Tail k /\ a = Some c /\ ns = ENFA.St ENFA.Tail (k + 1)).
Proof.
  destruct 1 as [k c Hk Hc| |g c Hg Hc|g c Hg Hmin Hc|k c Hk Hc].
  - left. by exists k, c.
  - right. left. done.
  - right. right. left. by exists g, c.
  - right. right. right. left. by exists g, c.
  - right. right. right. right. by exists k, c.
Qed.

(** X15: the table that the spacer engine's [get_transitions] exports has
    exactly five kinds of edge: [(head,k)] to [(head,k+1)] on [head[k]];
    an epsilon edge from [(head,len(head))] to [(spacer,0)];
    [(spacer,g)] to [(spacer,g+1)] on each of the four bases for
    [g < max_gap]; [(spacer,g)] to [(tail,1)] on [tail[0]] for
    [min_gap <= g < max_gap]; [(tail,k)] to [(tail,k+1)] on [tail[k]].
    When [max_gap] is not negative both ends of every edge are states that
    [get_states] lists. *)
Theorem enfa_get_transitions_edges (e : ENFA.t) :
  (forall s a ns,
     enfa_edge (ENFA.get_transitions e) s a ns <-> enfa_diagram_edge e s a ns)
  /\ (0 <= ENFA.max_gap e ->
      forall s a ns, enfa_edge (ENFA.get_transitions e) s a ns ->
                     s ∈ ENFA.get_states e /\ ns ∈ ENFA.get_states e).
Proof.
  split; [apply enfa_get_transitions_edge|].
  intros Hmax s a ns Hedge. apply enfa_get_transitions_edge in Hedge.
  pose proof (len_nonneg (ENFA.head e)). pose proof (len_nonneg (ENFA.tail e)).
  rewrite !enfa_get_states_elem.
  destruct Hedge as [k c Hk Hc| |g c Hg Hc|g c Hg Hmin Hc|k c Hk Hc];
    cbn [ENFA.phase ENFA.k];
    try (apply lookup_lt_Some in Hc; unfold len in *); lia.
Qed.

(** X16: [step] against the exported diagram.  From a state [s] that
    [get_states] lists, reading [c] leads the stepping engine to [ns]
    exactly when the diagram has the edge [s -c-> ns] and [ns] is not
    [(head, len(head))], or the diagram has the edge from [s] on [c] to
    [(head, len(head))] and [ns] is [(spacer, 0)], or in two cases the
    diagram does not show: a spacer state below [max_gap] consumes a symbol
    outside the four bases, and [(spacer, max_gap)] moves to [(tail, 1)] on
    [tail[0]]. *)
Theorem enfa_step_against_diagram pat e s c ns :
  ENFA.new pat = Ok e -> s ∈ ENFA.get_states e ->
  (ns ∈ ENFA.advance e c s
   <-> (enfa_edge (ENFA.get_transitions e) s (Some c) ns
        /\ ns <> ENFA.St ENFA.Head (len (ENFA.head e)))
       \/ (ns = ENFA.St ENFA.Spacer 0
           /\ enfa_edge (ENFA.get_transitions e) s (Some c)
                        (ENFA.St ENFA.Head (len (ENFA.head e))))
       \/ ((c ∉ alphabet)
           /\ exists g, g < ENFA.max_gap e /\ s = ENFA.St ENFA.Spacer g
                        /\ ns = ENFA.St ENFA.Spacer (g + 1))
       \/ (s = ENFA.St ENFA.Spacer (ENFA.max_gap e)
           /\ ENFA.tail e !! 0%nat = Some c /\ ns = ENFA.St ENFA.Tail 1)).
Proof.
  intros Hnew Hs. pose proof (enfa_new_gaps pat e Hnew) as Hg.
  apply enfa_get_states_elem in Hs as [Hk Hs].
  rewrite !enfa_get_transitions_edge. split.
  - intros Hadv. apply enfa_advance_inv in Hadv. destruct s as [ph k].
    cbn [ENFA.phase ENFA.k] in *. destruct ph.
    + destruct Hadv as (Hlt & Hit & ->). apply item_is_true in Hit; [|done].
      destruct (Z.eqb_spec (k + 1) (len (ENFA.head e))) as [Heq|Hne].
      * right. left. split; [done|]. rewrite <- Heq. by apply edge_head.
      * left. split; [by apply edge_head|]. intros [= ?]. lia.
    + destruct Hadv as [[Hlt ->]|(Hmin & Hlt & Hit & ->)].
      * destruct (decide (c ∈ alphabet)) as [Hc|Hc].
        -- left. split; [by apply edge_spacer|done].
        -- right. right. left. split; [done|]. by exists k.
      * apply item_is_true in Hit; [|done].
        destruct (decide (k = ENFA.max_gap e)) as [->|Hne].
        -- right. right. right. done.
        -- left. split; [|done]. apply edge_spacer_tail; [lia|done|done].
    + destruct Hadv as (Hlt & Hit & ->). apply item_is_true in Hit; [|done].
      left. split; [by apply edge_tail|done].
  - intros [[Hedge Hne]|[[-> Hedge]|[[Hc (g & Hlt & -> & ->)]|(-> & Hc & ->)]]].
    + apply enfa_diagram_edge_inv in Hedge
        as [(k & c' & Hk' & Hc & -> & [= <-] & ->)
           |[(_ & [=] & _)
           |[(g & c' & Hg' & Hc & -> & [= <-] & ->)
           |[(g & c' & Hg' & Hmin & Hc & -> & [= <-] & ->)
           |(k & c' & Hk' & Hc & -> & [= <-] & ->)]]]].
      * pose proof (enfa_advance_head e c k) as Hadv.
        destruct (Z.eqb_spec (k + 1) (len (ENFA.head e))) as [Heq|_];
          [by rewrite Heq in Hne|].
        apply Hadv; [apply lookup_lt_Some in Hc; unfold len; lia|].
        by apply item_is_true.
      * apply enfa_advance_spacer. lia.
      * apply enfa_advance_spacer_tail; [done| |by apply item_is_true].
        apply lookup_lt_Some in Hc. unfold len. lia.
      * apply enfa_advance_tail; [|by apply item_is_true].
        apply lookup_lt_Some in Hc. unfold len. lia.
    + apply enfa_diagram_edge_inv in Hedge
        as [(k & c' & Hk' & Hc & -> & [= <-] & [= Heq])
           |[(_ & [=] & _)
           |[(g & c' & _ & _ & _ & _ & [=])
           |[(g & c' & _ & _ & _ & _ & _ & [=])
           |(k & c' & _ & _ & _ & _ & [=])]]]].
      pose proof (enfa_advance_head e c k) as Hadv.
      rewrite <- Heq, Z.eqb_refl in Hadv.
      apply Hadv; [lia|]. by apply item_is_true.
    + by apply enfa_advance_spacer.
    + apply enfa_advance_spacer_tail; [lia| |by apply item_is_true].
      apply lookup_lt_Some in Hc. unfold len. lia.
Qed.

Lemma enfa_step_against_diagram_witness :
  ENFA.St ENFA.Tail 1
  ∈ ENFA.advance (ENFA.mk (lit "TA{2,2}G") (lit "TA") 2 2 (lit "G")
                    {[ ENFA.St ENFA.Head 0 ]}) "G" (ENFA.St ENFA.Spacer 2)
  /\ ~ enfa_edge (ENFA.get_transitions
                    (ENFA.mk (lit "TA{2,2}G") (lit "TA") 2 2 (lit "G")
                       {[ ENFA.St ENFA.Head 0 ]}))
         (ENFA.St ENFA.Spacer 2) (Some "G"%char) (ENFA.St ENFA.Tail 1).
Proof.
  split.
  - refine (proj2 (enfa_step_against_diagram (lit "ta{2,2}g") _
                     (ENFA.St ENFA.Spacer 2) "G"%char (ENFA.St ENFA.Tail 1) _ _) _).
    + vm_compute. reflexivity.
    + apply (bool_decide_unpack _). vm_compute. exact I.
    + right. right. right. done.
  - intros (X & HX & _). vm_compute in HX. discriminate HX.
Defined.

(** ** Searching a sequence and a prefix of it *)

Lemma slice_app_l {A} (t u : list A) a b :
  0 <= a -> a <= b -> b <= len t -> slice (t ++ u) a b = slice t a b.
Proof.
  intros Ha Hab Hb. pose proof (len_nonneg u).
  rewrite !slice_take_drop; [|lia..|rewrite len_app; lia].
  rewrite drop_app_le by (unfold len in *; lia).
  rewrite take_app_le; [done|]. rewrite length_drop. unfold len in *. lia.
Qed.

Lemma occurs_at_app_l w t u i :
  occurs_at w t i <-> occurs_at w (t ++ u) i /\ i + len w <= len t.
Proof.
  split.
  - intros H. split.
    + destruct H as (pre & post & -> & <-). exists pre, (post ++ u).
      by rewrite <- !app_assoc.
    + apply occurs_at_iff in H. lia.
  - intros [H Hle]. apply occurs_at_iff in H as (Hi & _ & Hs).
    pose proof (len_nonneg w).
    apply occurs_at_iff. split; [done|]. split; [done|].
    by rewrite slice_app_l in Hs by lia.
Qed.

Lemma dfa_find_all_matches_snoc d s x :
  exists ms,
    (DFA.find_all_matches d (s ++ [x])).2 = (DFA.find_all_matches d s).2 ++ ms
    /\ forall ab, ab ∈ ms -> ab.2 = len s.
Proof.
  unfold DFA.find_all_matches. rewrite enumerate_snoc, foldl_app.
  destruct (foldl DFA.scan (DFA.reset d, []) (enumerate s)) as [d1 ms1].
  cbn [foldl snd]. unfold DFA.scan.
  destruct (DFA.step d1 x) as [d' [st m]]. destruct m; cbn [snd].
  - eexists. split; [done|]. by intros ab ->%list_elem_of_singleton.
  - exists []. split; [by rewrite app_nil_r|]. by intros ab ?%elem_of_nil.
Qed.

Lemma dfa_find_all_matches_ends d s ab :
  ab ∈ (DFA.find_all_matches d s).2 -> 0 <= ab.2 < len s.
Proof.
  induction s as [|x s IH] using rev_ind; [by intros ?%elem_of_nil|].
  destruct (dfa_find_all_matches_snoc d s x) as (ms & -> & Hms).
  rewrite len_app. change (len [x]) with 1. pose proof (len_nonneg s).
  intros [Hin|Hin]%elem_of_app; [apply IH in Hin; lia|].
  rewrite (Hms _ Hin). lia.
Qed.

Lemma dfa_find_all_matches_extends d t u ab :
  ab ∈ (DFA.find_all_matches d t).2
  <-> ab ∈ (DFA.find_all_matches d (t ++ u)).2 /\ ab.2 < len t.
Proof.
  induction u as [|x u IH] using rev_ind.
  - rewrite app_nil_r. split; [|by intros [? _]].
    intros H. split; [done|]. apply dfa_find_all_matches_ends in H. lia.
  - rewrite app_assoc.
    destruct (dfa_find_all_matches_snoc d (t ++ u) x) as (ms & -> & Hms).
    rewrite elem_of_app, IH. split; [intros []; by split; [left|]|].
    intros [[H|H] Hlt]; [done|]. apply Hms in H. rewrite len_app in H.
    pose proof (len_nonneg u). lia.
Qed.

Lemma foldl_ext_in {A B} (f g : A -> B -> A) (l : list B) (a : A) :
  (forall a x, x ∈ l -> f a x = g a x) -> foldl f a l = foldl g a l.
Proof.
  revert a. induction l as [|x l IH]; intros a H; [done|]. cbn [foldl].
  rewrite (H a x) by by left. apply IH. intros a' y Hy. apply H. by right.
Qed.

Lemma nfa_choose_L_app_l e t u i :
  0 <= i < len t -> NFA.choose_L e (t ++ u) i = NFA.choose_L e t i.
Proof.
  intros Hi. unfold NFA.choose_L. apply foldl_ext_in.
  intros L Lc HLc. apply elem_of_elements in HLc. unfold NFA.alt_lens in HLc.
  apply elem_of_list_to_set, list_elem_of_fmap in HLc as (alt & -> & _).
  pose proof (len_nonneg alt).
  destruct (Z.geb_spec (i - len alt + 1) 0) as [Hge|Hlt].
  - by rewrite slice_app_l by lia.
  - by rewrite !andb_false_r.
Qed.

Lemma nfa_flag_app_l e t u i :
  0 <= i < len t -> nfa_flag e (t ++ u) i = nfa_flag e t i.
Proof.
  intros Hi. unfold nfa_flag. rewrite !item_nonneg by lia.
  rewrite lookup_app_l by (unfold len in Hi; lia).
  by rewrite take_app_le by (unfold len in Hi; lia).
Qed.

(** X17: for the exact-match, the alternatives and the spacer engine the
    matches found in a prefix of a sequence are exactly the matches of the
    whole sequence that end inside the prefix, so appending symbols never
    changes or removes a match already found.  The complement-palindrome
    engine does not behave so: "GAATT" gives the span [(1,4)], "GAATTC" the
    span [(0,5)] alone. *)
Theorem find_all_matches_of_prefix (t u : str) (a b : Z) :
  (forall d : DFA.t,
     (a, b) ∈ (DFA.find_all_matches d t).2
     <-> (a, b) ∈ (DFA.find_all_matches d (t ++ u)).2 /\ b < len t)
  /\ (forall e : NFA.t,
        (a, b) ∈ (NFA.find_all_matches e t).2
        <-> (a, b) ∈ (NFA.find_all_matches e (t ++ u)).2 /\ b < len t)
  /\ (forall e : ENFA.t, 0 <= ENFA.min_gap e ->
        (a, b) ∈ (ENFA.find_all_matches e t).2
        <-> (a, b) ∈ (ENFA.find_all_matches e (t ++ u)).2 /\ b < len t)
  /\ (PDA.find_all_matches (PDA.new (lit "PALINDROME") 4) (lit "GAATT")).2 = [(1, 4)]
  /\ (PDA.find_all_matches (PDA.new (lit "PALINDROME") 4)
        (lit "GAATT" ++ lit "C")).2 = [(0, 5)].
Proof.
  split; [|split; [|split; [|split]]].
  - intros d. apply (dfa_find_all_matches_extends d t u (a, b)).
  - intros e. rewrite !nfa_find_all_matches_elem, upper_app, len_upper.
    pose proof (len_nonneg (upper u)).
    split.
    + intros (Hb & Hf & HL & Ha). rewrite <- (len_upper t) in Hb |- *.
      rewrite len_app, nfa_flag_app_l, nfa_choose_L_app_l by done.
      split_and!; try done; lia.
    + intros [(Hb & Hf & HL & Ha) Hlt]. rewrite <- (len_upper t) in Hlt |- *.
      rewrite nfa_flag_app_l, nfa_choose_L_app_l in * by lia.
      split_and!; try done; lia.
  - intros e Hmin. rewrite !enfa_find_all_matches_elem, upper_app by done.
    rewrite <- (len_upper t).
    pose proof (len_nonneg (ENFA.head e)). pose proof (len_nonneg (ENFA.tail e)).
    split.
    + intros (g & -> & Hh & Hg & Ht).
      apply (occurs_at_app_l _ _ (upper u)) in Hh as [Hh _].
      apply (occurs_at_app_l _ _ (upper u)) in Ht as [Ht Hle].
      split; [|lia]. by exists g.
    + intros [(g & -> & Hh & Hg & Ht) Hlt]. exists g. split; [done|].
      split; [apply (occurs_at_app_l _ _ (upper u)); split; [done|lia]|].
      split; [done|]. apply (occurs_at_app_l _ _ (upper u)). split; [done|lia].
  - vm_compute. reflexivity.
  - vm_compute. reflexivity.
Qed.

(** ** The order of the result lists *)






(** ** Letter case *)

Lemma dfa_step_upper d x : DFA.step d (upper_char x) = DFA.step d x.
Proof. unfold DFA.step. by rewrite upper_char_idemp. Qed.

Lemma dfa_scan_upper acc S :
  foldl DFA.scan acc (enumerate (upper S)) = foldl DFA.scan acc (enumerate S).
Proof.
  induction S as [|x S IH] using rev_ind; [done|].
  rewrite upper_app. change (upper [x]) with [upper_char x].
  rewrite !enumerate_snoc, !foldl_app, IH, len_upper. cbn [foldl].
  destruct (foldl DFA.scan acc (enumerate S)) as [d ms].
  unfold DFA.scan. by rewrite dfa_step_upper.
Qed.

(** X19: letter case does not matter.  Each constructor, and the factory,
    builds the same engine from a pattern and from its upper-cased form;
    [step] does the same on a symbol and on its upper-case form; and
    [find_all_matches] returns the same for a sequence and for its
    upper-cased form, on every engine. *)
Theorem engines_ignore_case (pat S : str) (x : ascii) :
  (DFA.new (upper pat) = DFA.new pat
   /\ NFA.new (upper pat) = NFA.new pat
   /\ ENFA.new (upper pat) = ENFA.new pat
   /\ (forall m, PDA.new (upper pat) m = PDA.new pat m)
   /\ forall tag, create_automaton tag (upper pat) = create_automaton tag pat)
  /\ ((forall d, DFA.step d (upper_char x) = DFA.step d x)
      /\ (forall e, NFA.step e (upper_char x) = NFA.step e x)
      /\ (forall e, ENFA.step e (upper_char x) = ENFA.step e x)
      /\ (forall e, PDA.step e (upper_char x) = PDA.step e x))
  /\ ((forall d, DFA.find_all_matches d (upper S) = DFA.find_all_matches d S)
      /\ (forall e, NFA.find_all_matches e (upper S) = NFA.find_all_matches e S)
      /\ (forall e, ENFA.find_all_matches e (upper S) = ENFA.find_all_matches e S)
      /\ (forall e, PDA.find_all_matches e (upper S) = PDA.find_all_matches e S)).
Proof.
  assert (Hd : DFA.new (upper pat) = DFA.new pat)
    by (unfold DFA.new; by rewrite upper_idemp).
  assert (Hn : NFA.new (upper pat) = NFA.new pat)
    by (unfold NFA.new, NFA.parse_alternatives; by rewrite upper_idemp).
  assert (He : ENFA.new (upper pat) = ENFA.new pat)
    by (unfold ENFA.new, ENFA._parse_enfa_pattern; by rewrite upper_idemp).
  assert (Hp : forall m, PDA.new (upper pat) m = PDA.new pat m)
    by (intros m; unfold PDA.new; by rewrite upper_idemp).
  split; [|split].
  - split_and!; try done. intros tag. unfold create_automaton.
    rewrite Hd, Hn, He. repeat case_decide; try done.
    destruct pat as [|c pat]; [done|]. cbn [upper map].
    change (upper_char c :: map upper_char pat) with (upper (c :: pat)).
    by rewrite Hp.
  - split_and!.
    + intros d. apply dfa_step_upper.
    + intros e. unfold NFA.step. by rewrite upper_char_idemp.
    + intros e. unfold ENFA.step. by rewrite upper_char_idemp.
    + intros e. unfold PDA.step. by rewrite upper_char_idemp.
  - split_and!.
    + intros d. unfold DFA.find_all_matches. by rewrite dfa_scan_upper.
    + intros e. unfold NFA.find_all_matches. by rewrite upper_idemp.
    + intros e. unfold ENFA.find_all_matches. by rewrite upper_idemp.
    + intros e. unfold PDA.find_all_matches. by rewrite upper_idemp.
Qed.

(** ** The alternatives engine: every state is reached *)

Lemma nfa_add_chars_onto alts alt rest :
  forall done u p2s g,
    alt ∈ alts -> alt = done ++ rest -> trie_onto alts p2s g ->
    trie_onto alts
      (foldl (NFA.add_char alt) (u, p2s, g) (enumerate_from (len done) rest)).1.2
      (foldl (NFA.add_char alt) (u, p2s, g) (enumerate_from (len done) rest)).2.
Proof.
  induction rest as [|ch rest IH]; intros done u p2s g Halt Heq Hon.
  - by rewrite enumerate_from_nil.
  - rewrite enumerate_from_cons. cbn [foldl].
    destruct (decide (rest = [])) as [->|Hrest].
    + rewrite (nfa_add_char_last alt done u p2s g ch Heq).
      rewrite enumerate_from_nil. exact Hon.
    + rewrite (nfa_add_char_mid alt done u p2s g ch rest Heq Hrest).
      assert (Heq' : alt = (done ++ [ch]) ++ rest) by by rewrite <- app_assoc.
      assert (Hl' : len (done ++ [ch]) = len done + 1) by by rewrite len_app.
      destruct (p2s !! (done ++ [ch])) as [v|] eqn:Hv; rewrite <- Hl'.
      * by apply IH.
      * apply IH; [done|done|]. intros v Hv'. cbn in Hv'.
        destruct (decide (v = NFA.g_next g)) as [->|Hne].
        -- exists (done ++ [ch]). split; [apply lookup_insert_eq|]. intros _.
           destruct rest as [|c' rest']; [done|].
           by exists alt, c', rest'.
        -- destruct (Hon v) as (q & Hq & Hprop); [lia|].
           exists q. split; [|done]. rewrite lookup_insert_ne; [done|].
           intros <-. congruence.
Qed.

Lemma nfa_add_alt_onto alts alt p2s g :
  alt ∈ alts -> trie_onto alts p2s g ->
  trie_onto alts (NFA.add_alt (p2s, g) alt).1 (NFA.add_alt (p2s, g) alt).2.
Proof.
  intros Halt Hon. unfold NFA.add_alt. destruct alt as [|c alt']; [done|].
  pose proof (nfa_add_chars_onto alts (c :: alt') (c :: alt') [] 0 p2s g Halt
                eq_refl Hon) as H.
  change (len []) with 0 in H. rewrite <- enumerate_from_0 in H.
  by destruct (foldl _ _ _) as [[u' p2s'] g'].
Qed.

Lemma nfa_add_alts_onto alts l st :
  l ⊆ alts -> trie_onto alts st.1 st.2 ->
  trie_onto alts (foldl NFA.add_alt st l).1 (foldl NFA.add_alt st l).2.
Proof.
  revert st. induction l as [|alt l IH]; intros [p2s g] Hsub Hon; [done|].
  cbn [foldl]. apply IH.
  - intros x Hx. apply Hsub. by right.
  - apply nfa_add_alt_onto; [|done]. apply Hsub. by left.
Qed.

Lemma nfa_build_graph_onto alts :
  exists p2s,
    trie_inv alts p2s (NFA._build_graph alts)
    /\ (forall alt, alt ∈ alts ->
          trie_covers_upto p2s (NFA._build_graph alts) alt (length alt))
    /\ trie_onto alts p2s (NFA._build_graph alts).
Proof.
  unfold NFA._build_graph.
  set (st0 := ({[ [] := 0 ]}, {| NFA.g_next := 1; NFA.g_trans := ∅; NFA.g_final := ∅ |})
              : gmap str Z * NFA.graph).
  exists (foldl NFA.add_alt st0 alts).1. split_and!.
  - apply (nfa_add_alts_inv alts alts st0); [done|].
    subst st0. cbn [fst snd]. split_and!.
    + apply lookup_singleton_eq.
    + intros q v [<- <-]%lookup_singleton_Some. cbn. split; [lia|done].
    + intros q1 q2 v [<- _]%lookup_singleton_Some [<- _]%lookup_singleton_Some. done.
    + intros q v [<- _]%lookup_singleton_Some Hq. done.
    + intros u ch v. unfold nfa_edge. cbn. rewrite lookup_empty. cbn.
      by intros ?%not_elem_of_empty.
    + intros u ch. cbn. by intros ?%not_elem_of_empty.
  - intros alt Halt. apply nfa_add_alts_covers; [|done]. apply lookup_singleton_eq.
  - apply (nfa_add_alts_onto alts alts st0); [done|].
    subst st0. cbn [fst snd]. intros v Hv. cbn in Hv. assert (v = 0) as -> by lia.
    exists []. split; [apply lookup_singleton_eq|done].
Qed.

Lemma nfa_alternatives_upper pat alt :
  alt ∈ NFA.parse_alternatives pat -> upper alt = alt.
Proof.
  intros Halt.
  assert (Hsub : forall c, c ∈ alt -> c ∈ upper pat).
  { intros c Hc. unfold NFA.parse_alternatives in Halt.
    destruct (filter _ _) as [|a l] eqn:Hf.
    - apply list_elem_of_singleton in Halt as ->. by apply elem_of_nil in Hc.
    - rewrite <- Hf in Halt. apply list_elem_of_filter in Halt as [_ Halt].
      destruct (split_concat "|" (upper pat)) as (Hcat & _ & _).
      assert (Hin : c ∈ concat (split "|" (upper pat))).
      { apply list_elem_of_In, in_concat. exists alt.
        split; by apply list_elem_of_In. }
      rewrite Hcat in Hin. by apply list_elem_of_filter in Hin as [_ ?]. }
  unfold upper. rewrite <- (map_id alt) at 2. apply map_ext_in.
  intros c Hc%list_elem_of_In%Hsub.
  apply list_elem_of_fmap in Hc as (c0 & -> & _). apply upper_char_idemp.
Qed.

(** X20: the graph of a constructed alternatives engine has no idle state.
    Every state that [get_states] lists other than 0 is the node of a
    non-empty proper prefix of one of the alternatives, and after [reset]
    and one [step] per symbol of that prefix the state is active; state 0
    is active after [reset]. *)
Theorem nfa_states_reached (pat : str) (e : NFA.t) (q : Z) :
  NFA.reset e = NFA.new pat -> q ∈ NFA.get_states e ->
  exists t,
    q ∈ NFA.get_current_states (nfa_steps (NFA.reset e) t)
    /\ (q = 0 -> t = [])
    /\ (q <> 0 -> t <> []
                  /\ exists alt ch rest, alt ∈ NFA.alternatives e
                                         /\ alt = t ++ ch :: rest).
Proof.
  intros He Hq.
  assert (Halts : NFA.alternatives e = NFA.parse_alternatives pat).
  { change (NFA.alternatives e) with (NFA.alternatives (NFA.reset e)). by rewrite He. }
  assert (Hg : nfa_graph e = NFA._build_graph (NFA.parse_alternatives pat)).
  { change (nfa_graph e) with (nfa_graph (NFA.reset e)). rewrite He.
    unfold nfa_graph, NFA.new. cbn. by destruct (NFA._build_graph _). }
  destruct (nfa_build_graph_onto (NFA.parse_alternatives pat))
    as (p2s & Hinv & Hcov & Hon).
  rewrite <- Hg, <- Halts in Hinv, Hcov, Hon.
  unfold NFA.get_states in Hq. apply elem_of_range in Hq.
  destruct (decide (q = 0)) as [->|Hq0].
  - exists []. split; [cbn; by apply elem_of_singleton|]. split; [done|]. by intros [].
  - destruct (Hon q Hq) as (t & Ht & Hprop).
    destruct (Hprop Hq0) as (alt & ch & rest & Halt & Heq).
    assert (Hne : t <> []).
    { intros ->. destruct Hinv as (H0 & _). congruence. }
    exists t. split; [|split; [done|]].
    + pose proof (nfa_steps_complete (NFA.alternatives e) p2s e t Hinv Hcov) as Hrun.
      assert (Hup : upper t = t).
      { rewrite Halts in Halt. apply nfa_alternatives_upper in Halt.
        rewrite Heq, upper_app in Halt.
        by apply app_inj_1 in Halt as [? _]; [|apply upper_length]. }
      rewrite Hup in Hrun.
      destruct (Hrun alt t ch rest Halt Heq Hne) as (u & Hu & Hin); [done|].
      unfold NFA.get_current_states. congruence.
    + intros _. split; [done|]. by exists alt, ch, rest.
Qed.

Lemma nfa_states_reached_witness :
  exists t, 3 ∈ NFA.get_current_states (nfa_steps (NFA.reset (NFA.new (lit "ATG|TAA"))) t)
            /\ (3 = 0 -> t = [])
            /\ (3 <> 0 -> t <> []
                /\ exists alt ch rest,
                     alt ∈ NFA.alternatives (NFA.new (lit "ATG|TAA"))
                     /\ alt = t ++ ch :: rest).
Proof.
  apply (nfa_states_reached (lit "ATG|TAA") (NFA.new (lit "ATG|TAA")) 3).
  - reflexivity.
  - apply (bool_decide_unpack _). vm_compute. exact I.
Defined.

(** ** A single literal: the alternatives engine against the exact-match engine *)

Lemma upper_char_bar c : upper_char c = "|"%char -> c = "|"%char.
Proof.
  destruct c as [[] [] [] [] [] [] [] []]; vm_compute; intros H; congruence.
Qed.

Lemma upper_no_bar s : "|"%char ∉ s -> "|"%char ∉ upper s.
Proof.
  intros Hn Hin. apply list_elem_of_fmap in Hin as (c & Hc & Hin).
  symmetry in Hc. apply upper_char_bar in Hc as ->. done.
Qed.

Lemma split_notin sep s : sep ∉ s -> split sep s = [s].
Proof.
  induction s as [|c s IH]; [done|]. intros Hn.
  apply not_elem_of_cons in Hn as [Hne Hn]. cbn [split].
  rewrite decide_False by done. by rewrite IH.
Qed.

Lemma nfa_literal_alternatives P :
  P <> [] -> "|"%char ∉ P -> NFA.parse_alternatives P = [upper P].
Proof.
  intros HP Hbar. unfold NFA.parse_alternatives.
  rewrite split_notin by by apply upper_no_bar.
  assert (upper P <> []) by (by destruct P).
  by rewrite filter_cons_True, filter_nil by done.
Qed.

(** X21: for a pattern that is one non-empty literal (no "|"), the
    alternatives engine's [find_all_matches] returns [(a, b)] exactly when
    the upper-cased literal stands in the upper-cased sequence from index
    [a] to index [b], so it reports every occurrence, overlapping ones
    included; and whatever the exact-match engine reports for the same
    literal on a sequence over the four bases, the alternatives engine
    reports too. *)
Theorem nfa_literal_finds_every_occurrence (P S : str) (a b : Z) :
  P <> [] -> "|"%char ∉ P ->
  ((a, b) ∈ (NFA.find_all_matches (NFA.new P) S).2
   <-> occurs (upper P) (upper S) a b)
  /\ (Forall (fun c => c ∈ alphabet) S ->
      (a, b) ∈ (DFA.find_all_matches (DFA.new P) S).2 ->
      (a, b) ∈ (NFA.find_all_matches (NFA.new P) S).2).
Proof.
  intros HP Hbar.
  assert (Hiff : (a, b) ∈ (NFA.find_all_matches (NFA.new P) S).2
                 <-> occurs (upper P) (upper S) a b).
  { rewrite (nfa_find_all_matches_longest_iff P S (NFA.new P) a b eq_refl).
    change (NFA.alternatives (NFA.new P)) with (NFA.parse_alternatives P).
    rewrite nfa_literal_alternatives by done.
    unfold longest_alt_ending, occurs. pose proof (len_nonneg (upper P)) as Hl.
    assert (Hpos : len (upper P) <> 0).
    { intros H0%len_zero. by destruct P. }
    split.
    - intros (Hb & HL & (alt & ->%list_elem_of_singleton & Hlen & Hends) & _).
      apply ends_at_iff in Hends as (H1 & H2 & H3).
      replace (b - len (upper P) + 1) with a in * by lia.
      split_and!; [done|lia|lia|done].
    - intros (Ha & Hlen & Hb & Hs). split; [lia|]. split; [lia|]. split.
      + exists (upper P). split; [by apply list_elem_of_singleton|].
        split; [lia|]. apply ends_at_iff.
        replace (b - len (upper P) + 1) with a by lia. split_and!; [done|lia|done].
      + intros alt ->%list_elem_of_singleton _ _. lia. }
  split; [done|]. intros HS Hin. apply Hiff.
  rewrite (upper_alphabet S HS).
  by apply (dfa_find_all_matches_occurs P S (DFA.new P)).
Qed.

Lemma nfa_literal_finds_every_occurrence_witness :
  (0, 2) ∈ (NFA.find_all_matches (NFA.new (lit "ATA")) (lit "ATATA")).2
  /\ (2, 4) ∈ (NFA.find_all_matches (NFA.new (lit "ATA")) (lit "ATATA")).2
  /\ (DFA.find_all_matches (DFA.new (lit "ATA")) (lit "ATATA")).2 = [(0, 2)].
Proof.
  assert (H1 : lit "ATA" <> []) by done.
  assert (H2 : "|"%char ∉ lit "ATA")
    by (apply (bool_decide_unpack _); vm_compute; exact I).
  split; [|split].
  - apply (proj1 (nfa_literal_finds_every_occurrence (lit "ATA") (lit "ATATA") 0 2 H1 H2)).
    apply (bool_decide_unpack _). vm_compute. exact I.
  - apply (proj1 (nfa_literal_finds_every_occurrence (lit "ATA") (lit "ATATA") 2 4 H1 H2)).
    apply (bool_decide_unpack _). vm_compute. exact I.
  - vm_compute. reflexivity.
Defined.
